(** * audioMotion-analyzer (TypeScript port): the frequency-band mapping engine

    A shallow embedding of the numeric core of [src/audiomotion-analyzer.ts]
    and of [drawBarsLines] (the [Modes] class): bin mapping, bar geometry,
    LED geometry, the peak/energy trackers and the configuration methods
    that guard them; then the labels of the frequency scale, the color
    stops of the gradient, the gradient registry and the bookkeeping of the
    input and output connections.

    Conventions of the embedding.
    - A JavaScript number that is an array index, a counter or the result of
      [Math.floor]/[Math.round]/[| 0] is a [Z]; every other number is a real
      [R] (exact arithmetic: IEEE rounding, overflow, the infinities and
      the results of a division by zero are not modelled).  [NaN] is
      modelled only where the code can produce it from an out-of-range
      array read, by the type [num].  The numbered properties (C1, ...,
      X1, ...) are stated so as not to depend on the rounding: an equality
      between real expressions states the operations of the code in the
      order of the code, and the other facts on reals are inequalities
      that leave room for the rounding, or hold to within a stated margin;
      where a divisor can be 0, a hypothesis keeps the case out or the
      statement stops at the divisor.  The lemmas in between are facts of
      the exact arithmetic.
    - A JavaScript exception is the constructor [Thrown] of [Result],
      carrying the state at the moment of the throw.
    - An array that the code fills with [push] is built newest-first inside
      the loops and reversed when the loop ends. *)

From Stdlib Require Import Reals Lra Lia ZArith List Bool String Ascii.
From Stdlib Require Import Sorted.
Import ListNotations.
Local Open Scope R_scope.

(** ** JavaScript arithmetic *)

Module JS.

(** [Math.round]: the nearest integer, ties towards +infinity. *)
Definition round (x : R) : Z := Zfloor (x + / 2).

Definition trunc (x : R) : Z := if Rle_dec 0 x then Zfloor x else Zceil x.

(** ToInt32: reduction modulo 2^32 into [-2^31, 2^31). *)
Definition wrap32 (z : Z) : Z :=
  ((z + 2147483648) mod 4294967296 - 2147483648)%Z.

(** [x | 0] *)
Definition toInt32 (x : R) : Z := wrap32 (trunc x).

(** [z >> n] on an integer operand *)
Definition shr (z n : Z) : Z := Z.shiftr (wrap32 z) n.

(** [z << n] on an integer operand *)
Definition shl (z n : Z) : Z := wrap32 (Z.shiftl (wrap32 z) n).

Definition log10 (x : R) : R := ln x / ln 10.

(** [x ** y] for a positive base *)
Definition pow (x y : R) : R := Rpower x y.

(** A number that may be [NaN]. *)
Inductive num := Fin (x : R) | NaN.

(** [a >= b] where [a] may be NaN: false on NaN. *)
Definition geb (a : num) (b : R) : bool :=
  match a with Fin x => if Rle_dec b x then true else false | NaN => false end.

(** [Math.max(a, b)]: NaN as soon as one argument is. *)
Definition max (a b : num) : num :=
  match a, b with
  | Fin x, Fin y => Fin (Rmax x y)
  | _, _ => NaN
  end.

(** [arr[i] = v] for [i <= arr.length] (a larger index would leave holes,
    filled here with [d]). *)
Fixpoint aset {A} (d : A) (l : list A) (i : nat) (v : A) : list A :=
  match i, l with
  | O, [] => [v]
  | O, _ :: t => v :: t
  | S i', [] => d :: aset d [] i' v
  | S i', h :: t => h :: aset d t i' v
  end.

End JS.

Inductive Rounding := floor | round | ceil.

(** [Math[rounding](x)] *)
Definition Math (r : Rounding) (x : R) : Z :=
  match r with
  | floor => Zfloor x
  | round => JS.round x
  | ceil => Zceil x
  end.

Definition Rltb (x y : R) : bool := if Rlt_dec x y then true else false.
Definition Rleb (x y : R) : bool := if Rle_dec x y then true else false.

(** ** constants.ts *)

Definition ROOT24 : R := JS.pow 2 (1 / 24).
Definition C0 : R := 440 * JS.pow ROOT24 (-114).

(** ** Data model *)

Module Bar.
(** The object literal of [barsPush]. *)
Record t := mk {
  posX : R;
  binLo : Z;
  binHi : Z;
  freqLo : R;
  freqHi : R;
  ratioLo : R;
  ratioHi : R;
  peak : list R;
  hold : list Z;
  value : list JS.num
}.

Definition set_posX (b : t) (v : R) : t :=
  mk v (binLo b) (binHi b) (freqLo b) (freqHi b) (ratioLo b) (ratioHi b)
     (peak b) (hold b) (value b).
Definition set_binHi (b : t) (v : Z) : t :=
  mk (posX b) (binLo b) v (freqLo b) (freqHi b) (ratioLo b) (ratioHi b)
     (peak b) (hold b) (value b).
Definition set_freqLo (b : t) (v : R) : t :=
  mk (posX b) (binLo b) (binHi b) v (freqHi b) (ratioLo b) (ratioHi b)
     (peak b) (hold b) (value b).
Definition set_freqHi (b : t) (v : R) : t :=
  mk (posX b) (binLo b) (binHi b) (freqLo b) v (ratioLo b) (ratioHi b)
     (peak b) (hold b) (value b).
Definition set_ratioLo (b : t) (v : R) : t :=
  mk (posX b) (binLo b) (binHi b) (freqLo b) (freqHi b) v (ratioHi b)
     (peak b) (hold b) (value b).
Definition set_ratioHi (b : t) (v : R) : t :=
  mk (posX b) (binLo b) (binHi b) (freqLo b) (freqHi b) (ratioLo b) v
     (peak b) (hold b) (value b).
Definition set_peak (b : t) (v : list R) : t :=
  mk (posX b) (binLo b) (binHi b) (freqLo b) (freqHi b) (ratioLo b)
     (ratioHi b) v (hold b) (value b).
Definition set_hold (b : t) (v : list Z) : t :=
  mk (posX b) (binLo b) (binHi b) (freqLo b) (freqHi b) (ratioLo b)
     (ratioHi b) (peak b) v (value b).
Definition set_value (b : t) (v : list JS.num) : t :=
  mk (posX b) (binLo b) (binHi b) (freqLo b) (freqHi b) (ratioLo b)
     (ratioHi b) (peak b) (hold b) v.
End Bar.

Module Energy.
(** [this._energy] *)
Record t := mk { val : JS.num; peak : R; hold : Z }.
End Energy.

(** What the analyzer reads from its collaborators (the audio context, the
    analyser nodes, the canvas and the window), and the flag that its
    constructor sets when they are in place. *)
Record Host := mkHost {
  _ready : bool;
  sampleRate : R;           (* audioCtx.sampleRate *)
  fftSize : Z;              (* _analyzer[0].fftSize *)
  canvas_width : Z;
  canvas_height : Z;
  _pixelRatio : R;
  devicePixelRatio : R;     (* window.devicePixelRatio *)
  screen_height : R         (* window.screen.height *)
}.

(** The option properties the geometry depends on. *)
Record Options := mkOptions {
  _mode : Z;
  _minFreq : R;
  _maxFreq : R;
  _mirror : Z;
  _radial : bool;
  _stereo : bool;
  _showLeds : bool;
  _lumiBars : bool;
  _reflexRatio : R;
  _ledParams : option (Z * R * R)
}.

(** The fields written by [_calcAux] that the geometry and the frame update
    read (the bar spacing and the alpha/outline flags only serve the
    renderer). *)
Record Aux := mkAux {
  _radius : Z;
  _isOctaveBands : bool;
  _isLedDisplay : bool;
  _isLumiBars : bool;
  _maximizeLeds : bool;
  _channelHeight : Z;
  _analyzerHeight : Z;
  _analyzerWidth : Z;
  _initialX : Z
}.

(** [this._leds]: ledCount, spaceH, spaceV, ledHeight *)
Record Leds := mkLeds {
  ledCount : Z;
  ledSpaceH : R;
  ledSpaceV : R;
  ledHeight : R
}.

Record Analyzer := mkAnalyzer {
  host : Host;
  opts : Options;
  aux : Aux;
  _bars : list Bar.t;
  _barWidth : R;
  _minLog : R;
  _logWidth : R;
  _leds : option Leds;
  _energy : Energy.t;
  _fftData : list Z * list Z
}.

Definition set_opts (a : Analyzer) (o : Options) : Analyzer :=
  mkAnalyzer (host a) o (aux a) (_bars a) (_barWidth a) (_minLog a)
             (_logWidth a) (_leds a) (_energy a) (_fftData a).
Definition set_aux (a : Analyzer) (x : Aux) : Analyzer :=
  mkAnalyzer (host a) (opts a) x (_bars a) (_barWidth a) (_minLog a)
             (_logWidth a) (_leds a) (_energy a) (_fftData a).
Definition set_bars (a : Analyzer) (bs : list Bar.t) : Analyzer :=
  mkAnalyzer (host a) (opts a) (aux a) bs (_barWidth a) (_minLog a)
             (_logWidth a) (_leds a) (_energy a) (_fftData a).
Definition set_barWidth (a : Analyzer) (w : R) : Analyzer :=
  mkAnalyzer (host a) (opts a) (aux a) (_bars a) w (_minLog a)
             (_logWidth a) (_leds a) (_energy a) (_fftData a).
Definition set_scale (a : Analyzer) (minLog logWidth : R) : Analyzer :=
  mkAnalyzer (host a) (opts a) (aux a) (_bars a) (_barWidth a) minLog
             logWidth (_leds a) (_energy a) (_fftData a).
Definition set_leds (a : Analyzer) (l : option Leds) : Analyzer :=
  mkAnalyzer (host a) (opts a) (aux a) (_bars a) (_barWidth a) (_minLog a)
             (_logWidth a) l (_energy a) (_fftData a).
Definition set_energy (a : Analyzer) (e : Energy.t) : Analyzer :=
  mkAnalyzer (host a) (opts a) (aux a) (_bars a) (_barWidth a) (_minLog a)
             (_logWidth a) (_leds a) e (_fftData a).

Definition set_minFreq (o : Options) (v : R) : Options :=
  mkOptions (_mode o) v (_maxFreq o) (_mirror o) (_radial o) (_stereo o)
            (_showLeds o) (_lumiBars o) (_reflexRatio o) (_ledParams o).
Definition set_maxFreq (o : Options) (v : R) : Options :=
  mkOptions (_mode o) (_minFreq o) v (_mirror o) (_radial o) (_stereo o)
            (_showLeds o) (_lumiBars o) (_reflexRatio o) (_ledParams o).
Definition set_mode (o : Options) (v : Z) : Options :=
  mkOptions v (_minFreq o) (_maxFreq o) (_mirror o) (_radial o) (_stereo o)
            (_showLeds o) (_lumiBars o) (_reflexRatio o) (_ledParams o).

(** ** Exceptions *)

Inductive Error :=
| ERR_FREQUENCY_TOO_LOW
| ERR_INVALID_MODE
| TypeError.

Inductive Result :=
| Ok (a : Analyzer)
| Thrown (e : Error) (a : Analyzer).

Definition state_of (r : Result) : Analyzer :=
  match r with Ok a | Thrown _ a => a end.

(** [frequencyBinCount] of an analyser node is half its [fftSize]. *)
Definition frequencyBinCount (h : Host) : Z := (fftSize h / 2)%Z.

(** ** Bin mapping *)

Section BinMapper.
Variable h : Host.

(** [_freqToBin(freq, rounding = 'round')] *)
Definition _freqToBin (freq : R) (rounding : Rounding) : Z :=
  let max := (frequencyBinCount h - 1)%Z in
  let bin := Math rounding (freq * IZR (fftSize h) / sampleRate h) in
  if (bin <? max)%Z then bin else max.

(** [binToFreq] of [_calcBars]: [bin * sampleRate / fftSize || 1]. *)
Definition binToFreq (bin : Z) : R :=
  let f := IZR bin * sampleRate h / IZR (fftSize h) in
  if Req_dec_T f 0 then 1 else f.
End BinMapper.

(** ** [_calcAux] *)

(** [mode % 10 != 0] *)
Definition isOctaveBands (mode : Z) : bool := negb (Z.rem mode 10 =? 0)%Z.

Definition _calcAux (a : Analyzer) : Analyzer :=
  let h := host a in
  let o := opts a in
  let isRadial := _radial o in
  let isDual := _stereo o && negb isRadial in
  let centerX := JS.shr (canvas_width h) 1 in
  let radius :=
    JS.toInt32 (IZR (Z.min (canvas_width h) (canvas_height h))
                * (if _stereo o then 375 / 1000 else 125 / 1000)) in
  let isOctave := isOctaveBands (_mode o) in
  let isLedDisplay := _showLeds o && isOctave && negb isRadial in
  let isLumiBars := _lumiBars o && isOctave && negb isRadial in
  let maximizeLeds :=
    negb (_stereo o) || (Rltb 0 (_reflexRatio o) && negb isLumiBars) in
  let channelHeight :=
    JS.shr (JS.toInt32 (IZR (canvas_height h)
                        - (if isDual && negb isLedDisplay then 5 / 10 else 0)))
           (if isDual then 1 else 0) in
  let analyzerHeight :=
    JS.toInt32 (IZR channelHeight
                * (if isLumiBars || isRadial then 1 else 1 - _reflexRatio o)) in
  let analyzerWidth :=
    (canvas_width h - centerX * (if (_mirror o =? 0)%Z then 0 else 1))%Z in
  let initialX :=
    (centerX * (if (_mirror o =? -1)%Z && negb isRadial then 1 else 0))%Z in
  set_aux a (mkAux radius isOctave isLedDisplay isLumiBars maximizeLeds
                   channelHeight analyzerHeight analyzerWidth initialX).

(** ** [_calcLeds] *)

(** The default LED parameters per mode: maxLeds, spaceVRatio, spaceHRatio.
    Entry 0 is the empty array. *)
Definition ledDefaults : list (option (Z * R * R)) :=
  [ None;
    Some (128%Z, 3, 45 / 100);
    Some (128%Z, 4, 225 / 1000);
    Some (96%Z, 6, 225 / 1000);
    Some (80%Z, 6, 225 / 1000);
    Some (80%Z, 6, 125 / 1000);
    Some (64%Z, 6, 125 / 1000);
    Some (48%Z, 8, 125 / 1000);
    Some (24%Z, 16, 125 / 1000) ].

(** [list[i]] for a numeric index: [None] is [undefined]. *)
Definition at_ {A} (l : list A) (i : Z) : option A :=
  if (i <? 0)%Z then None else nth_error l (Z.to_nat i).

Section Leds.
Variables (analyzerHeight : Z) (dPR : R) (maximizeLeds : bool) (barWidth : R).

(** The [do ... while] of the custom-parameters branch; [ledCount] is the
    value before the decrement.  It ends at [ledCount = 1] at the latest,
    so [maxLeds] rounds of fuel are enough. *)
Fixpoint customLoop (fuel : nat) (spaceVRatio : R) (ledCount : Z) : Z * R :=
  let minHeight := 2 * dPR in
  let ledCount := (ledCount - 1)%Z in
  let blockHeight :=
    IZR analyzerHeight / IZR ledCount / (1 + spaceVRatio) in
  let spaceV := blockHeight * spaceVRatio in
  match fuel with
  | S fuel' =>
      if (Rltb blockHeight minHeight || Rltb spaceV minHeight)
         && (1 <? ledCount)%Z
      then customLoop fuel' spaceVRatio ledCount
      else (ledCount, spaceV)
  | O => (ledCount, spaceV)
  end.

(** The body of [_calcLeds] once the parameters are chosen; [custom] tells
    whether they are [this._ledParams]. *)
Definition ledGeometry (custom : bool) (p : Z * R * R) : Leds :=
  let '(maxLeds, spaceVRatio, spaceHRatio) := p in
  if custom then
    let '(ledCount, spaceV) :=
      customLoop (Z.to_nat maxLeds) spaceVRatio (maxLeds + 1) in
    let analyzerHeight' :=
      if maximizeLeds then IZR analyzerHeight + spaceV
      else IZR analyzerHeight in
    mkLeds ledCount
           (if Rleb 1 spaceHRatio then spaceHRatio
            else barWidth * spaceHRatio)
           spaceV
           (analyzerHeight' / IZR ledCount - spaceV)
  else
    let refRatio := 540 / spaceVRatio in
    let spaceV :=
      Rmin (spaceVRatio * dPR)
           (Rmax 2 (IZR (JS.toInt32 (IZR analyzerHeight / refRatio
                                     + 1 / 10)))) in
    let analyzerHeight' :=
      if maximizeLeds then IZR analyzerHeight + spaceV
      else IZR analyzerHeight in
    let ledCount :=
      Z.min maxLeds (JS.toInt32 (analyzerHeight' / (spaceV * 2))) in
    mkLeds ledCount
           (if Rleb 1 spaceHRatio then spaceHRatio
            else barWidth * spaceHRatio)
           spaceV
           (analyzerHeight' / IZR ledCount - spaceV).
End Leds.

(** The pixel-ratio adjustment for low-resolution screens. *)
Definition dPR_of (h : Host) : R :=
  _pixelRatio h
  / (if Rltb 1 (devicePixelRatio h) && Rleb (screen_height h) 540
     then 2 else 1).

(** [_calcLeds].  With a stale octave flag and mode 0 the default entry is
    the empty array and JavaScript stores four NaN; the model stores nothing
    there (no setter leaves such a state behind). *)
Definition _calcLeds (a : Analyzer) : Result :=
  if negb (_isOctaveBands (aux a)) || negb (_ready (host a)) then Ok a
  else
    let geometry :=
      ledGeometry (_analyzerHeight (aux a)) (dPR_of (host a))
                  (_maximizeLeds (aux a)) (_barWidth a) in
    match _ledParams (opts a) with
    | Some p => Ok (set_leds a (Some (geometry true p)))
    | None =>
        match at_ ledDefaults (_mode (opts a)) with
        | Some (Some p) => Ok (set_leds a (Some (geometry false p)))
        | Some None => Ok (set_leds a None)
        | None => Thrown TypeError a
        end
    end.

(** ** [_calcBars] *)

Record TemperedEntry := mkEntry { freq : R; bin : Z; ratio : R }.

(** [barsPush]: every new bar starts with [peak: [0, 0], hold: [0],
    value: [0]]. *)
Definition barsPush (posX : R) (binLo binHi : Z)
                    (freqLo freqHi ratioLo ratioHi : R) : Bar.t :=
  Bar.mk posX binLo binHi freqLo freqHi ratioLo ratioHi
         [0; 0] [0%Z] [JS.Fin 0].

(** Number of notes grouped per band for each mode. *)
Definition stepsTable : list Z := [0; 1; 2; 3; 4; 6; 8; 12; 24]%Z.

(** How one round of a [for] loop ends. *)
Inductive Flow :=
| Next (bars : list Bar.t)
| Break (bars : list Bar.t)
| Raise (bars : list Bar.t).

Fixpoint mapi_from {A B} (f : nat -> A -> B) (i : nat) (l : list A) : list B :=
  match l with
  | [] => []
  | x :: t => f i x :: mapi_from f (S i) t
  end.

Section Bars.
Variable h : Host.
Variables minFreq maxFreq : R.

(** The body of the two nested loops that fill [temperedScale]. *)
Definition temperedEntry (octave note : nat) : TemperedEntry :=
  let freq := C0 * JS.pow ROOT24 (INR (octave * 24 + note)) in
  let bin := _freqToBin h freq floor in
  let binFreq := binToFreq h bin in
  let nextFreq := binToFreq h (bin + 1) in
  let ratio := (freq - binFreq) / (nextFreq - binFreq) in
  mkEntry freq bin ratio.

Definition temperedScale : list TemperedEntry :=
  flat_map (fun octave => map (temperedEntry octave) (seq 0 24)) (seq 0 11).

(** The range cutoff: the last bar takes one more bin. *)
Definition closeLast (prevBar : Bar.t) : Bar.t :=
  let prevBar := Bar.set_binHi prevBar (Bar.binHi prevBar + 1) in
  let prevBar := Bar.set_ratioHi prevBar 0 in
  Bar.set_freqHi prevBar (binToFreq h (Bar.binHi prevBar)).

(** The unused bins between [prevBar] and a band that starts at [binLo]:
    what becomes of [prevBar] ([before] is [bars[nBars - 2]], if any). *)
Definition redistribute (before : option Bar.t) (prevBar : Bar.t)
                        (binLo : Z) : Bar.t :=
  let diff := (binLo - Bar.binHi prevBar)%Z in
  let prevBar := Bar.set_binHi prevBar (binLo - JS.shr diff 1) in
  let prevBar := Bar.set_ratioHi prevBar 0 in
  let prevBar := Bar.set_freqHi prevBar (binToFreq h (Bar.binHi prevBar)) in
  match before with
  | Some b2 =>
      if (Bar.binLo prevBar <? Bar.binHi prevBar)%Z
         && (Bar.binHi b2 <? Bar.binLo prevBar)%Z
      then Bar.set_freqLo (Bar.set_ratioLo prevBar 0)
                          (binToFreq h (Bar.binLo prevBar))
      else prevBar
  | None => prevBar
  end.

(** A band whose starting frequency is in the selected range becomes a
    bar, after the unused bins since the last bar are shared out. *)
Definition emit (lo hi : TemperedEntry) (rbars : list Bar.t) : list Bar.t :=
  let freqLo := freq lo in
  let binLo := bin lo in
  let ratioLo := ratio lo in
  let freqHi := freq hi in
  let binHi := bin hi in
  let ratioHi := ratio hi in
  match rbars with
  | prevBar :: rest =>
      let diff := (binLo - Bar.binHi prevBar)%Z in
      let '(prevBar, binLo) :=
        if (1 <? diff)%Z then
          let prevBar := redistribute (hd_error rest) prevBar binLo in
          (prevBar, (Bar.binHi prevBar + 1)%Z)
        else (prevBar, binLo) in
      let '(ratioLo, freqLo) :=
        if (binLo <? binHi)%Z && (Bar.binHi prevBar <? binLo)%Z
        then (0, binToFreq h binLo)
        else (ratioLo, freqLo) in
      barsPush 0 binLo binHi freqLo freqHi ratioLo ratioHi :: prevBar :: rest
  | [] => [barsPush 0 binLo binHi freqLo freqHi ratioLo ratioHi]
  end.

(** One round of the band loop, on the bars pushed so far (newest first). *)
Definition band (steps index : Z) (rbars : list Bar.t) : Flow :=
  match at_ temperedScale index, at_ temperedScale (index + steps - 1) with
  | Some lo, Some hi =>
      if Rltb maxFreq (freq hi) || Rleb (IZR (fftSize h) / 2) (IZR (bin hi))
      then
        match rbars with
        | prevBar :: rest => Break (closeLast prevBar :: rest)
        | [] => Raise rbars
        end
      else if Rleb minFreq (freq lo) then Next (emit lo hi rbars)
      else Next rbars
  | _, _ => Raise rbars
  end.

(** [for (index = 0; index < temperedScale.length; index += steps)].
    Left: the bars when the loop ends; right: the bars when it throws.
    With [steps >= 1] the loop ends within [temperedScale.length] rounds;
    with [steps <= 0] the first round already throws. *)
Fixpoint bands (fuel : nat) (steps index : Z) (rbars : list Bar.t)
  : list Bar.t + list Bar.t :=
  match fuel with
  | O => inl rbars
  | S fuel' =>
      if (index <? Z.of_nat (List.length temperedScale))%Z then
        match band steps index rbars with
        | Next rbars' => bands fuel' steps (index + steps) rbars'
        | Break rbars' => inl rbars'
        | Raise rbars' => inr rbars'
        end
      else inl rbars
  end.

Definition octaveBars (steps : Z) : list Bar.t + list Bar.t :=
  match bands (List.length temperedScale) steps 0 [] with
  | inl rbars => inl (rev rbars)
  | inr rbars => inr (rev rbars)
  end.

(** Discrete frequencies: the pixel column of FFT bin [i]. *)
Definition discretePos (initialX : Z) (minLog logWidth : R) (i : Z) : Z :=
  (initialX
   + JS.round (logWidth * (JS.log10 (binToFreq h i) - minLog)))%Z.

(** [for (i = minIndex; i <= maxIndex; i++)], with [n] rounds left. *)
Fixpoint discreteLoop (pos : Z -> Z) (n : nat) (i lastPos : Z)
                      (rbars : list Bar.t) : list Bar.t :=
  match n with
  | O => rbars
  | S n' =>
      let freq := binToFreq h i in
      if (lastPos <? pos i)%Z then
        discreteLoop pos n' (i + 1) (pos i)
                     (barsPush (IZR (pos i)) i i freq freq 0 0 :: rbars)
      else
        match rbars with
        | last :: rest =>
            discreteLoop pos n' (i + 1) lastPos
              (Bar.set_freqHi (Bar.set_binHi last i) freq :: rest)
        | [] => discreteLoop pos n' (i + 1) lastPos []
        end
  end.

Definition discreteBars (analyzerWidth initialX : Z) : list Bar.t :=
  let minLog := JS.log10 minFreq in
  let logWidth := IZR analyzerWidth / (JS.log10 maxFreq - minLog) in
  let minIndex := _freqToBin h minFreq floor in
  let maxIndex := _freqToBin h maxFreq round in
  rev (discreteLoop (discretePos initialX minLog logWidth)
                    (Z.to_nat (maxIndex - minIndex + 1)) minIndex (-999) []).
End Bars.

(** [bars.forEach((bar, index) => bar.posX = initialX + index * barWidth)] *)
Definition placeBars (initialX : Z) (barWidth : R) (bars : list Bar.t)
  : list Bar.t :=
  mapi_from (fun index bar =>
               Bar.set_posX bar (IZR initialX + INR index * barWidth))
            0 bars.

Definition _calcBars (a : Analyzer) : Result :=
  let a := set_bars a [] in
  if negb (_ready (host a)) then Ok a
  else
    let h := host a in
    let analyzerWidth := _analyzerWidth (aux a) in
    let initialX := _initialX (aux a) in
    let maxFreq := _maxFreq (opts a) in
    let minFreq := _minFreq (opts a) in
    let built :=
      if _isOctaveBands (aux a) then
        match at_ stepsTable (_mode (opts a)) with
        | None => Thrown TypeError a
        | Some steps =>
            match octaveBars h minFreq maxFreq steps with
            | inr bars => Thrown TypeError (set_bars a bars)
            | inl bars =>
                let barWidth := IZR analyzerWidth / INR (List.length bars) in
                let bars := placeBars initialX barWidth bars in
                let a := set_barWidth (set_bars a bars) barWidth in
                match bars with
                | [] => Thrown TypeError a
                | first :: _ =>
                    let minLog := JS.log10 (Bar.freqLo first) in
                    let logWidth :=
                      IZR analyzerWidth
                      / (JS.log10 (Bar.freqHi (last bars first)) - minLog) in
                    Ok (set_scale a minLog logWidth)
                end
            end
        end
      else
        let minLog := JS.log10 minFreq in
        let logWidth := IZR analyzerWidth / (JS.log10 maxFreq - minLog) in
        let bars := discreteBars h minFreq maxFreq analyzerWidth initialX in
        Ok (set_scale (set_barWidth (set_bars a bars) 1) minLog logWidth)
    in
    match built with
    | Thrown e a => Thrown e a
    | Ok a => _calcLeds (_calcAux a)   (* [_createScales] only draws *)
    end.

(** ** Configuration methods *)

(** [setFreqRange(min, max)] *)
Definition setFreqRange (a : Analyzer) (min max : R) : Result :=
  if Rltb min 1 || Rltb max 1 then Thrown ERR_FREQUENCY_TOO_LOW a
  else
    let o := set_minFreq (opts a) (Rmin min max) in
    let o := set_maxFreq o (Rmax min max) in
    _calcBars (set_opts a o).

(** [set minFreq(value)] *)
Definition minFreq_set (a : Analyzer) (value : R) : Result :=
  if Rltb value 1 then Thrown ERR_FREQUENCY_TOO_LOW a
  else _calcBars (set_opts a (set_minFreq (opts a) value)).

(** [set maxFreq(value)] *)
Definition maxFreq_set (a : Analyzer) (value : R) : Result :=
  if Rltb value 1 then Thrown ERR_FREQUENCY_TOO_LOW a
  else _calcBars (set_opts a (set_maxFreq (opts a) value)).

(** [set mode(value)] ([_makeGrad] only prepares the canvas gradient). *)
Definition mode_set (a : Analyzer) (value : R) : Result :=
  let mode := JS.toInt32 value in
  if (0 <=? mode)%Z && (mode <=? 10)%Z && negb (mode =? 9)%Z then
    _calcBars (_calcAux (set_opts a (set_mode (opts a) mode)))
  else Thrown ERR_INVALID_MODE a.

(** ** The frame update: bar values and peaks *)

Section Frame.
Variable fftData : list Z.      (* the channel's Uint8Array *)
Variable channel : nat.
Variable maxBarHeight : R.

(** [fftData[j]] *)
Definition fft (j : Z) : JS.num :=
  match at_ fftData j with
  | Some v => JS.Fin (IZR v)
  | None => JS.NaN
  end.

(** [fftData[bin] + (fftData[bin + 1] - fftData[bin]) * ratio] *)
Definition interpolate (bin : Z) (ratio : R) : JS.num :=
  match fft bin, fft (bin + 1) with
  | JS.Fin lo, JS.Fin hi => JS.Fin (lo + (hi - lo) * ratio)
  | _, _ => JS.NaN
  end.

(** [for (j = binLo + 1; j < binHi; j++)], with [n] rounds left: keep the
    highest value. *)
Fixpoint highest (n : nat) (j : Z) (barHeight : JS.num) : JS.num :=
  match n with
  | O => barHeight
  | S n' =>
      highest n' (j + 1)
        match fft j, barHeight with
        | JS.Fin v, JS.Fin b => if Rltb b v then JS.Fin v else barHeight
        | _, _ => barHeight
        end
  end.

Definition barValue (bar : Bar.t) : JS.num :=
  let barHeight :=
    JS.max (interpolate (Bar.binLo bar) (Bar.ratioLo bar))
           (interpolate (Bar.binHi bar) (Bar.ratioHi bar)) in
  let barHeight :=
    highest (Z.to_nat (Bar.binHi bar - (Bar.binLo bar + 1)))
            (Bar.binLo bar + 1) barHeight in
  match barHeight with
  | JS.Fin b => JS.Fin (b / 255)
  | JS.NaN => JS.NaN
  end.

(** "update bar peak": the hold counter runs down while a peak is shown
    and, once negative, is the acceleration of the drop.  [None]: the
    code reads [hold[channel]] before ever writing it (NaN from then on
    in JavaScript). *)
Definition dropPeak (bar : Bar.t) : option Bar.t :=
  match nth_error (Bar.peak bar) channel with
  | Some p =>
      if Rltb 0 p then
        match nth_error (Bar.hold bar) channel with
        | Some hd =>
            let hd := (hd - 1)%Z in
            let bar := Bar.set_hold bar (JS.aset 0%Z (Bar.hold bar) channel hd) in
            if (hd <? 0)%Z then
              Some (Bar.set_peak bar
                      (JS.aset 0 (Bar.peak bar) channel
                               (p + IZR hd / maxBarHeight)))
            else Some bar
        | None => None
        end
      else Some bar
  | None => Some bar
  end.

(** "check if it's a new peak for this bar" *)
Definition newPeak (barHeight : JS.num) (bar : Bar.t) : Bar.t :=
  match nth_error (Bar.peak bar) channel, barHeight with
  | Some p, JS.Fin v =>
      if Rleb p v then
        Bar.set_hold (Bar.set_peak bar (JS.aset 0 (Bar.peak bar) channel v))
                     (JS.aset 0%Z (Bar.hold bar) channel 30%Z)
      else bar
  | _, _ => bar
  end.

(** One round of the bar loop of [drawBarsLines], without the drawing. *)
Definition drawBar (bar : Bar.t) : option Bar.t :=
  let barHeight := barValue bar in
  let bar :=
    Bar.set_value bar (JS.aset JS.NaN (Bar.value bar) channel barHeight) in
  option_map (newPeak barHeight) (dropPeak bar).

(** [drawBarsLines] over all the bars.  Its [currentEnergy] parameter is a
    number passed by value: what the method adds to it is lost when the
    method returns. *)
Fixpoint drawBarsLines (bars : list Bar.t) : option (list Bar.t) :=
  match bars with
  | [] => Some []
  | bar :: rest =>
      match drawBar bar, drawBarsLines rest with
      | Some bar', Some rest' => Some (bar' :: rest')
      | _, _ => None
      end
  end.
End Frame.

(** "Update energy" at the end of [_draw]. *)
Definition updateEnergy (val : JS.num) (energy : Energy.t) : Energy.t :=
  let peak := Energy.peak energy in
  let hold := Energy.hold energy in
  if JS.geb val peak then
    match val with
    | JS.Fin v => Energy.mk val v 30
    | JS.NaN => energy
    end
  else if (0 <? hold)%Z then Energy.mk val peak (hold - 1)
  else if Rltb 0 peak then
    Energy.mk val (peak * ((30 + IZR hold) / 30)) (hold - 1)
  else Energy.mk val peak hold.

(** [_draw] as far as the state goes, when no round of [drawBarsLines]
    throws: [input] is what [getByteFrequencyData] writes into the two FFT
    arrays.  [None] as in [dropPeak]. *)
Definition _drawState (a : Analyzer) (input : list Z * list Z)
  : option Analyzer :=
  let isRadial := _radial (opts a) in
  let isStereo := _stereo (opts a) in
  let centerX := JS.shr (canvas_width (host a)) 1 in
  let centerY := JS.shr (canvas_height (host a)) 1 in
  let maxBarHeight :=
    if isRadial then IZR (Z.min centerX centerY - _radius (aux a))
    else IZR (_analyzerHeight (aux a)) in
  let currentEnergy := 0 in
  let nBars := Z.of_nat (List.length (_bars a)) in
  let fftData :=
    if isStereo then input else (fst input, snd (_fftData a)) in
  let bars0 := drawBarsLines (fst fftData) 0 maxBarHeight (_bars a) in
  let bars1 :=
    if isStereo then
      match bars0 with
      | Some bars => drawBarsLines (snd fftData) 1 maxBarHeight bars
      | None => None
      end
    else bars0 in
  match bars1 with
  | None => None
  | Some bars =>
      let divisor := JS.shl nBars (if isStereo then 1 else 0) in
      let val :=
        if (divisor =? 0)%Z then JS.NaN
        else JS.Fin (currentEnergy / IZR divisor) in
      Some (mkAnalyzer (host a) (opts a) (aux a) bars (_barWidth a)
                       (_minLog a) (_logWidth a) (_leds a)
                       (updateEnergy val (_energy a)) fftData)
  end.

(** The one statement of the drawing half of [drawBarsLines] that can
    throw: in mode 10 the round of the first bar computes [nextBarAvg] from
    [this._bars[1].binLo], a TypeError when there is one bar only.  With
    [useCanvas] off, every round stops before the drawing. *)
Definition nextBarMissing (useCanvas : bool) (a : Analyzer) : bool :=
  useCanvas && (_mode (opts a) =? 10)%Z
  && (List.length (_bars a) =? 1)%nat.

(** [_draw].  [Thrown] carries the state at the throw, in the first round
    of channel 0: the FFT array of the channel is read and the first bar is
    updated, the energy is not; the next frame is then not scheduled. *)
Definition _draw (useCanvas : bool) (a : Analyzer) (input : list Z * list Z)
  : option Result :=
  if nextBarMissing useCanvas a then
    let centerX := JS.shr (canvas_width (host a)) 1 in
    let centerY := JS.shr (canvas_height (host a)) 1 in
    let maxBarHeight :=
      if _radial (opts a) then IZR (Z.min centerX centerY - _radius (aux a))
      else IZR (_analyzerHeight (aux a)) in
    match _bars a with
    | bar :: rest =>
        match drawBar (fst input) 0 maxBarHeight bar with
        | Some bar' =>
            Some (Thrown TypeError
                    (mkAnalyzer (host a) (opts a) (aux a) (bar' :: rest)
                                (_barWidth a) (_minLog a) (_logWidth a)
                                (_leds a) (_energy a)
                                (fst input, snd (_fftData a))))
        | None => None
        end
    | [] => None
    end
  else option_map Ok (_drawState a input).

(** ** [getEnergy] *)

(** *** Strings as numbers

    [+s] and [s == n] convert the string with StringToNumber (ECMA-262,
    7.1.4.1.1).  A string is a [string] of code units below 256. *)

Module StringToNumber.

Inductive t := SNaN | SNum (x : R) | SInfinity (negative : bool).

Definition code (c : ascii) : Z := Z.of_nat (nat_of_ascii c).

(** StrWhiteSpaceChar, among the code units below 256: TAB, LF, VT, FF,
    CR, SP and NBSP. *)
Definition isWhiteSpace (c : ascii) : bool :=
  let n := code c in
  ((9 <=? n) && (n <=? 13) || (n =? 32) || (n =? 160))%Z.

Fixpoint trimStart (l : list ascii) : list ascii :=
  match l with
  | c :: t => if isWhiteSpace c then trimStart t else l
  | [] => []
  end.

Definition trim (l : list ascii) : list ascii :=
  rev (trimStart (rev (trimStart l))).

(** The value of a digit in the given base (hexadecimal letters in both
    cases). *)
Definition digit (base : Z) (c : ascii) : option Z :=
  let n := code c in
  let v :=
    if ((48 <=? n) && (n <=? 57))%Z then Some (n - 48)%Z
    else if ((97 <=? n) && (n <=? 102))%Z then Some (n - 87)%Z
    else if ((65 <=? n) && (n <=? 70))%Z then Some (n - 55)%Z
    else None in
  match v with
  | Some d => if (d <? base)%Z then Some d else None
  | None => None
  end.

(** The longest prefix of digits: its value on top of [acc], its length
    and what follows it. *)
Fixpoint digits (base : Z) (l : list ascii) (acc : Z) (count : Z)
  : Z * Z * list ascii :=
  match l with
  | c :: t =>
      match digit base c with
      | Some d => digits base t (acc * base + d)%Z (count + 1)%Z
      | None => (acc, count, l)
      end
  | [] => (acc, count, [])
  end.

(** NonDecimalIntegerLiteral after its two-character prefix. *)
Definition nonDecimal (base : Z) (l : list ascii) : t :=
  match digits base l 0 0 with
  | (v, count, []) => if (0 <? count)%Z then SNum (IZR v) else SNaN
  | _ => SNaN
  end.

(** ExponentPart after its [e]: an optional sign and at least one digit,
    up to the end of the string. *)
Definition exponent (l : list ascii) : option Z :=
  let '(negative, l) :=
    match l with
    | "+"%char :: t => (false, t)
    | "-"%char :: t => (true, t)
    | _ => (false, l)
    end in
  match digits 10 l 0 0 with
  | (e, count, []) =>
      if (0 <? count)%Z then Some (if negative then - e else e)%Z else None
  | _ => None
  end.

(** StrUnsignedDecimalLiteral *)
Definition unsignedDecimal (l : list ascii) : t :=
  if list_eq_dec ascii_dec l (list_ascii_of_string "Infinity")
  then SInfinity false
  else
    let '(m, n1, l) := digits 10 l 0 0 in
    let '(m, n2, l) :=
      match l with
      | "."%char :: t => digits 10 t m 0
      | _ => (m, 0%Z, l)
      end in
    if (n1 + n2 =? 0)%Z then SNaN
    else
      match l with
      | [] => SNum (IZR m * powerRZ 10 (- n2))
      | c :: t =>
          if ((code c =? 101) || (code c =? 69))%Z then
            match exponent t with
            | Some e => SNum (IZR m * powerRZ 10 (e - n2))
            | None => SNaN
            end
          else SNaN
      end.

Definition negate (v : t) : t :=
  match v with
  | SNaN => SNaN
  | SNum x => SNum (- x)
  | SInfinity negative => SInfinity (negb negative)
  end.

Definition of_chars (l : list ascii) : t :=
  match trim l with
  | [] => SNum 0
  | "+"%char :: t => unsignedDecimal t
  | "-"%char :: t => negate (unsignedDecimal t)
  | "0"%char :: c :: t =>
      if ((code c =? 120) || (code c =? 88))%Z then nonDecimal 16 t
      else if ((code c =? 111) || (code c =? 79))%Z then nonDecimal 8 t
      else if ((code c =? 98) || (code c =? 66))%Z then nonDecimal 2 t
      else unsignedDecimal ("0"%char :: c :: t)
  | l' => unsignedDecimal l'
  end.

Definition of_string (s : string) : t := of_chars (list_ascii_of_string s).

End StringToNumber.

(** The first argument of [getEnergy]: nothing, a (finite) number or a
    string. *)
Inductive Arg := Undefined | Number (x : R) | Str (s : string).

(** What [presets[name]] finds. *)
Inductive Lookup :=
| Own (startFreq endFreq : R)
| Inherited                    (* a property of [Object.prototype] *)
| Missing.

(** The names every object literal inherits from [Object.prototype]. *)
Definition objectPrototype : list string :=
  [ "constructor"; "hasOwnProperty"; "isPrototypeOf"; "propertyIsEnumerable";
    "toLocaleString"; "toString"; "valueOf"; "__proto__";
    "__defineGetter__"; "__defineSetter__"; "__lookupGetter__";
    "__lookupSetter__" ]%string.

Definition presets (name : string) : Lookup :=
  if String.eqb name "bass" then Own 20 250
  else if String.eqb name "lowMid" then Own 250 500
  else if String.eqb name "mid" then Own 500 2000
  else if String.eqb name "highMid" then Own 2000 4000
  else if String.eqb name "treble" then Own 4000 16000
  else if existsb (String.eqb name) objectPrototype then Inherited
  else Missing.

Inductive Value := Null | Num (v : JS.num).

Inductive Outcome :=
| Return (v : Value)
| Throw (e : Error)
| Diverge.                      (* the loop never ends *)

Section GetEnergy.
Variable a : Analyzer.

(** [for (i = startBin; i <= endBin; i++) energy += fftData[channel][i]],
    with [n] rounds left. *)
Fixpoint sumBins (fftData : list Z) (n : nat) (i : Z) (energy : JS.num)
  : JS.num :=
  match n with
  | O => energy
  | S n' =>
      sumBins fftData n' (i + 1)
        match energy, fft fftData i with
        | JS.Fin e, JS.Fin v => JS.Fin (e + v)
        | _, _ => JS.NaN
        end
  end.

(** The part of [getEnergy] after the bins are known. *)
Definition binsEnergy (startBin endBin : Z) : JS.num :=
  let isStereo := _stereo (opts a) in
  let chnCount := if isStereo then 2 else 1 in
  let n := Z.to_nat (endBin - startBin + 1) in
  let energy := sumBins (fst (_fftData a)) n startBin (JS.Fin 0) in
  let energy :=
    if isStereo then sumBins (snd (_fftData a)) n startBin energy
    else energy in
  match energy with
  | JS.Fin e =>
      if (endBin - startBin + 1 =? 0)%Z then JS.NaN
      else JS.Fin (e / IZR (endBin - startBin + 1) / chnCount / 255)
  | JS.NaN => JS.NaN
  end.

(** From "const startBin = ..." on, for finite numbers; [endFreq] is
    falsy when it is undefined or 0. *)
Definition rangeEnergy (startFreq : R) (endFreq : option R) : Outcome :=
  let startBin := _freqToBin (host a) startFreq round in
  let endBin :=
    match endFreq with
    | Some e => if Req_dec_T e 0 then startBin
                else _freqToBin (host a) e round
    | None => startBin
    end in
  Return (Num (binsEnergy startBin endBin)).

Definition getEnergy (startFreq : Arg) (endFreq : option R)
  : Analyzer * Outcome :=
  match startFreq with
  | Undefined => (a, Return (Num (Energy.val (_energy a))))
  | Number x => (a, rangeEnergy x endFreq)
  | Str s =>
      match StringToNumber.of_string s with
      | StringToNumber.SNaN =>
          (* startFreq != +startFreq *)
          if String.eqb s "peak"
          then (a, Return (Num (JS.Fin (Energy.peak (_energy a)))))
          else
            match presets s with
            | Missing => (a, Return Null)
            | Inherited => (a, Throw TypeError)   (* not iterable *)
            | Own lo hi => (a, rangeEnergy lo (Some hi))
            end
      | StringToNumber.SNum x => (a, rangeEnergy x endFreq)
      | StringToNumber.SInfinity false =>
          (* the bin saturates at the last one *)
          let max := (frequencyBinCount (host a) - 1)%Z in
          let endBin :=
            match endFreq with
            | Some e => if Req_dec_T e 0 then max
                        else _freqToBin (host a) e round
            | None => max
            end in
          (a, Return (Num (binsEnergy max endBin)))
      | StringToNumber.SInfinity true => (a, Diverge)
      end
  end.
End GetEnergy.

(** ** More of the configuration *)

Definition TAU : R := 2 * PI.
Definition HALF_PI : R := PI / 2.
Definition RPM : R := TAU / 3600.

Definition set_mirror (o : Options) (v : Z) : Options :=
  mkOptions (_mode o) (_minFreq o) (_maxFreq o) v (_radial o) (_stereo o)
            (_showLeds o) (_lumiBars o) (_reflexRatio o) (_ledParams o).
Definition set_reflexRatio (o : Options) (v : R) : Options :=
  mkOptions (_mode o) (_minFreq o) (_maxFreq o) (_mirror o) (_radial o)
            (_stereo o) (_showLeds o) (_lumiBars o) v (_ledParams o).
Definition set_ledParams (o : Options) (v : option (Z * R * R)) : Options :=
  mkOptions (_mode o) (_minFreq o) (_maxFreq o) (_mirror o) (_radial o)
            (_stereo o) (_showLeds o) (_lumiBars o) (_reflexRatio o) v.

(** [Math.sign(x)] *)
Definition sign (x : R) : R :=
  if Rltb 0 x then 1 else if Rltb x 0 then -1 else 0.

(** [+value || 0] for a value that converts to a number or to NaN. *)
Definition orZero (value : JS.num) : R :=
  match value with JS.Fin x => x | JS.NaN => 0 end.

(** [set mirror(value)]: [Math.sign(value) | 0], where NaN gives 0. *)
Definition mirror_set (a : Analyzer) (value : JS.num) : Result :=
  let mirror :=
    match value with
    | JS.Fin x => JS.toInt32 (sign x)
    | JS.NaN => 0%Z
    end in
  _calcBars (_calcAux (set_opts a (set_mirror (opts a) mirror))).

(** The error code that only [set reflexRatio] throws. *)
Inductive RangeCode := ERR_REFLEX_OUT_OF_RANGE.

(** [set reflexRatio(value)]; left: thrown before anything is changed. *)
Definition reflexRatio_set (a : Analyzer) (value : JS.num)
  : RangeCode + Result :=
  let value := orZero value in
  if Rltb value 0 || Rleb 1 value then inl ERR_REFLEX_OUT_OF_RANGE
  else
    inr (_calcLeds (_calcAux (set_opts a (set_reflexRatio (opts a) value)))).

(** [setLedParams(params)]: [params] is missing ([None]) or holds what its
    three properties convert to. *)
Definition setLedParams (a : Analyzer)
                        (params : option (JS.num * JS.num * JS.num))
  : Result :=
  let ledParams :=
    match params with
    | Some (JS.Fin maxLeds, JS.Fin spaceV, JS.Fin spaceH) =>
        let maxLeds := JS.toInt32 maxLeds in
        if (0 <? maxLeds)%Z && Rltb 0 spaceV && Rleb 0 spaceH
        then Some (maxLeds, spaceV, spaceH)
        else None
    | _ => None
    end in
  _calcLeds (set_opts a (set_ledParams (opts a) ledParams)).

(** ** More of the frame *)

(** [ledPosY] of [_draw], for the LED attributes in [this._leds]. *)
Definition ledPosY (l : Leds) (height : R) : R :=
  IZR (JS.toInt32 (height * IZR (ledCount l))) * (ledHeight l + ledSpaceV l)
  - ledSpaceV l.

(** The height of a LED bar in [drawBarsLines]: [ledPosY], not below 0. *)
Definition ledBarHeight (l : Leds) (barHeight : R) : R :=
  let barHeight := ledPosY l barHeight in
  if Rltb barHeight 0 then 0 else barHeight.

(** [this._spinSpeed] (undefined until its setter runs) and
    [this._spinAngle]. *)
Record Spin := mkSpin { _spinSpeed : option R; _spinAngle : JS.num }.

(** [set spinSpeed(value)] *)
Definition spinSpeed_set (s : Spin) (value : JS.num) : Spin :=
  let value := orZero value in
  let reset :=
    match _spinSpeed s with
    | None => true
    | Some _ => if Req_dec_T value 0 then true else false
    end in
  mkSpin (Some value) (if reset then JS.Fin (- HALF_PI) else _spinAngle s).

(** [if (energy.val > 0) this._spinAngle += this._spinSpeed * RPM] *)
Definition spin (energy : Energy.t) (s : Spin) : Spin :=
  match Energy.val energy with
  | JS.Fin val =>
      if Rltb 0 val then
        mkSpin (_spinSpeed s)
               match _spinSpeed s, _spinAngle s with
               | Some speed, JS.Fin angle => JS.Fin (angle + speed * RPM)
               | _, _ => JS.NaN
               end
      else s
  | JS.NaN => s
  end.

(** [_draw] with its first statement. *)
Definition _drawSpin (useCanvas : bool) (p : Spin * Analyzer)
                     (input : list Z * list Z) : option (Spin * Result) :=
  let '(s, a) := p in
  match _draw useCanvas a input with
  | Some r => Some (spin (_energy a) s, r)
  | None => None
  end.

(** ** [_createScales]: the labels *)

Definition freqLabels : list Z :=
  [16; 31; 63; 125; 250; 500; 1000; 2000; 4000; 8000; 16000]%Z.

(** The calls that place a label: [scaleX.fillText(label, x, ...)] and
    [radialLabel(x, label)].  A label is given by its frequency. *)
Inductive LabelCall :=
| FillText (freq : Z) (x : R)
| RadialLabel (x : R) (freq : Z).

(** The body of the label loop. *)
Definition scaleLabel (a : Analyzer) (freq : Z) : list LabelCall :=
  let x := _logWidth a * (JS.log10 (IZR freq) - _minLog a) in
  let analyzerWidth := IZR (_analyzerWidth (aux a)) in
  let initialX := _initialX (aux a) in
  if Rleb 0 x && Rleb x analyzerWidth then
    [FillText freq (IZR initialX + x)]
    ++ (if Rltb x analyzerWidth then [RadialLabel x freq] else [])
    ++ (if (_mirror (opts a) =? 0)%Z then []
        else
          [FillText freq
             (IZR (if (initialX =? 0)%Z then canvas_width (host a)
                   else initialX) - x)]
          ++ (if Rltb 10 x then [RadialLabel (- x) freq] else []))
  else [].

Definition _createScales (a : Analyzer) : list LabelCall :=
  flat_map (scaleLabel a) freqLabels.

(** ** [_makeGrad]: the color stops *)

(** An element of [colorStops]: a color, or an object with a color and,
    maybe, a position. *)
Inductive ColorStop :=
| Color (color : string)
| Stop (pos : option R) (color : string).

Definition pos_of (c : ColorStop) : option R :=
  match c with Color _ => None | Stop pos _ => pos end.

Section MakeGrad.
Variable a : Analyzer.
Variable splitGradient : bool.      (* this._splitGradient *)
Variable isHorizontal : bool.       (* currGradient.dir == 'h' *)
Variable colorStops : list ColorStop.

(** [colorInfo.pos !== undefined ? colorInfo.pos : index / maxIndex] *)
Definition stopPos (index : nat) (colorInfo : ColorStop) : R :=
  let maxIndex := (List.length colorStops - 1)%nat in
  match pos_of colorInfo with
  | Some pos => pos
  | None => INR index / INR maxIndex
  end.

(** The calls of [addColorStop(offset, colorInfo)] that one round of
    [colorStops.forEach] makes. *)
Definition colorStopCalls (channel index : nat) (colorInfo : ColorStop)
  : list (R * ColorStop) :=
  let stereo := _stereo (opts a) in
  let radial := _radial (opts a) in
  let isLumiBars := _isLumiBars (aux a) in
  let reflexRatio := _reflexRatio (opts a) in
  let analyzerRatio := 1 - reflexRatio in
  let dual := stereo && negb splitGradient && negb isHorizontal in
  let maxIndex := (List.length colorStops - 1)%nat in
  let offset := stopPos index colorInfo in
  let offset := if dual then offset / 2 else offset in
  let offset :=
    if stereo && negb isLumiBars && negb radial && negb isHorizontal then
      let offset := offset * analyzerRatio in
      if negb dual && Rltb (5 / 10 * analyzerRatio) offset
      then offset + 5 / 10 * reflexRatio
      else offset
    else offset in
  let '(before, offset, colorInfo) :=
    if (channel =? 1)%nat then
      if radial || isLumiBars then
        let revIndex := (maxIndex - index)%nat in
        let colorInfo := nth revIndex colorStops colorInfo in
        ([], 1 - stopPos revIndex colorInfo / 2, colorInfo)
      else
        (if (index =? 0)%nat && Rltb 0 offset
         then [(5 / 10, colorInfo)] else [],
         offset + 5 / 10, colorInfo)
    else ([], offset, colorInfo) in
  before
  ++ [(offset, colorInfo)]
  ++ (if stereo && (index =? maxIndex)%nat && Rltb offset (5 / 10)
      then [(5 / 10, colorInfo)] else []).

(** The color stops of one channel. *)
Definition channelStops (channel : nat) : list (R * ColorStop) :=
  List.concat (mapi_from (colorStopCalls channel) 0 colorStops).

(** All the calls of [addColorStop], in order. *)
Definition _makeGrad : list (R * ColorStop) :=
  if negb (_ready (host a)) then []
  else
    let dual :=
      _stereo (opts a) && negb splitGradient && negb isHorizontal in
    channelStops 0 ++ (if dual then channelStops 1 else []).
End MakeGrad.

(** ** The output connections *)

(** An audio node, by identity. *)
Definition Node := nat.

(** [this._outNodes], and whether [connect] was the last call on each of
    the two analyzer nodes (rather than [disconnect], or none). *)
Record Outputs := mkOutputs {
  _outNodes : list Node;
  analyzer0 : bool;
  analyzer1 : bool
}.

(** [connectOutput(node = this.audioCtx.destination)] *)
Definition connectOutput (destination : Node) (o : Outputs)
                         (node : option Node) : Outputs :=
  let node := match node with Some n => n | None => destination end in
  if existsb (Nat.eqb node) (_outNodes o) then o
  else
    let outNodes := _outNodes o ++ [node] in
    if (List.length outNodes =? 1)%nat then mkOutputs outNodes true true
    else mkOutputs outNodes (analyzer0 o) (analyzer1 o).

(** [disconnectOutput(node)] *)
Definition disconnectOutput (o : Outputs) (node : option Node) : Outputs :=
  match node with
  | Some n =>
      if negb (existsb (Nat.eqb n) (_outNodes o)) then o
      else
        let outNodes := filter (fun e => negb (e =? n)%nat) (_outNodes o) in
        if (List.length outNodes =? 0)%nat then mkOutputs outNodes false false
        else mkOutputs outNodes (analyzer0 o) (analyzer1 o)
  | None => mkOutputs [] false false
  end.

(** The part of [set stereo(value)] that touches the output side:
    [_analyzer[0]] is disconnected, and connected again if there is an
    output node. *)
Definition stereo_rewire (o : Outputs) : Outputs :=
  mkOutputs (_outNodes o)
            (if (List.length (_outNodes o) =? 0)%nat then false else true)
            (analyzer1 o).

(** ** [set fftSize] *)

Definition set_fftSize (h : Host) (v : Z) : Host :=
  mkHost (_ready h) (sampleRate h) v (canvas_width h) (canvas_height h)
         (_pixelRatio h) (devicePixelRatio h) (screen_height h).

(** [set fftSize(value)], for a value that the analyser nodes accept: the
    two FFT arrays are new [Uint8Array]s, all zeros. *)
Definition fftSize_set (a : Analyzer) (value : Z) : Result :=
  let h := set_fftSize (host a) value in
  let binCount := frequencyBinCount h in
  let zeros := repeat 0%Z (Z.to_nat binCount) in
  _calcBars (mkAnalyzer h (opts a) (aux a) (_bars a) (_barWidth a)
                        (_minLog a) (_logWidth a) (_leds a) (_energy a)
                        (zeros, zeros)).

(** ** The gradients *)

(** The [options] of [registerGradient], when it is an object. *)
Record GradientOptions := mkGradientOptions {
  bgColor : option string;
  dir : option string;
  colorStops : option (list ColorStop)
}.

(** What [registerGradient] stores. *)
Record Gradient := mkGradient {
  gradient_bgColor : string;
  gradient_dir : option string;
  gradient_colorStops : list ColorStop
}.

(** [this._gradients], by its own properties, and [this._gradient]. *)
Record Gradients := mkGradients {
  _gradients : list (string * Gradient);
  _gradient : string
}.

Inductive GradientError :=
| ERR_GRADIENT_INVALID_NAME
| ERR_GRADIENT_NOT_AN_OBJECT
| ERR_GRADIENT_MISSING_COLOR
| ERR_UNKNOWN_GRADIENT
| NotAFunction.                 (* a TypeError *)

(** [this._gradients.hasOwnProperty(name)], for the property itself. *)
Fixpoint own (l : list (string * Gradient)) (name : string)
  : option Gradient :=
  match l with
  | [] => None
  | (n, g) :: t => if String.eqb n name then Some g else own t name
  end.

(** [this._gradients[name] = g]: the property is replaced or added; the
    name [__proto__] sets the prototype and adds no property. *)
Fixpoint assign (l : list (string * Gradient)) (name : string) (g : Gradient)
  : list (string * Gradient) :=
  match l with
  | [] => [(name, g)]
  | (n, g') :: t =>
      if String.eqb n name then (n, g) :: t else (n, g') :: assign t name g
  end.

(** [name.trim().length == 0] *)
Definition blankName (name : string) : bool :=
  match StringToNumber.trim (list_ascii_of_string name) with
  | [] => true
  | _ => false
  end.

(** [registerGradient(name, options)]: [options] is an object or, for
    [None], a value of another type. *)
Definition registerGradient (s : Gradients) (name : Arg)
                            (options : option GradientOptions)
  : GradientError + Gradients :=
  match name with
  | Str name =>
      if blankName name then inl ERR_GRADIENT_INVALID_NAME
      else
        match options with
        | None => inl ERR_GRADIENT_NOT_AN_OBJECT
        | Some options =>
            match colorStops options with
            | None => inl ERR_GRADIENT_MISSING_COLOR
            | Some stops =>
                if (List.length stops <? 2)%nat
                then inl ERR_GRADIENT_MISSING_COLOR
                else
                  let g :=
                    mkGradient
                      match bgColor options with
                      | Some c => if String.eqb c "" then "#111"%string else c
                      | None => "#111"%string
                      end
                      (dir options) stops in
                  if String.eqb name "__proto__" then inr s
                  else inr (mkGradients (assign (_gradients s) name g)
                                        (_gradient s))
            end
        end
  | _ => inl ERR_GRADIENT_INVALID_NAME
  end.

(** [set gradient(value)]: the method [hasOwnProperty] is looked up on
    [this._gradients] itself, where a gradient of that name hides it. *)
Definition gradient_set (s : Gradients) (value : string)
  : GradientError + Gradients :=
  match own (_gradients s) "hasOwnProperty" with
  | Some _ => inl NotAFunction
  | None =>
      match own (_gradients s) value with
      | None => inl ERR_UNKNOWN_GRADIENT
      | Some _ => inr (mkGradients (_gradients s) value)
      end
  end.

(** ** The input connections *)

(** An audio source node: one that [createMediaElementSource] has made
    (by its rank) or one of the caller's. *)
Inductive SourceNode := Created (rank : nat) | Given (n : nat).

Definition SourceNode_eqb (x y : SourceNode) : bool :=
  match x, y with
  | Created i, Created j | Given i, Given j => (i =? j)%nat
  | _, _ => false
  end.

(** The argument of [connectInput]: a media element, an audio node, or an
    object that has no [connect]. *)
Inductive Source :=
| Media (element : nat)
| AudioNode (node : SourceNode)
| Other.

(** [this._sources] and the number of nodes made so far. *)
Record Inputs := mkInputs { _sources : list SourceNode; made : nat }.

Inductive InputError := ERR_INVALID_AUDIO_SOURCE.

(** [connectInput(source)]; [isAudioContext] is
    [this.audioCtx instanceof AudioContext], and the context is taken to
    make a node for every element it is given. *)
Definition connectInput (isAudioContext : bool) (i : Inputs) (source : Source)
  : InputError + Inputs * SourceNode :=
  let isHTML := match source with Media _ => true | _ => false end in
  let hasConnect := match source with AudioNode _ => true | _ => false end in
  if negb (isHTML || hasConnect) then inl ERR_INVALID_AUDIO_SOURCE
  else if negb (isHTML && isAudioContext) then inl ERR_INVALID_AUDIO_SOURCE
  else
    let '(node, made) :=
      match source with
      | AudioNode node => (node, made i)
      | _ => (Created (made i), S (made i))
      end in
    if existsb (SourceNode_eqb node) (_sources i)
    then inr (mkInputs (_sources i) made, node)
    else inr (mkInputs (_sources i ++ [node]) made, node).

(** [this._sources.splice(idx, 1)] at the first index of [node], if any. *)
Fixpoint spliceOut (node : SourceNode) (l : list SourceNode)
  : list SourceNode :=
  match l with
  | [] => []
  | x :: t => if SourceNode_eqb x node then t else x :: spliceOut node t
  end.

(** [disconnectInput(sources)]: nothing ([None]), or the nodes of the
    array, a single node being an array of one. *)
Definition disconnectInput (i : Inputs) (sources : option (list SourceNode))
  : Inputs :=
  let sources :=
    match sources with Some l => l | None => _sources i end in
  mkInputs (fold_left (fun l node => spliceOut node l) sources (_sources i))
           (made i).

(** * The vocabulary of the properties *)

(** A host with the given FFT size and sample rate, on a 640x270 canvas at
    pixel ratio 1. *)
Definition hostOf (fftSize : Z) (sampleRate : R) : Host :=
  mkHost true sampleRate fftSize 640 270 1 1 1080.

(** The option defaults of constants.ts. *)
Definition defaults : Options :=
  mkOptions 0 20 22000 0 false false false false 0 None.

(** The analyzer before its first geometry: no bar, silent FFT arrays. *)
Definition blank (h : Host) (o : Options) : Analyzer :=
  let silence := repeat 0%Z (Z.to_nat (frequencyBinCount h)) in
  mkAnalyzer h o (mkAux 0 false false false false 0 0 0 0) [] 0 0 0 None
             (Energy.mk (JS.Fin 0) 0 0) (silence, silence).

(** The analyzer once the constructor has run [_setCanvas('create')]. *)
Definition created (h : Host) (o : Options) : Analyzer :=
  state_of (_calcBars (_calcAux (blank h o))).

(** The two statements of "update bar peak" and "new peak" on the peak and
    the hold counter of one channel, for a bar value [v]. *)
Definition peakHold (maxBarHeight v : R) (s : R * Z) : R * Z :=
  let '(p, hd) := s in
  let '(p, hd) :=
    if Rltb 0 p then
      let hd := (hd - 1)%Z in
      (if (hd <? 0)%Z then p + IZR hd / maxBarHeight else p, hd)
    else (p, hd) in
  if Rleb p v then (v, 30%Z) else (p, hd).

Definition sameGeometry (b b' : Bar.t) : Prop :=
  Bar.binLo b' = Bar.binLo b /\ Bar.binHi b' = Bar.binHi b
  /\ Bar.ratioLo b' = Bar.ratioLo b /\ Bar.ratioHi b' = Bar.ratioHi b.

(** All-zero FFT data. *)
Definition silence (n : nat) : list Z := repeat 0%Z n.

(** [n] frames of the energy update with a zero energy value. *)
Definition silentEnergy (n : nat) (e : Energy.t) : Energy.t :=
  Nat.iter n (updateEnergy (JS.Fin 0)) e.

(** [n] frames of [drawBar] on one bar. *)
Fixpoint frames (fftData : list Z) (c : nat) (mbh : R) (n : nat)
                (bar : Bar.t) : option Bar.t :=
  match n with
  | O => Some bar
  | S n' =>
      match frames fftData c mbh n' bar with
      | Some b => drawBar fftData c mbh b
      | None => None
      end
  end.

Definition peakAt (c : nat) (b : option Bar.t) : option R :=
  match b with
  | Some b => nth_error (Bar.peak b) c
  | None => None
  end.

(** The product of the decay factors of the first [k] decaying frames. *)
Fixpoint decayFactor (k : nat) : R :=
  match k with
  | O => 1
  | S k' => decayFactor k' * ((30 - INR k') / 30)
  end.

(** [n] silent frames on the peak and hold counter of a bar channel. *)
Definition silentPeak (mbh : R) (n : nat) (s : R * Z) : R * Z :=
  Nat.iter n (peakHold mbh 0) s.

(** The sum 1 + 2 + ... + k. *)
Definition tri (k : nat) : R := INR k * (INR k + 1) / 2.

(** Bin [j] is in the range of bar [b]. *)
Definition covers (j : Z) (b : Bar.t) : bool :=
  ((Bar.binLo b <=? j) && (j <=? Bar.binHi b))%Z.

(** The bars whose range holds bin [j]. *)
Definition owners (bars : list Bar.t) (j : Z) : list Bar.t :=
  filter (covers j) bars.

(** The state of the discrete loop before round [i], for the columns [pos]
    and the first bin [i0]; [j0] is the first bin that opened a bar, or [i]
    when there is none yet. *)
Record DiscreteInv (pos : Z -> Z) (i0 j0 i lastPos : Z)
                   (rbars : list Bar.t) : Prop := {
  inv_range : (i0 <= j0 <= i)%Z;
  inv_skipped : forall j, (i0 <= j < j0)%Z -> (pos j <= -999)%Z;
  inv_owners : forall j,
    List.length (owners rbars j)
    = if ((j0 <=? j) && (j <? i))%Z then 1%nat else 0%nat;
  inv_sorted :
    StronglySorted (fun b b' => Bar.posX b' < Bar.posX b) rbars;
  inv_bound : Forall (fun b => Bar.posX b <= IZR lastPos) rbars;
  inv_last :
    match rbars with
    | [] => j0 = i /\ lastPos = (-999)%Z
    | last :: _ =>
        Bar.binHi last = (i - 1)%Z
        /\ (Bar.binLo last <= Bar.binHi last)%Z
        /\ (-999 < pos j0)%Z /\ (j0 < i)%Z
    end
}.

(** The frequency of note [k] of the scale. *)
Definition tfreq (k : nat) : R := C0 * JS.pow ROOT24 (INR k).

(** Entry [k] of [temperedScale]. *)
Definition entryAt (h : Host) (k : nat) : TemperedEntry :=
  temperedEntry h (k / 24) (k mod 24).

(** The analyzer built with mode 1 and the range 20..24000 Hz, for an FFT
    of 8192 points at 44100 Hz (Nyquist frequency 22050 Hz). *)
Definition beyondNyquist : Analyzer :=
  _calcAux (blank (hostOf 8192 44100)
                  (mkOptions 1 20 24000 0 false false false false 0 None)).

(** No bin is left out between two consecutive bars. *)
Definition adjacent (prev next : Bar.t) : Prop :=
  (Bar.binLo next <= Bar.binHi prev + 1)%Z.

(** The bars pushed so far, newest first: no bin skipped between two of
    them, and no negative [binHi]. *)
Definition Chain (rbars : list Bar.t) : Prop :=
  Sorted (fun next prev => adjacent prev next) rbars
  /\ Forall (fun b => (0 <= Bar.binHi b)%Z) rbars.

(** The frame update never reads a hold counter that was not written: a
    positive peak on a channel comes with a hold counter on that channel.
    This holds for new bars and is kept by [drawBar] on any channel, which
    therefore always returns a bar. *)
Definition holdWritten (bar : Bar.t) : Prop :=
  forall c p, nth_error (Bar.peak bar) c = Some p -> 0 < p ->
              (c < List.length (Bar.hold bar))%nat.

(** The bin range of a bar is well formed and ends at [max] at most. *)
Definition binsWithin (max : Z) (b : Bar.t) : Prop :=
  (0 <= Bar.binLo b <= Bar.binHi b)%Z /\ (Bar.binHi b <= max)%Z.

(** The bars of the band loop, newest first: all within the FFT bins but,
    after the range cutoff, the newest one, which may take one more. *)
Definition binsWithinButLast (max : Z) (rbars : list Bar.t) : Prop :=
  match rbars with
  | [] => True
  | newest :: rest =>
      binsWithin (max + 1) newest /\ Forall (binsWithin max) rest
  end.

(** A bar of the discrete loop: whole bins from [i0] to before [i]. *)
Definition wholeBins (h : Host) (i0 i : Z) (b : Bar.t) : Prop :=
  (i0 <= Bar.binLo b <= Bar.binHi b)%Z /\ (Bar.binHi b < i)%Z
  /\ Bar.freqLo b = binToFreq h (Bar.binLo b)
  /\ Bar.freqHi b = binToFreq h (Bar.binHi b)
  /\ Bar.ratioLo b = 0 /\ Bar.ratioHi b = 0.

(** The bars of the discrete loop before round [i], newest first. *)
Definition Partition (h : Host) (i0 i : Z) (rbars : list Bar.t) : Prop :=
  Forall (wholeBins h i0 i) rbars
  /\ Sorted (fun newer older => Bar.binLo newer = (Bar.binHi older + 1)%Z)
            rbars
  /\ match rbars with
     | [] => True
     | newest :: _ => Bar.binHi newest = (i - 1)%Z
     end.

(** A new bar: no peak yet on either channel. *)
Definition fresh (b : Bar.t) : Prop :=
  Bar.peak b = [0; 0] /\ Bar.hold b = [0%Z] /\ Bar.value b = [JS.Fin 0].

(** The animation: one [_draw] per pair of FFT arrays, oldest first, as
    long as no frame throws ([_draw] schedules the next frame with its last
    statement). *)
Fixpoint play (useCanvas : bool) (a : Analyzer)
              (inputs : list (list Z * list Z)) : option Result :=
  match inputs with
  | [] => Some (Ok a)
  | input :: rest =>
      match _draw useCanvas a input with
      | Some (Ok a') => play useCanvas a' rest
      | other => other
      end
  end.

(** Two states of the same bar: only its peak, hold and value may differ. *)
Definition samePlace (b b' : Bar.t) : Prop :=
  Bar.posX b' = Bar.posX b
  /\ Bar.binLo b' = Bar.binLo b /\ Bar.binHi b' = Bar.binHi b
  /\ Bar.freqLo b' = Bar.freqLo b /\ Bar.freqHi b' = Bar.freqHi b
  /\ Bar.ratioLo b' = Bar.ratioLo b /\ Bar.ratioHi b' = Bar.ratioHi b.

(** The animation with the spin angle. *)
Fixpoint playSpin (useCanvas : bool) (p : Spin * Analyzer)
                  (inputs : list (list Z * list Z))
  : option (Spin * Result) :=
  match inputs with
  | [] => Some (fst p, Ok (snd p))
  | input :: rest =>
      match _drawSpin useCanvas p input with
      | Some (s, Ok a') => playSpin useCanvas (s, a') rest
      | other => other
      end
  end.

(** The energy value is not positive (NaN included): [_draw] leaves the
    spin angle alone. *)
Definition notPositive (v : JS.num) : Prop :=
  match v with JS.Fin x => x <= 0 | JS.NaN => True end.

(** The frequency of the label that a call places. *)
Definition labelOf (c : LabelCall) : Z :=
  match c with FillText freq _ | RadialLabel _ freq => freq end.

(** The calls on the output side. *)
Inductive OutputCall :=
| ConnectOutput (node : option Node)
| DisconnectOutput (node : option Node)
| SetStereo.

Definition outputStep (destination : Node) (o : Outputs) (c : OutputCall)
  : Outputs :=
  match c with
  | ConnectOutput node => connectOutput destination o node
  | DisconnectOutput node => disconnectOutput o node
  | SetStereo => stereo_rewire o
  end.

(** The output side after the constructor (before it connects the
    speakers, if it does) and a sequence of calls. *)
Definition outputsAfter (destination : Node) (calls : list OutputCall)
  : Outputs :=
  fold_left (outputStep destination) calls (mkOutputs [] false false).

(** A byte of FFT data. *)
Definition byte (v : Z) : Prop := (0 <= v <= 255)%Z.

(** What the output side keeps: no node twice, and the analyzer nodes
    connected exactly when there is an output node. *)
Definition outputsInv (o : Outputs) : Prop :=
  NoDup (_outNodes o)
  /\ analyzer0 o = negb (List.length (_outNodes o) =? 0)%nat
  /\ analyzer1 o = negb (List.length (_outNodes o) =? 0)%nat.

(** The gradients of constants.ts, selected as by default. *)
Definition builtin : Gradients :=
  mkGradients
    [ ("classic"%string,
       mkGradient "#111" None
         [Color "hsl( 0, 100%, 50% )";
          Stop (Some (6 / 10)) "hsl( 60, 100%, 50% )";
          Color "hsl( 120, 100%, 50% )"]);
      ("prism"%string,
       mkGradient "#111" None
         [Color "hsl( 0, 100%, 50% )"; Color "hsl( 60, 100%, 50% )";
          Color "hsl( 120, 100%, 50% )"; Color "hsl( 180, 100%, 50% )";
          Color "hsl( 240, 100%, 50% )"]);
      ("rainbow"%string,
       mkGradient "#111" (Some "h"%string)
         [Color "hsl( 0, 100%, 50% )"; Color "hsl( 60, 100%, 50% )";
          Color "hsl( 120, 100%, 50% )"; Color "hsl( 180, 100%, 47% )";
          Color "hsl( 240, 100%, 58% )"; Color "hsl( 300, 100%, 50% )";
          Color "hsl( 360, 100%, 50% )"]) ]
    "classic".

(** Every gradient has the two colors that [_makeGrad] divides by. *)
Definition twoColors (l : list (string * Gradient)) : Prop :=
  Forall (fun e => (2 <= List.length (gradient_colorStops (snd e)))%nat) l.

(** The calls on the input side. *)
Inductive InputCall :=
| ConnectInput (source : Source)
| DisconnectInput (sources : option (list SourceNode)).

Definition inputStep (isAudioContext : bool) (i : Inputs) (c : InputCall)
  : Inputs :=
  match c with
  | ConnectInput source =>
      match connectInput isAudioContext i source with
      | inr (i', _) => i'
      | inl _ => i
      end
  | DisconnectInput sources => disconnectInput i sources
  end.

(** The input side after a sequence of calls, those that throw leaving
    it as it was. *)
Definition inputsAfter (isAudioContext : bool) (calls : list InputCall)
  : Inputs :=
  fold_left (inputStep isAudioContext) calls (mkInputs [] 0).

(** What the input side keeps: its nodes are its own, each once. *)
Definition inputsInv (i : Inputs) : Prop :=
  NoDup (_sources i)
  /\ Forall (fun node => exists rank, node = Created rank
                                      /\ (rank < made i)%nat)
            (_sources i).

(** * Properties *)

(** ** Arithmetic helpers *)

Lemma Rltb_true x y : Rltb x y = true <-> x < y.
Proof. unfold Rltb; destruct (Rlt_dec x y); split; intros; try easy; lra. Qed.

Lemma Rltb_false x y : Rltb x y = false <-> y <= x.
Proof. unfold Rltb; destruct (Rlt_dec x y); split; intros; try easy; lra. Qed.

Lemma Rleb_true x y : Rleb x y = true <-> x <= y.
Proof. unfold Rleb; destruct (Rle_dec x y); split; intros; try easy; lra. Qed.

Lemma Rleb_false x y : Rleb x y = false <-> y < x.
Proof. unfold Rleb; destruct (Rle_dec x y); split; intros; try easy; lra. Qed.

(** Decides the comparisons of a goal whose two sides [lra] can order. *)
Ltac decide_R :=
  repeat match goal with
  | |- context [Rltb ?x ?y] =>
      first [ replace (Rltb x y) with true by (symmetry; apply Rltb_true; lra)
            | replace (Rltb x y) with false
                by (symmetry; apply Rltb_false; lra) ]
  | |- context [Rleb ?x ?y] =>
      first [ replace (Rleb x y) with true by (symmetry; apply Rleb_true; lra)
            | replace (Rleb x y) with false
                by (symmetry; apply Rleb_false; lra) ]
  end.

Lemma round_IZR (z : Z) : JS.round (IZR z) = z.
Proof. unfold JS.round. apply Zfloor_eq. lra. Qed.

Lemma round_eq (z : Z) (x : R) :
  IZR z - / 2 <= x < IZR z + / 2 -> JS.round x = z.
Proof. intros H. unfold JS.round. apply Zfloor_eq. lra. Qed.

Lemma wrap32_small (z : Z) :
  (-2147483648 <= z < 2147483648)%Z -> JS.wrap32 z = z.
Proof.
  intros H. unfold JS.wrap32.
  rewrite Z.mod_small by lia. lia.
Qed.

Lemma trunc_IZR (z : Z) : JS.trunc (IZR z) = z.
Proof.
  unfold JS.trunc. destruct (Rle_dec 0 (IZR z)).
  - apply ZfloorZ.
  - unfold Zceil. rewrite <- opp_IZR, ZfloorZ. lia.
Qed.

Lemma toInt32_IZR (z : Z) :
  (-2147483648 <= z < 2147483648)%Z -> JS.toInt32 (IZR z) = z.
Proof.
  intros H. unfold JS.toInt32. rewrite trunc_IZR. now apply wrap32_small.
Qed.

Lemma binToFreq_pos (h : Host) (b : Z) :
  0 < sampleRate h -> (0 < fftSize h)%Z -> (1 <= b)%Z ->
  binToFreq h b = IZR b * sampleRate h / IZR (fftSize h).
Proof.
  intros Hs Hf Hb. unfold binToFreq.
  destruct (Req_dec_T _ 0) as [E | _]; [exfalso | reflexivity].
  assert (0 < IZR (fftSize h)) by (apply IZR_lt; lia).
  assert (1 <= IZR b) by (apply IZR_le; lia).
  assert (0 < IZR b * sampleRate h) by nra.
  assert (0 < IZR b * sampleRate h / IZR (fftSize h))
    by (apply Rdiv_lt_0_compat; assumption).
  lra.
Qed.

Lemma binToFreq_0 (h : Host) : binToFreq h 0 = 1.
Proof.
  unfold binToFreq. destruct (Req_dec_T _ 0) as [_ | N]; [reflexivity |].
  exfalso. apply N. unfold Rdiv. ring.
Qed.

(** ** Bin mapping (C8) *)

(** The round trip fails at bin 0, which [binToFreq] maps to 1 Hz: with
    fftSize = 32768 at 44100 Hz, 1 Hz rounds to bin 1. *)
Lemma roundtrip_bin0_counterexample :
  let h := hostOf 32768 44100 in
  (0 <= 0 <= frequencyBinCount h - 1)%Z
  /\ _freqToBin h (binToFreq h 0) round = 1%Z.
Proof.
  cbv zeta. split; [vm_compute; split; discriminate |].
  rewrite binToFreq_0. unfold _freqToBin, Math. simpl sampleRate. simpl fftSize.
  replace (JS.round (1 * 32768 / 44100)) with 1%Z
    by (symmetry; apply round_eq; lra).
  reflexivity.
Qed.

(** C8 (amended).  Mapping a bin to its frequency and back with ['round']
    gives the bin again for every bin from 1 to frequencyBinCount - 1.
    Bin 0 stands for 1 Hz and comes back as the rounded bin of 1 Hz,
    which is 0 exactly when twice the FFT size is below the sample rate. *)
Theorem freqToBin_binToFreq_roundtrip (h : Host) (b : Z) :
  0 < sampleRate h -> (4 <= fftSize h)%Z ->
  ((1 <= b <= frequencyBinCount h - 1)%Z ->
   _freqToBin h (binToFreq h b) round = b)
  /\ (_freqToBin h (binToFreq h 0) round = 0%Z
      <-> 2 * IZR (fftSize h) < sampleRate h).
Proof.
  intros Hs Hf.
  assert (HF : 0 < IZR (fftSize h)) by (apply IZR_lt; lia).
  assert (Hc : (2 <= frequencyBinCount h)%Z).
  { unfold frequencyBinCount. apply Z.div_le_lower_bound; lia. }
  split.
  - intros Hb. rewrite binToFreq_pos by (assumption || lia).
    unfold _freqToBin, Math.
    replace (IZR b * sampleRate h / IZR (fftSize h) * IZR (fftSize h)
             / sampleRate h) with (IZR b) by (field; lra).
    rewrite round_IZR.
    destruct (Z.ltb_spec b (frequencyBinCount h - 1)); lia.
  - rewrite binToFreq_0. unfold _freqToBin, Math.
    set (x := 1 * IZR (fftSize h) / sampleRate h).
    assert (Hx : 0 < x).
    { unfold x. apply Rdiv_lt_0_compat; lra. }
    assert (Hx2 : x < / 2 <-> 2 * IZR (fftSize h) < sampleRate h).
    { unfold x. split; intros H.
      - apply (Rmult_lt_compat_r (sampleRate h)) in H; [| assumption].
        unfold Rdiv in H. rewrite Rmult_assoc, Rinv_l in H; lra.
      - apply (Rmult_lt_reg_r (sampleRate h)); [assumption |].
        unfold Rdiv. rewrite Rmult_assoc, Rinv_l; lra. }
    pose proof (Zfloor_bound (x + / 2)) as Hfl.
    unfold JS.round.
    destruct (Z.ltb_spec (Zfloor (x + / 2)) (frequencyBinCount h - 1)).
    + rewrite <- Hx2. split; intros H0.
      * rewrite H0 in Hfl. simpl in Hfl. lra.
      * apply Zfloor_eq. simpl. lra.
    + split; intros H0; [lia |].
      exfalso. apply Hx2 in H0.
      assert (Zfloor (x + / 2) = 0%Z) by (apply Zfloor_eq; simpl; lra).
      lia.
Qed.

Lemma freqToBin_binToFreq_roundtrip_witness :
  let h := hostOf 8192 44100 in
  _freqToBin h (binToFreq h 81) round = 81%Z.
Proof.
  apply (freqToBin_binToFreq_roundtrip (hostOf 8192 44100) 81).
  - simpl. lra.
  - simpl. lia.
  - vm_compute. split; discriminate.
Defined.

(** ** Sample states *)

(** ** What the rebuild leaves alone *)

Lemma _calcLeds_opts (a : Analyzer) :
  opts (state_of (_calcLeds a)) = opts a
  /\ _bars (state_of (_calcLeds a)) = _bars a
  /\ aux (state_of (_calcLeds a)) = aux a.
Proof.
  unfold _calcLeds.
  destruct (negb (_isOctaveBands (aux a)) || negb (_ready (host a)));
    [repeat split |].
  destruct (_ledParams (opts a)); [repeat split |].
  destruct (at_ ledDefaults (_mode (opts a))) as [[p |] |]; repeat split.
Qed.

(** ** Rejected frequency ranges (C9) *)

(** C9.  A frequency bound below 1 Hz, given to [setFreqRange] or to the
    [minFreq] / [maxFreq] setters, throws ERR_FREQUENCY_TOO_LOW before
    anything is written: the state at the throw is the state before the
    call, with its stored range and its bars. *)
Theorem frequency_below_1_rejected (a : Analyzer) (min max : R) :
  min < 1 \/ max < 1 ->
  setFreqRange a min max = Thrown ERR_FREQUENCY_TOO_LOW a
  /\ (min < 1 -> minFreq_set a min = Thrown ERR_FREQUENCY_TOO_LOW a)
  /\ (max < 1 -> maxFreq_set a max = Thrown ERR_FREQUENCY_TOO_LOW a)
  /\ _minFreq (opts (state_of (setFreqRange a min max))) = _minFreq (opts a)
  /\ _maxFreq (opts (state_of (setFreqRange a min max))) = _maxFreq (opts a)
  /\ _bars (state_of (setFreqRange a min max)) = _bars a.
Proof.
  intros H.
  assert (E : setFreqRange a min max = Thrown ERR_FREQUENCY_TOO_LOW a).
  { unfold setFreqRange.
    destruct H as [H | H]; apply Rltb_true in H; rewrite H;
      [reflexivity | rewrite orb_true_r; reflexivity]. }
  rewrite E. repeat split.
  - intros Hm. unfold minFreq_set. apply Rltb_true in Hm. now rewrite Hm.
  - intros Hm. unfold maxFreq_set. apply Rltb_true in Hm. now rewrite Hm.
Qed.

Lemma frequency_below_1_rejected_witness :
  let a := created (hostOf 8192 44100) defaults in
  setFreqRange a (1 / 2) 22000 = Thrown ERR_FREQUENCY_TOO_LOW a.
Proof.
  apply (frequency_below_1_rejected
           (created (hostOf 8192 44100) defaults) (1 / 2) 22000).
  left. lra.
Defined.

(** A range at or above 1 Hz is not rejected that way: it is stored, ordered,
    before the geometry is rebuilt. *)
Lemma setFreqRange_stores (a : Analyzer) (min max : R) :
  1 <= min -> 1 <= max ->
  setFreqRange a min max
  = _calcBars (set_opts a (set_maxFreq (set_minFreq (opts a) (Rmin min max))
                                       (Rmax min max))).
Proof.
  intros H1 H2. unfold setFreqRange.
  apply Rltb_false in H1, H2. now rewrite H1, H2.
Qed.

(** ** Mode selection (C3) *)

(** Mode 10 does not select the octave-band algorithm (10 % 10 is 0), and
    the steps table has no entry for it. *)
Lemma mode10_counterexample :
  isOctaveBands 10 = false /\ at_ stepsTable 10 = None.
Proof. split; reflexivity. Qed.

Lemma _calcAux_fields (a : Analyzer) :
  opts (_calcAux a) = opts a /\ host (_calcAux a) = host a
  /\ _bars (_calcAux a) = _bars a
  /\ _isOctaveBands (aux (_calcAux a)) = isOctaveBands (_mode (opts a)).
Proof. repeat split. Qed.

Lemma isOctaveBands_modes (mode : Z) :
  (0 <= mode <= 10)%Z -> mode <> 9%Z ->
  (isOctaveBands mode = true <-> (1 <= mode <= 8)%Z).
Proof.
  intros Hm H9. unfold isOctaveBands.
  assert (C : (mode = 0 \/ mode = 1 \/ mode = 2 \/ mode = 3 \/ mode = 4
               \/ mode = 5 \/ mode = 6 \/ mode = 7 \/ mode = 8
               \/ mode = 10)%Z) by lia.
  repeat (destruct C as [-> | C]); try subst mode;
    vm_compute; split; intros H; try discriminate; try reflexivity;
    try (split; discriminate); destruct H as [H1 H2]; exfalso;
    try (apply H1; reflexivity); apply H2; reflexivity.
Qed.

(** In the modes 1 to 8 [_calcLeds] finds its parameters. *)
Lemma _calcLeds_octave_ok (a : Analyzer) :
  (1 <= _mode (opts a) <= 8)%Z -> exists a', _calcLeds a = Ok a'.
Proof.
  intros Hm. unfold _calcLeds.
  destruct (negb (_isOctaveBands (aux a)) || negb (_ready (host a)));
    [eexists; reflexivity |].
  destruct (_ledParams (opts a)); [eexists; reflexivity |].
  assert (C : (_mode (opts a) = 1 \/ _mode (opts a) = 2 \/ _mode (opts a) = 3
               \/ _mode (opts a) = 4 \/ _mode (opts a) = 5
               \/ _mode (opts a) = 6 \/ _mode (opts a) = 7
               \/ _mode (opts a) = 8)%Z) by lia.
  repeat (destruct C as [-> | C]); try rewrite C; cbn; eexists; reflexivity.
Qed.

(** In the modes 1 to 8 the rebuild is the band loop with the steps of
    the mode, then the placing of the bars; it fails exactly when the loop
    throws or leaves no bar. *)
Lemma _calcBars_octave_built (a : Analyzer) (steps : Z) :
  _ready (host a) = true -> _isOctaveBands (aux a) = true ->
  (1 <= _mode (opts a) <= 8)%Z ->
  at_ stepsTable (_mode (opts a)) = Some steps ->
  _isOctaveBands (aux (state_of (_calcBars a))) = true
  /\ match octaveBars (host a) (_minFreq (opts a)) (_maxFreq (opts a)) steps
     with
     | inl bars =>
         _bars (state_of (_calcBars a))
         = placeBars (_initialX (aux a))
                     (IZR (_analyzerWidth (aux a)) / INR (List.length bars))
                     bars
         /\ (bars <> [] -> exists a', _calcBars a = Ok a')
         /\ (bars = [] -> exists a', _calcBars a = Thrown TypeError a')
     | inr bars =>
         _bars (state_of (_calcBars a)) = bars
         /\ exists a', _calcBars a = Thrown TypeError a'
     end.
Proof.
  intros Hr Hx Hm Es.
  assert (Ho : isOctaveBands (_mode (opts a)) = true)
    by (apply isOctaveBands_modes; lia).
  unfold _calcBars.
  change (host (set_bars a [])) with (host a).
  change (opts (set_bars a [])) with (opts a).
  change (aux (set_bars a [])) with (aux a).
  rewrite Hr, Hx, Es. cbn [negb].
  destruct (octaveBars (host a) (_minFreq (opts a)) (_maxFreq (opts a)) steps)
    as [bars | bars].
  - destruct bars as [| b bars].
    + cbn [placeBars mapi_from state_of aux set_bars set_barWidth _bars].
      split; [exact Hx |]. split; [reflexivity |].
      split; [intros H; now contradiction H | intros _; eexists; reflexivity].
    + set (w := IZR (_analyzerWidth (aux a)) / INR (List.length (b :: bars))).
      destruct (placeBars (_initialX (aux a)) w (b :: bars))
        as [| first placed] eqn:Ep; [discriminate Ep |].
      match goal with
      | |- context [_calcLeds (_calcAux ?x)] => set (built := x)
      end.
      destruct (_calcLeds_opts (_calcAux built)) as (_ & Eb & Ea).
      destruct (_calcAux_fields built) as (Eo & _ & Eb' & Ex).
      split; [rewrite Ea, Ex; exact Ho |].
      split; [rewrite Eb, Eb'; reflexivity |].
      split; [| discriminate].
      intros _. apply _calcLeds_octave_ok. rewrite Eo. exact Hm.
  - cbn [state_of aux set_bars _bars].
    split; [exact Hx |]. split; [reflexivity | eexists; reflexivity].
Qed.

(** C3 (amended).  Among the valid modes 0..8 and 10, the octave-band
    algorithm is selected exactly for the modes 1..8, whose steps are 1, 2,
    3, 4, 6, 8, 12 and 24.  Setting one of these modes on a ready analyzer
    rebuilds the bars with the band loop run with the steps of the mode:
    when the loop ends with bars, these bars, placed from [initialX] on at
    every [analyzerWidth / length], are the bars of the new state; when it
    throws or ends without a bar, the setter throws a TypeError.  Mode 10
    has no steps: setting it rebuilds the bars with the discrete-frequency
    algorithm, as mode 0 does. *)
Theorem octave_bands_selected_for_modes_1_to_8 :
  (forall mode : Z, (0 <= mode <= 10)%Z -> mode <> 9%Z ->
     (isOctaveBands mode = true <-> (1 <= mode <= 8)%Z))
  /\ map (at_ stepsTable) [1; 2; 3; 4; 5; 6; 7; 8]%Z
     = map Some [1; 2; 3; 4; 6; 8; 12; 24]%Z
  /\ (forall (a : Analyzer) (mode steps : Z),
        _ready (host a) = true ->
        In (mode, steps)
           [(1, 1); (2, 2); (3, 3); (4, 4); (5, 6); (6, 8); (7, 12);
            (8, 24)]%Z ->
        let a1 := _calcAux (set_opts a (set_mode (opts a) mode)) in
        let result := mode_set a (IZR mode) in
        _isOctaveBands (aux (state_of result)) = true
        /\ match octaveBars (host a) (_minFreq (opts a)) (_maxFreq (opts a))
                            steps
           with
           | inl bars =>
               _bars (state_of result)
               = placeBars (_initialX (aux a1))
                           (IZR (_analyzerWidth (aux a1))
                            / INR (List.length bars))
                           bars
               /\ (bars <> [] -> exists a', result = Ok a')
               /\ (bars = [] -> exists a', result = Thrown TypeError a')
           | inr bars =>
               _bars (state_of result) = bars
               /\ exists a', result = Thrown TypeError a'
           end)
  /\ (forall a : Analyzer, _ready (host a) = true ->
        let a10 := _calcAux (set_opts a (set_mode (opts a) 10)) in
        exists a', mode_set a 10 = Ok a'
          /\ _isOctaveBands (aux a') = false
          /\ _bars a'
             = discreteBars (host a) (_minFreq (opts a)) (_maxFreq (opts a))
                            (_analyzerWidth (aux a10)) (_initialX (aux a10))).
Proof.
  split; [exact isOctaveBands_modes |]. split; [reflexivity |]. split.
  - intros a mode steps Hr Hin a1 result.
    assert (Hm : (1 <= mode <= 8)%Z /\ at_ stepsTable mode = Some steps).
    { cbn [In] in Hin.
      repeat (destruct Hin as [Hin | Hin];
              [injection Hin as <- <-; split; [lia | reflexivity] |]).
      contradiction. }
    destruct Hm as [Hm Es].
    assert (Er : result = _calcBars a1).
    { unfold result, mode_set. rewrite toInt32_IZR by lia.
      destruct (Z.leb_spec 0 mode), (Z.leb_spec mode 10),
        (Z.eqb_spec mode 9); cbn [andb negb]; try lia. reflexivity. }
    rewrite Er.
    apply (_calcBars_octave_built a1 steps).
    + exact Hr.
    + unfold a1.
      destruct (_calcAux_fields (set_opts a (set_mode (opts a) mode)))
        as (_ & _ & _ & ->).
      apply isOctaveBands_modes; cbn [opts set_opts _mode set_mode]; lia.
    + exact Hm.
    + exact Es.
  - intros a Hr a10.
    unfold mode_set. rewrite toInt32_IZR by lia.
    change ((0 <=? 10)%Z && (10 <=? 10)%Z && negb (10 =? 9)%Z) with true.
    cbv iota. fold a10.
    unfold _calcBars.
    change (_ready (host (set_bars a10 []))) with (_ready (host a)).
    rewrite Hr.
    change (_isOctaveBands (aux (set_bars a10 []))) with (isOctaveBands 10).
    change (isOctaveBands 10) with false.
    cbv iota. cbn [negb].
    unfold _calcLeds.
    match goal with
    | |- context [_isOctaveBands (aux (_calcAux ?x))] =>
        change (_isOctaveBands (aux (_calcAux x))) with (isOctaveBands 10)
    end.
    change (isOctaveBands 10) with false. cbn [negb orb].
    eexists. split; [reflexivity |]. split; reflexivity.
Qed.

Lemma octave_bands_selected_for_modes_1_to_8_witness :
  (isOctaveBands 8 = true <-> (1 <= 8 <= 8)%Z)
  /\ _isOctaveBands
       (aux (state_of (mode_set (blank (hostOf 8192 44100) defaults) 8)))
     = true
  /\ exists a', mode_set (blank (hostOf 8192 44100) defaults) 10 = Ok a'
                /\ _isOctaveBands (aux a') = false.
Proof.
  destruct octave_bands_selected_for_modes_1_to_8 as (Hsel & _ & Hoct & Hten).
  split; [| split].
  - apply Hsel; [lia | discriminate].
  - apply (Hoct (blank (hostOf 8192 44100) defaults) 8%Z 24%Z eq_refl).
    cbn [In]. do 7 right. left. reflexivity.
  - destruct (Hten (blank (hostOf 8192 44100) defaults) eq_refl)
      as (a' & Hok & Hx & _).
    exists a'. split; assumption.
Defined.

(** ** [getEnergy] (C10) *)

(** A numeric string is neither ['peak'] nor a preset name, yet it is read
    as a frequency: the answer is a number, not null. *)
Lemma getEnergy_numeric_string_counterexample :
  let a := blank (hostOf 8192 44100) defaults in
  "100"%string <> "peak"%string
  /\ ~ In "100"%string ["bass"; "lowMid"; "mid"; "highMid"; "treble"]%string
  /\ exists v, snd (getEnergy a (Str "100") None) = Return (Num v).
Proof.
  cbv zeta. split; [discriminate |]. split.
  - simpl. intros H. repeat (destruct H as [H | H]; [discriminate |]). exact H.
  - unfold getEnergy.
    replace (StringToNumber.of_string "100")
      with (StringToNumber.SNum (IZR 100 * powerRZ 10 (- 0))) by reflexivity.
    eexists. reflexivity.
Qed.

Lemma presets_missing (s : string) :
  ~ In s ["bass"; "lowMid"; "mid"; "highMid"; "treble"]%string ->
  ~ In s objectPrototype ->
  presets s = Missing.
Proof.
  intros Hp Ho. unfold presets.
  repeat match goal with
  | |- context [String.eqb s ?n] =>
      destruct (String.eqb_spec s n) as [-> | _];
      [exfalso; apply Hp; simpl; tauto |]
  end.
  destruct (existsb (String.eqb s) objectPrototype) eqn:E; [| reflexivity].
  exfalso. apply Ho. apply existsb_exists in E. destruct E as (x & Hx & Ex).
  apply String.eqb_eq in Ex. now subst.
Qed.

(** C10 (amended).  For every string argument that does not read as a
    number, is not ['peak'], is not one of the preset names and is not a
    property name inherited from [Object.prototype], [getEnergy] answers
    null and leaves the state as it is.  With no argument it answers the
    current energy value, with ['peak'] the current energy peak. *)
Theorem getEnergy_unknown_preset_is_null (a : Analyzer) (s : string)
                                         (endFreq : option R) :
  StringToNumber.of_string s = StringToNumber.SNaN ->
  s <> "peak"%string ->
  ~ In s ["bass"; "lowMid"; "mid"; "highMid"; "treble"]%string ->
  ~ In s objectPrototype ->
  getEnergy a (Str s) endFreq = (a, Return Null)
  /\ getEnergy a Undefined endFreq = (a, Return (Num (Energy.val (_energy a))))
  /\ getEnergy a (Str "peak") endFreq
     = (a, Return (Num (JS.Fin (Energy.peak (_energy a))))).
Proof.
  intros Hn Hpk Hp Ho. split; [| split].
  - unfold getEnergy. rewrite Hn.
    destruct (String.eqb_spec s "peak") as [E | _]; [contradiction |].
    now rewrite presets_missing.
  - reflexivity.
  - reflexivity.
Qed.

Lemma getEnergy_unknown_preset_is_null_witness :
  let a := blank (hostOf 8192 44100) defaults in
  getEnergy a (Str "subBass") None = (a, Return Null).
Proof.
  apply (getEnergy_unknown_preset_is_null
           (blank (hostOf 8192 44100) defaults) "subBass" None).
  - reflexivity.
  - discriminate.
  - simpl. intros H. repeat (destruct H as [H | H]; [discriminate |]). exact H.
  - simpl. intros H. repeat (destruct H as [H | H]; [discriminate |]). exact H.
Defined.

(** An inherited property name is found, is not an array, and cannot be
    destructured. *)
Lemma getEnergy_inherited_name_throws (a : Analyzer) :
  getEnergy a (Str "constructor") None = (a, Throw TypeError).
Proof. reflexivity. Qed.

(** ** Peak hold and decay (C2, C5) *)

Lemma nth_error_aset {A} (d : A) (l : list A) (i : nat) (v : A) :
  nth_error (JS.aset d l i v) i = Some v.
Proof.
  revert l. induction i as [| i IH]; intros [| x l]; simpl; auto.
Qed.

Lemma barValue_geometry fftData (b b' : Bar.t) :
  sameGeometry b b' -> barValue fftData b' = barValue fftData b.
Proof.
  intros (E1 & E2 & E3 & E4). unfold barValue. now rewrite E1, E2, E3, E4.
Qed.

(** [drawBar] on one channel is [peakHold] on that channel's scalars. *)
Lemma drawBar_peakHold fftData (c : nat) (mbh : R) (bar : Bar.t)
                       (p : R) (hd : Z) (v : R) :
  nth_error (Bar.peak bar) c = Some p ->
  nth_error (Bar.hold bar) c = Some hd ->
  barValue fftData bar = JS.Fin v ->
  exists bar',
    drawBar fftData c mbh bar = Some bar'
    /\ nth_error (Bar.peak bar') c = Some (fst (peakHold mbh v (p, hd)))
    /\ nth_error (Bar.hold bar') c = Some (snd (peakHold mbh v (p, hd)))
    /\ nth_error (Bar.value bar') c = Some (JS.Fin v)
    /\ sameGeometry bar bar'.
Proof.
  intros Hp Hh Hv. unfold drawBar, dropPeak, newPeak, peakHold.
  rewrite Hv.
  cbn [Bar.peak Bar.hold Bar.value Bar.set_peak Bar.set_hold Bar.set_value].
  rewrite Hp.
  destruct (Rltb 0 p) eqn:Epos; [rewrite Hh; destruct (hd - 1 <? 0)%Z |];
    cbn [option_map Bar.peak Bar.hold Bar.value Bar.set_peak Bar.set_hold
         Bar.set_value];
    rewrite ?nth_error_aset, ?Hp;
    match goal with |- context [Rleb ?x v] => destruct (Rleb x v) end;
    eexists; (split; [reflexivity |]);
    cbn [Bar.peak Bar.hold Bar.value Bar.set_peak Bar.set_hold Bar.set_value
         fst snd];
    rewrite ?nth_error_aset; repeat split; assumption.
Qed.

Lemma Zltb_IZR_neg (z : Z) (m : R) :
  0 < m -> (z < 0)%Z -> IZR z / m < 0.
Proof.
  intros Hm Hz. apply IZR_lt in Hz.
  pose proof (Rinv_0_lt_compat m Hm). unfold Rdiv. nra.
Qed.

Lemma fft_silence (n : nat) (j : Z) :
  (0 <= j < Z.of_nat n)%Z -> fft (silence n) j = JS.Fin 0.
Proof.
  intros H. unfold fft, at_.
  destruct (Z.ltb_spec j 0); [lia |].
  destruct (nth_error (silence n) (Z.to_nat j)) as [x |] eqn:E.
  - apply nth_error_In, repeat_spec in E. now subst.
  - apply nth_error_None in E. unfold silence in E.
    rewrite repeat_length in E. lia.
Qed.

Lemma highest_silence (len n : nat) (j : Z) :
  (0 <= j)%Z -> (j + Z.of_nat n <= Z.of_nat len)%Z ->
  highest (silence len) n j (JS.Fin 0) = JS.Fin 0.
Proof.
  revert j. induction n as [| n IH]; intros j H0 H1; [reflexivity |].
  cbn [highest]. rewrite fft_silence by lia.
  replace (Rltb 0 0) with false by (symmetry; apply Rltb_false; lra).
  apply IH; lia.
Qed.

(** A bar whose bins and their right neighbours are inside the array reads
    0 from silence. *)
Lemma barValue_silence (len : nat) (bar : Bar.t) :
  (0 <= Bar.binLo bar)%Z -> (Bar.binLo bar <= Bar.binHi bar)%Z ->
  (Bar.binHi bar + 1 < Z.of_nat len)%Z ->
  barValue (silence len) bar = JS.Fin 0.
Proof.
  intros H0 H1 H2. unfold barValue, interpolate.
  rewrite !fft_silence by lia. cbn [JS.max].
  replace (Rmax (0 + (0 - 0) * Bar.ratioLo bar) (0 + (0 - 0) * Bar.ratioHi bar))
    with 0.
  - rewrite highest_silence by lia. f_equal. unfold Rdiv. ring.
  - rewrite !Rminus_diag, !Rmult_0_l, !Rplus_0_l.
    symmetry. apply Rmax_left. lra.
Qed.

(** A decaying bar peak drops by [hold / maxBarHeight]: a peak of 1/2 with
    hold 0 and 100 pixels of height goes to 49/100, which is neither
    1/2 * 30/30 nor 1/2 * 29/30. *)
Lemma bar_decay_counterexample :
  let bar := Bar.mk 0 3 3 1 1 0 0 [1 / 2; 0] [0%Z] [JS.Fin 0] in
  exists bar',
    drawBar (silence 16) 0 100 bar = Some bar'
    /\ nth_error (Bar.peak bar') 0 = Some (49 / 100)
    /\ nth_error (Bar.hold bar') 0 = Some (-1)%Z
    /\ 49 / 100 <> 1 / 2 * ((30 + 0) / 30)
    /\ 49 / 100 <> 1 / 2 * ((30 + -1) / 30).
Proof.
  intros bar.
  destruct (drawBar_peakHold (silence 16) 0 100 bar (1 / 2) 0 0)
    as (bar' & Hd & Hp & Hh & _); try reflexivity.
  { apply barValue_silence; simpl; lia. }
  exists bar'. split; [exact Hd |].
  assert (E : peakHold 100 0 (1 / 2, 0%Z) = (49 / 100, (-1)%Z)).
  { unfold peakHold. decide_R. cbn [Z.sub Z.ltb Z.add Z.opp Z.compare Z.pos_sub].
    decide_R. f_equal. lra. }
  rewrite E in Hp, Hh. repeat split; try assumption; lra.
Qed.

(** C2 (amended).  One frame update of a bar on a channel, for a bar value
    [v], a peak [p] and a hold counter [hd]:
    - rising ([v >= p]): the peak becomes [v] and the hold 30;
    - holding ([v < p], [p > 0], [hd > 0]): the peak stays and the hold is
      decremented;
    - decaying ([v < p], [p > 0], [hd <= 0]): the hold is decremented and
      the peak drops by adding [hold / maxBarHeight], the decremented hold
      being negative; if that takes the peak down to [v] or below, the
      frame ends as a rising one.
    The factor [(30 + hold) / 30] is the decay of the global energy peak:
    there, rising sets peak and hold to the value and 30, holding
    ([hold > 0]) decrements the hold, and decaying ([hold <= 0],
    [peak > 0]) multiplies the peak by [(30 + hold) / 30] and decrements
    the hold. *)
Theorem peak_states (fftData : list Z) (c : nat) (mbh : R) (bar : Bar.t)
                    (p : R) (hd : Z) (v : R) (e : Energy.t) (w : R) :
  0 < mbh ->
  nth_error (Bar.peak bar) c = Some p ->
  nth_error (Bar.hold bar) c = Some hd ->
  barValue fftData bar = JS.Fin v ->
  (exists bar',
     drawBar fftData c mbh bar = Some bar'
     /\ (p <= v ->
         nth_error (Bar.peak bar') c = Some v
         /\ nth_error (Bar.hold bar') c = Some 30%Z)
     /\ (v < p -> 0 < p -> (0 < hd)%Z ->
         nth_error (Bar.peak bar') c = Some p
         /\ nth_error (Bar.hold bar') c = Some (hd - 1)%Z)
     /\ (v < p -> 0 < p -> (hd <= 0)%Z -> v < p + IZR (hd - 1) / mbh ->
         nth_error (Bar.peak bar') c = Some (p + IZR (hd - 1) / mbh)
         /\ nth_error (Bar.hold bar') c = Some (hd - 1)%Z)
     /\ (v < p -> 0 < p -> (hd <= 0)%Z -> p + IZR (hd - 1) / mbh <= v ->
         nth_error (Bar.peak bar') c = Some v
         /\ nth_error (Bar.hold bar') c = Some 30%Z))
  /\ (Energy.peak e <= w ->
      updateEnergy (JS.Fin w) e = Energy.mk (JS.Fin w) w 30)
  /\ (w < Energy.peak e -> (0 < Energy.hold e)%Z ->
      updateEnergy (JS.Fin w) e
      = Energy.mk (JS.Fin w) (Energy.peak e) (Energy.hold e - 1))
  /\ (w < Energy.peak e -> (Energy.hold e <= 0)%Z -> 0 < Energy.peak e ->
      updateEnergy (JS.Fin w) e
      = Energy.mk (JS.Fin w)
                  (Energy.peak e * ((30 + IZR (Energy.hold e)) / 30))
                  (Energy.hold e - 1)).
Proof.
  intros Hm Hp Hh Hv. split.
  - destruct (drawBar_peakHold fftData c mbh bar p hd v Hp Hh Hv)
      as (bar' & Hd & Hp' & Hh' & _).
    exists bar'. split; [exact Hd |].
    rewrite Hp', Hh'. unfold peakHold.
    repeat split; intros.
    all: try (destruct (Rltb 0 p) eqn:E0;
              [destruct (Z.ltb_spec (hd - 1) 0);
               [pose proof (Zltb_IZR_neg (hd - 1) mbh Hm ltac:(assumption)) |]
              |]).
    all: try (apply Rltb_false in E0).
    all: try (apply Rltb_true in E0).
    all: cbn [fst snd]; try lia; try lra.
    all: decide_R; reflexivity.
  - unfold updateEnergy, JS.geb. repeat split; intros.
    + destruct (Rle_dec (Energy.peak e) w); [reflexivity | lra].
    + destruct (Rle_dec (Energy.peak e) w); [lra |].
      destruct (Z.ltb_spec 0 (Energy.hold e)); [reflexivity | lia].
    + destruct (Rle_dec (Energy.peak e) w); [lra |].
      destruct (Z.ltb_spec 0 (Energy.hold e)); [lia |].
      decide_R. reflexivity.
Qed.

Lemma peak_states_witness :
  let bar := Bar.mk 0 3 3 1 1 0 0 [1 / 2; 0] [0%Z] [JS.Fin 0] in
  let e := Energy.mk (JS.Fin 0) (1 / 2) 0 in
  updateEnergy (JS.Fin 0) e
  = Energy.mk (JS.Fin 0) (1 / 2 * ((30 + IZR 0) / 30)) (0 - 1)
  /\ exists bar',
       drawBar (silence 16) 0 100 bar = Some bar'
       /\ nth_error (Bar.peak bar') 0 = Some (1 / 2 + IZR (0 - 1) / 100).
Proof.
  intros bar e.
  destruct (peak_states (silence 16) 0 100 bar (1 / 2) 0 0 e 0)
    as ((bar' & Hd & _ & _ & Hdecay & _) & _ & _ & He).
  - lra.
  - reflexivity.
  - reflexivity.
  - apply barValue_silence; simpl; lia.
  - split.
    + apply He; simpl; try lra; lia.
    + exists bar'. split; [exact Hd |].
      apply Hdecay; simpl; try lra; lia.
Defined.

(** *** Silence after a peak *)

Lemma decayFactor_pos (k : nat) : (k <= 30)%nat -> 0 < decayFactor k.
Proof.
  induction k as [| k IH]; intros H; simpl; [lra |].
  assert (INR k <= 29).
  { replace 29 with (INR 29) by (simpl; lra). apply le_INR. lia. }
  apply Rmult_lt_0_compat; [apply IH; lia | lra].
Qed.

Lemma decayFactor_31 : decayFactor 31 = 0.
Proof.
  change (decayFactor 31) with (decayFactor 30 * ((30 - INR 30) / 30)).
  replace (INR 30) with 30 by (simpl; lra). lra.
Qed.

Lemma silentEnergy_S (n : nat) (e : Energy.t) :
  silentEnergy (S n) e = updateEnergy (JS.Fin 0) (silentEnergy n e).
Proof. reflexivity. Qed.

Lemma energy_hold_phase (e : Energy.t) (n : nat) :
  0 < Energy.peak e -> (Z.of_nat n <= Energy.hold e)%Z ->
  Energy.peak (silentEnergy n e) = Energy.peak e
  /\ Energy.hold (silentEnergy n e) = (Energy.hold e - Z.of_nat n)%Z.
Proof.
  intros HP. induction n as [| n IH]; intros Hn.
  - simpl. split; [reflexivity | lia].
  - destruct IH as [IHp IHh]; [lia |].
    rewrite silentEnergy_S.
    unfold updateEnergy, JS.geb. rewrite IHp, IHh.
    destruct (Rle_dec (Energy.peak e) 0); [lra |].
    destruct (Z.ltb_spec 0 (Energy.hold e - Z.of_nat n)); [| lia].
    simpl. split; [reflexivity | lia].
Qed.

Lemma energy_decay_phase (e : Energy.t) (k : nat) :
  0 < Energy.peak e -> Energy.hold e = 0%Z -> (k <= 31)%nat ->
  Energy.peak (silentEnergy k e) = Energy.peak e * decayFactor k
  /\ Energy.hold (silentEnergy k e) = (- Z.of_nat k)%Z.
Proof.
  intros HP H0. induction k as [| k IH]; intros Hk.
  - simpl. split; [lra | lia].
  - destruct IH as [IHp IHh]; [lia |].
    pose proof (decayFactor_pos k ltac:(lia)) as Hpos.
    rewrite silentEnergy_S.
    unfold updateEnergy, JS.geb. rewrite IHp, IHh.
    assert (0 < Energy.peak e * decayFactor k)
      by (apply Rmult_lt_0_compat; assumption).
    destruct (Rle_dec (Energy.peak e * decayFactor k) 0); [lra |].
    destruct (Z.ltb_spec 0 (- Z.of_nat k)); [lia |].
    decide_R. cbn [Energy.peak Energy.hold decayFactor].
    rewrite opp_IZR, <- INR_IZR_INZ. split; [| lia].
    unfold Rminus, Rdiv. ring.
Qed.

Lemma silentEnergy_add (n m : nat) (e : Energy.t) :
  silentEnergy (n + m) e = silentEnergy n (silentEnergy m e).
Proof. unfold silentEnergy. apply Nat.iter_add. Qed.

(** The energy peak through 61 frames of silence. *)
Lemma energy_silence (e : Energy.t) :
  0 < Energy.peak e -> Energy.hold e = 30%Z ->
  (forall n, (n <= 30)%nat ->
     Energy.peak (silentEnergy n e) = Energy.peak e)
  /\ (forall n, (n < 61)%nat -> 0 < Energy.peak (silentEnergy n e))
  /\ Energy.peak (silentEnergy 61 e) = 0.
Proof.
  intros HP H30.
  assert (Hhold : forall n, (n <= 30)%nat ->
            Energy.peak (silentEnergy n e) = Energy.peak e
            /\ Energy.hold (silentEnergy n e) = (30 - Z.of_nat n)%Z).
  { intros n Hn. rewrite <- H30. apply energy_hold_phase; [assumption | lia]. }
  destruct (Hhold 30%nat ltac:(lia)) as [Hp30 Hh30].
  assert (Hdecay : forall k, (k <= 31)%nat ->
            Energy.peak (silentEnergy (k + 30) e)
            = Energy.peak e * decayFactor k).
  { intros k Hk. rewrite silentEnergy_add.
    destruct (energy_decay_phase (silentEnergy 30 e) k) as [Hp _];
      try assumption; [lra | ]. rewrite Hp. now rewrite Hp30. }
  split; [| split].
  - intros n Hn. now apply Hhold.
  - intros n Hn. destruct (Nat.le_gt_cases n 30) as [Hle | Hgt].
    + destruct (Hhold n Hle) as [-> _]. exact HP.
    + replace n with ((n - 30) + 30)%nat by lia.
      rewrite Hdecay by lia.
      apply Rmult_lt_0_compat; [assumption | apply decayFactor_pos; lia].
  - change 61%nat with (31 + 30)%nat. rewrite Hdecay by lia.
    rewrite decayFactor_31. ring.
Qed.

Lemma silentPeak_S (mbh : R) (n : nat) (s : R * Z) :
  silentPeak mbh (S n) s = peakHold mbh 0 (silentPeak mbh n s).
Proof. reflexivity. Qed.

Lemma silentPeak_add (mbh : R) (n m : nat) (s : R * Z) :
  silentPeak mbh (n + m) s = silentPeak mbh n (silentPeak mbh m s).
Proof. unfold silentPeak. apply Nat.iter_add. Qed.

Lemma tri_S (k : nat) : tri (S k) = tri k + (INR k + 1).
Proof. unfold tri. rewrite S_INR. field. Qed.

Lemma tri_mono (j k : nat) : (j <= k)%nat -> tri j <= tri k.
Proof.
  induction 1 as [| k _ IH]; [lra |].
  rewrite tri_S. pose proof (pos_INR k). lra.
Qed.

Lemma bar_hold_phase (mbh P : R) (hd : Z) (n : nat) :
  0 < P -> (Z.of_nat n <= hd)%Z ->
  silentPeak mbh n (P, hd) = (P, (hd - Z.of_nat n)%Z).
Proof.
  intros HP. induction n as [| n IH]; intros Hn.
  - simpl. f_equal. lia.
  - rewrite silentPeak_S, IH by lia. unfold peakHold. decide_R.
    destruct (Z.ltb_spec (hd - Z.of_nat n - 1) 0); [lia |].
    decide_R. f_equal. lia.
Qed.

Lemma bar_decay_phase (mbh P : R) (k : nat) :
  0 < mbh -> 0 < P -> tri k < P * mbh ->
  silentPeak mbh k (P, 0%Z) = (P - tri k / mbh, (- Z.of_nat k)%Z).
Proof.
  intros Hm HP. induction k as [| k IH]; intros Hk.
  - simpl. f_equal. unfold tri. simpl. lra.
  - pose proof (tri_mono k (S k) ltac:(lia)) as Hmono.
    rewrite silentPeak_S, IH by lra.
    assert (Hdiv : forall t, t < P * mbh -> 0 < P - t / mbh).
    { intros t Ht. apply Rlt_0_minus.
      apply (Rmult_lt_reg_r mbh); [assumption |].
      unfold Rdiv. rewrite Rmult_assoc, Rinv_l; lra. }
    pose proof (Hdiv (tri k) ltac:(lra)) as Hk0.
    pose proof (Hdiv (tri (S k)) Hk) as Hk1.
    assert (E : P - tri k / mbh + IZR (- Z.of_nat k - 1) / mbh
                = P - tri (S k) / mbh).
    { rewrite tri_S, minus_IZR, opp_IZR, <- INR_IZR_INZ. field. lra. }
    unfold peakHold. decide_R.
    destruct (Z.ltb_spec (- Z.of_nat k - 1) 0); [| lia].
    rewrite E. decide_R. f_equal. lia.
Qed.

Lemma bar_decay_end (mbh P : R) (k : nat) :
  0 < mbh -> 0 < P -> tri k < P * mbh <= tri (S k) ->
  silentPeak mbh (S k) (P, 0%Z) = (0, 30%Z).
Proof.
  intros Hm HP [Hk HS].
  rewrite silentPeak_S, bar_decay_phase by assumption.
  assert (Hk0 : 0 < P - tri k / mbh).
  { apply Rlt_0_minus. apply (Rmult_lt_reg_r mbh); [assumption |].
    unfold Rdiv. rewrite Rmult_assoc, Rinv_l; lra. }
  assert (E : P - tri k / mbh + IZR (- Z.of_nat k - 1) / mbh
              = P - tri (S k) / mbh).
  { rewrite tri_S, minus_IZR, opp_IZR, <- INR_IZR_INZ. field. lra. }
  assert (Hk1 : P - tri (S k) / mbh <= 0).
  { apply Rle_minus. apply (Rmult_le_reg_r mbh); [assumption |].
    unfold Rdiv. rewrite Rmult_assoc, Rinv_l; lra. }
  unfold peakHold. decide_R.
  destruct (Z.ltb_spec (- Z.of_nat k - 1) 0); [| lia].
  rewrite E. decide_R. reflexivity.
Qed.

(** Frames of [drawBar] in silence follow [silentPeak]. *)
Lemma frames_silentPeak (len c : nat) (mbh : R) (bar : Bar.t)
                        (p : R) (hd : Z) (n : nat) :
  (0 <= Bar.binLo bar)%Z -> (Bar.binLo bar <= Bar.binHi bar)%Z ->
  (Bar.binHi bar + 1 < Z.of_nat len)%Z ->
  nth_error (Bar.peak bar) c = Some p ->
  nth_error (Bar.hold bar) c = Some hd ->
  exists bar',
    frames (silence len) c mbh n bar = Some bar'
    /\ nth_error (Bar.peak bar') c = Some (fst (silentPeak mbh n (p, hd)))
    /\ nth_error (Bar.hold bar') c = Some (snd (silentPeak mbh n (p, hd)))
    /\ sameGeometry bar bar'.
Proof.
  intros H0 H1 H2 Hp Hh. induction n as [| n IH].
  - exists bar. repeat split; assumption.
  - destruct IH as (b & Hf & Hbp & Hbh & Hg).
    destruct (drawBar_peakHold (silence len) c mbh b _ _ 0 Hbp Hbh)
      as (b' & Hd & Hp' & Hh' & _ & Hg').
    { rewrite (barValue_geometry _ bar b Hg).
      now apply barValue_silence. }
    exists b'. cbn [frames]. rewrite Hf. split; [exact Hd |].
    rewrite silentPeak_S.
    destruct (silentPeak mbh n (p, hd)) as [q g]. cbn [fst snd] in *.
    repeat split; try assumption.
    all: destruct Hg as (G1 & G2 & G3 & G4), Hg' as (G1' & G2' & G3' & G4');
      congruence.
Qed.

(** Once back at 0, the peak of a bar stays there in silence. *)
Lemma bar_zero_stays (mbh : R) (n : nat) :
  silentPeak mbh n (0, 30%Z) = (0, 30%Z).
Proof.
  induction n as [| n IH]; [reflexivity |].
  rewrite silentPeak_S, IH. unfold peakHold. decide_R. reflexivity.
Qed.

(** The peak of a bar through the silence that follows it, in exact
    arithmetic: the hold, the drop, and the reset at the first frame where
    the dropped total reaches [P * maxBarHeight]. *)
Lemma bar_silence (mbh P : R) (j : nat) :
  0 < mbh -> 0 < P -> tri j < P * mbh <= tri (S j) ->
  (forall n, (n <= 30)%nat -> silentPeak mbh n (P, 30%Z)
                              = (P, (30 - Z.of_nat n)%Z))
  /\ (forall n, (n <= 30 + j)%nat -> 0 < fst (silentPeak mbh n (P, 30%Z)))
  /\ (forall n, (30 + j + 1 <= n)%nat ->
        silentPeak mbh n (P, 30%Z) = (0, 30%Z)).
Proof.
  intros Hm HP Hj.
  assert (S30 : silentPeak mbh 30 (P, 30%Z) = (P, 0%Z)).
  { rewrite bar_hold_phase by (assumption || lia). f_equal. }
  split; [| split].
  - intros n Hn. apply bar_hold_phase; [assumption | lia].
  - intros n Hn. destruct (Nat.le_gt_cases n 30) as [Hle | Hgt].
    + rewrite bar_hold_phase by (assumption || lia). exact HP.
    + replace n with ((n - 30) + 30)%nat by lia.
      rewrite silentPeak_add, S30.
      pose proof (tri_mono (n - 30) j ltac:(lia)) as Hmono.
      rewrite bar_decay_phase by (assumption || lra).
      cbn [fst]. apply Rlt_0_minus.
      apply (Rmult_lt_reg_r mbh); [assumption |].
      unfold Rdiv. rewrite Rmult_assoc, Rinv_l; lra.
  - intros n Hn.
    replace n with ((n - (30 + j + 1)) + (S j + 30))%nat by lia.
    rewrite silentPeak_add, (silentPeak_add mbh (S j) 30), S30,
      bar_decay_end by assumption.
    apply bar_zero_stays.
Qed.

(** Thirty silent frames after a peak of 1 only run the hold counter down:
    the energy peak and the bar peak are still 1. *)
Lemma peak_after_30_frames_counterexample :
  let e := Energy.mk (JS.Fin 1) 1 30 in
  let bar := Bar.mk 0 3 3 1 1 0 0 [1; 0] [30%Z] [JS.Fin 1] in
  Energy.peak (silentEnergy 30 e) = 1
  /\ peakAt 0 (frames (silence 16) 0 100 30 bar) = Some 1
  /\ 1 <> 0.
Proof.
  intros e bar. split; [| split; [| lra]].
  - destruct (energy_silence e) as (H & _); [simpl; lra | reflexivity |].
    apply (H 30%nat). lia.
  - destruct (frames_silentPeak 16 0 100 bar 1 30 30)
      as (b & Hf & Hp & _); try reflexivity; try (simpl; lia).
    rewrite Hf. cbn [peakAt]. rewrite Hp.
    rewrite bar_hold_phase by (lra || lia). reflexivity.
Qed.

(** C5 (amended).  After a peak [P > 0] is registered (hold = 30), silence
    keeps the peak at [P] for the 30 frames of the hold.  The global energy
    peak then decays by the factors 30/30, 29/30, ..., 0/30: it is positive
    through frame 60 and exactly 0 after 61 frames.  A bar peak (of a bar
    that reads inside the FFT array) then drops by 1, 2, 3, ... over
    [maxBarHeight] per frame and is reset to 0 when the dropped total
    reaches [P * maxBarHeight]: with [k] such that
    1 + ... + k <= P * maxBarHeight <= 1 + ... + (k + 1), the peak is still
    positive before frame 30 + k and is exactly 0 from frame 30 + k + 2 on.
    When [P * maxBarHeight] is not within 1/512 of one of the two totals,
    the peak is still positive at frame 30 + k and is exactly 0 at frame
    30 + k + 1.  (Nearer to a total, the rounding of the subtractions
    decides between the two frames; the statement is for
    [P * maxBarHeight] up to a million, where that rounding stays far
    below 1/512.) *)
Theorem peak_reaches_zero_after_hold_and_decay
        (P mbh : R) (len c : nat) (bar : Bar.t) (e : Energy.t) (k : nat) :
  0 < P -> 0 < mbh ->
  Energy.peak e = P -> Energy.hold e = 30%Z ->
  (0 <= Bar.binLo bar)%Z -> (Bar.binLo bar <= Bar.binHi bar)%Z ->
  (Bar.binHi bar + 1 < Z.of_nat len)%Z ->
  nth_error (Bar.peak bar) c = Some P ->
  nth_error (Bar.hold bar) c = Some 30%Z ->
  tri k <= P * mbh <= tri (S k) -> P * mbh <= 1000000 ->
  (forall n, (n <= 30)%nat -> Energy.peak (silentEnergy n e) = P)
  /\ (forall n, (n < 61)%nat -> 0 < Energy.peak (silentEnergy n e))
  /\ Energy.peak (silentEnergy 61 e) = 0
  /\ (forall n, (n <= 30)%nat ->
        peakAt c (frames (silence len) c mbh n bar) = Some P)
  /\ (forall n, (n < 30 + k)%nat ->
        exists q, peakAt c (frames (silence len) c mbh n bar) = Some q
                  /\ 0 < q)
  /\ (forall n, (30 + k + 2 <= n)%nat ->
        peakAt c (frames (silence len) c mbh n bar) = Some 0)
  /\ (tri k + 1 / 512 <= P * mbh <= tri (S k) - 1 / 512 ->
      (exists q, peakAt c (frames (silence len) c mbh (30 + k) bar) = Some q
                 /\ 0 < q)
      /\ peakAt c (frames (silence len) c mbh (30 + k + 1) bar) = Some 0).
Proof.
  intros HP Hm Hep Heh H0 H1 H2 Hbp Hbh Hk _.
  destruct (energy_silence e) as (E1 & E2 & E3); [lra | assumption |].
  rewrite Hep in E1.
  assert (F : forall n,
            peakAt c (frames (silence len) c mbh n bar)
            = Some (fst (silentPeak mbh n (P, 30%Z)))).
  { intros n.
    destruct (frames_silentPeak len c mbh bar P 30 n H0 H1 H2 Hbp Hbh)
      as (b & Hf & Hp & _).
    rewrite Hf. exact Hp. }
  assert (HT : 0 < P * mbh) by (apply Rmult_lt_0_compat; assumption).
  (* the frame of the reset in exact arithmetic *)
  assert (Hj : exists j, (j <= k <= S j)%nat /\ tri j < P * mbh <= tri (S j)).
  { destruct Hk as [[Hlt | Heq] Hup].
    - exists k. split; [lia | lra].
    - destruct k as [| k']; [unfold tri in Heq; simpl in Heq; lra |].
      exists k'. split; [lia |].
      pose proof (tri_S k'). pose proof (pos_INR k'). lra. }
  destruct Hj as (j & Hjk & Hj).
  destruct (bar_silence mbh P j Hm HP Hj) as (Shold & Spos & Szero).
  split; [exact E1 |]. split; [exact E2 |]. split; [exact E3 |].
  split; [| split; [| split]].
  - intros n Hn. rewrite F, Shold by exact Hn. reflexivity.
  - intros n Hn. rewrite F. eexists. split; [reflexivity |].
    apply Spos. lia.
  - intros n Hn. rewrite F, Szero by lia. reflexivity.
  - intros [Hlo Hhi].
    assert (Hk' : tri k < P * mbh <= tri (S k)) by lra.
    destruct (bar_silence mbh P k Hm HP Hk') as (_ & Kpos & Kzero).
    split.
    + rewrite F. eexists. split; [reflexivity |]. apply Kpos. lia.
    + rewrite F, Kzero by lia. reflexivity.
Qed.

Lemma peak_reaches_zero_after_hold_and_decay_witness :
  let e := Energy.mk (JS.Fin 1) 1 30 in
  let bar := Bar.mk 0 3 3 1 1 0 0 [1; 0] [30%Z] [JS.Fin 1] in
  Energy.peak (silentEnergy 61 e) = 0
  /\ peakAt 0 (frames (silence 16) 0 100 (30 + 13 + 1) bar) = Some 0.
Proof.
  intros e bar.
  assert (T13 : tri 13 = 91) by (unfold tri; simpl; lra).
  assert (T14 : tri 14 = 105) by (unfold tri; simpl; lra).
  destruct (peak_reaches_zero_after_hold_and_decay
              1 100 16 0 bar e 13) as (_ & _ & He & _ & _ & _ & Hb);
    try reflexivity; try lra; try (simpl; lia).
  split; [exact He |]. apply Hb. rewrite T13, T14. lra.
Defined.

(** ** LED geometry (C7) *)

Lemma toInt32_eq (z : Z) (x : R) :
  (0 <= z < 2147483648)%Z -> IZR z <= x < IZR z + 1 -> JS.toInt32 x = z.
Proof.
  intros Hz Hx. unfold JS.toInt32, JS.trunc.
  assert (0 <= IZR z) by (apply IZR_le; lia).
  destruct (Rle_dec 0 x); [| lra].
  rewrite (Zfloor_eq z) by assumption. apply wrap32_small. lia.
Qed.

(** [_calcAux] on a mono, linear analyzer without reflection. *)
Lemma _calcAux_plain (h : Host) (o : Options) :
  _stereo o = false -> _radial o = false -> _lumiBars o = false ->
  _reflexRatio o = 0 -> (0 <= canvas_height h < 2147483648)%Z ->
  let x := aux (_calcAux (blank h o)) in
  _analyzerHeight x = canvas_height h
  /\ _maximizeLeds x = true
  /\ _isOctaveBands x = isOctaveBands (_mode o).
Proof.
  intros Hs Hr Hl Hx Hh. cbv zeta. unfold _calcAux.
  cbn [aux set_aux blank host opts _analyzerHeight _maximizeLeds
       _isOctaveBands].
  rewrite Hs, Hr, Hl, Hx. rewrite !andb_false_l. cbn [negb orb andb].
  split; [| split; reflexivity].
  rewrite !Rminus_0_r, Rmult_1_r.
  unfold JS.shr. rewrite (toInt32_IZR (canvas_height h)) by lia.
  rewrite wrap32_small by lia. rewrite Z.shiftr_0_r.
  apply toInt32_IZR. lia.
Qed.

(** C7 (the code at two inputs it can receive).  With the default table of
    mode 1:
    - at pixel ratio 1/2 (the [loRes] option on a standard display) and a
      270 pixel canvas, the vertical spacing is 3/2, below the 2 pixels
      that the code's own comment promises;
    - on a canvas one pixel high, at pixel ratio 1, the LED count is 0. *)
Theorem led_geometry_degenerate_inputs :
  let o := set_mode defaults 1 in
  let a1 := _calcAux (blank (mkHost true 44100 8192 640 270 (1 / 2) 1 1080) o) in
  let a2 := _calcAux (blank (mkHost true 44100 8192 640 1 1 1 1080) o) in
  (exists leds,
     _calcLeds a1 = Ok (set_leds a1 (Some leds))
     /\ ledSpaceV leds = 3 / 2 /\ ledSpaceV leds < 2)
  /\ (exists leds,
        _calcLeds a2 = Ok (set_leds a2 (Some leds))
        /\ ledCount leds = 0%Z /\ ~ (1 <= ledCount leds)%Z).
Proof.
  intros o a1 a2. split.
  - destruct (_calcAux_plain (mkHost true 44100 8192 640 270 (1 / 2) 1 1080) o)
      as (HA & HM & HO); try reflexivity; [simpl; lia |].
    fold a1 in HA, HM, HO. cbn [canvas_height] in HA.
    unfold _calcLeds. rewrite HO, HA, HM.
    change (isOctaveBands (_mode o)) with true.
    change (_ready (host a1)) with true. cbn [negb orb].
    change (_ledParams (opts a1)) with (@None (Z * R * R)).
    change (at_ ledDefaults (_mode (opts a1)))
      with (Some (Some (128%Z, 3, 45 / 100))).
    eexists. split; [reflexivity |].
    unfold ledGeometry. cbn [ledSpaceV].
    assert (E : Rmin (3 * dPR_of (host a1))
                  (Rmax 2 (IZR (JS.toInt32 (270 / (540 / 3) + 1 / 10))))
                = 3 / 2).
    { rewrite (toInt32_eq 1) by (lia || lra).
      unfold dPR_of. change (_pixelRatio (host a1)) with (1 / 2).
      change (devicePixelRatio (host a1)) with 1. decide_R.
      cbn [andb]. rewrite Rmax_left by lra. rewrite Rmin_left by lra. lra. }
    rewrite E. lra.
  - destruct (_calcAux_plain (mkHost true 44100 8192 640 1 1 1 1080) o)
      as (HA & HM & HO); try reflexivity; [simpl; lia |].
    fold a2 in HA, HM, HO. cbn [canvas_height] in HA.
    unfold _calcLeds. rewrite HO, HA, HM.
    change (isOctaveBands (_mode o)) with true.
    change (_ready (host a2)) with true. cbn [negb orb].
    change (_ledParams (opts a2)) with (@None (Z * R * R)).
    change (at_ ledDefaults (_mode (opts a2)))
      with (Some (Some (128%Z, 3, 45 / 100))).
    eexists. split; [reflexivity |].
    unfold ledGeometry. cbn [ledCount].
    assert (E : Rmin (3 * dPR_of (host a2))
                  (Rmax 2 (IZR (JS.toInt32 (1 / (540 / 3) + 1 / 10))))
                = 2).
    { rewrite (toInt32_eq 0) by (lia || lra).
      unfold dPR_of. change (_pixelRatio (host a2)) with 1.
      change (devicePixelRatio (host a2)) with 1. decide_R.
      cbn [andb]. rewrite Rmax_left by lra. rewrite Rmin_right by lra. lra. }
    rewrite E. rewrite (toInt32_eq 0) by (lia || lra).
    split; [reflexivity | simpl; lia].
Qed.

(** ** Discrete-frequency bars (C6) *)

Lemma StronglySorted_snoc {A} (R : A -> A -> Prop) (l : list A) (x : A) :
  StronglySorted R l -> Forall (fun y => R y x) l ->
  StronglySorted R (l ++ [x]).
Proof.
  induction 1 as [| a l Hs IH Ha]; intros Hx; simpl.
  - repeat constructor.
  - inversion Hx; subst. constructor; [now apply IH |].
    apply Forall_app. split; [assumption | now repeat constructor].
Qed.

Lemma StronglySorted_rev {A} (R : A -> A -> Prop) (l : list A) :
  StronglySorted (fun a b => R b a) l -> StronglySorted R (rev l).
Proof.
  induction 1 as [| a l Hs IH Ha]; simpl; [constructor |].
  apply StronglySorted_snoc; [assumption |].
  apply Forall_rev. assumption.
Qed.

Lemma StronglySorted_nth {A} (R : A -> A -> Prop) (l : list A) :
  StronglySorted R l ->
  forall i j a b, nth_error l i = Some a -> nth_error l j = Some b ->
                  (i < j)%nat -> R a b.
Proof.
  induction 1 as [| x l Hs IH Hx]; intros i j a b Hi Hj Hij.
  - destruct i; discriminate.
  - destruct j as [| j]; [lia |]. destruct i as [| i]; simpl in *.
    + injection Hi as <-. apply nth_error_In in Hj.
      rewrite Forall_forall in Hx. now apply Hx.
    + apply (IH i j); [assumption | assumption | lia].
Qed.

Section DiscreteLoop.
Variable h : Host.
Variable pos : Z -> Z.
Variable i0 : Z.                (* minIndex *)

Local Abbreviation Inv := (DiscreteInv pos i0).

Lemma Inv_start : Inv i0 i0 (-999) [].
Proof.
  constructor; try (intros; lia); try constructor; try reflexivity.
  intros j. simpl.
  destruct (Z.leb_spec i0 j), (Z.ltb_spec j i0); simpl; try reflexivity; lia.
Qed.

Lemma Inv_step (n : nat) (j0 i lastPos : Z) (rbars : list Bar.t) :
  Inv j0 i lastPos rbars ->
  exists j0' lastPos' rbars',
    discreteLoop h pos (S n) i lastPos rbars
    = discreteLoop h pos n (i + 1) lastPos' rbars'
    /\ Inv j0' (i + 1) lastPos' rbars'.
Proof.
  intros [Hr Hs Ho Hso Hb Hl]. cbn [discreteLoop].
  destruct (Z.ltb_spec lastPos (pos i)) as [Hlt | Hge].
  - (* a new bar *)
    exists (match rbars with [] => i | _ => j0 end), (pos i).
    eexists. split; [reflexivity |].
    constructor.
    + destruct rbars; lia.
    + intros j Hj. destruct rbars as [| last rest]; apply Hs;
        destruct Hl; lia.
    + intros j. unfold owners in *. cbn [filter].
      unfold covers at 1. cbn [Bar.binLo Bar.binHi barsPush].
      specialize (Ho j).
      destruct rbars as [| last rest].
      * destruct Hl as [-> _]. simpl in *.
        destruct (Z.leb_spec i j), (Z.leb_spec j i),
          (Z.ltb_spec j (i + 1)); simpl; lia.
      * destruct Hl as (_ & _ & _ & Hj0).
        destruct (Z.leb_spec i j), (Z.leb_spec j i), (Z.leb_spec j0 j),
          (Z.ltb_spec j i), (Z.ltb_spec j (i + 1));
          cbn [andb List.length] in *; try lia; rewrite Ho; reflexivity.
    + constructor; [assumption |].
      cbn [Bar.posX barsPush].
      eapply Forall_impl; [| exact Hb].
      intros b Hb'. apply IZR_lt in Hlt. simpl. lra.
    + constructor; [cbn [Bar.posX barsPush]; lra |].
      eapply Forall_impl; [| exact Hb].
      intros b Hb'. apply IZR_lt in Hlt. simpl in *. lra.
    + cbn [Bar.binLo Bar.binHi barsPush].
      destruct rbars as [| last rest].
      * destruct Hl as [-> ->]. repeat split; lia.
      * destruct Hl as (_ & _ & Hp & Hj). repeat split; lia.
  - destruct rbars as [| last rest].
    + (* nothing to extend: the bin is dropped *)
      destruct Hl as [-> ->].
      exists (i + 1)%Z, (-999)%Z. eexists. split; [reflexivity |].
      constructor; try constructor; try lia; try reflexivity.
      * intros j Hj. destruct (Z.eq_dec j i) as [-> | Hne];
          [lia | apply Hs; lia].
      * intros j. simpl.
        destruct (Z.leb_spec (i + 1) j), (Z.ltb_spec j (i + 1));
          simpl; try reflexivity; lia.
    + (* the last bar takes the bin *)
      destruct Hl as (Hhi & Hlo & Hp & Hj).
      exists j0, lastPos. eexists. split; [reflexivity |].
      constructor; try assumption; try lia.
      * intros j. specialize (Ho j). unfold owners in *.
        cbn [filter] in *. unfold covers at 1 in Ho. unfold covers at 1.
        cbn [Bar.binLo Bar.binHi Bar.set_binHi Bar.set_freqHi].
        rewrite Hhi in Ho.
        destruct (Z.leb_spec (Bar.binLo last) j), (Z.leb_spec j (i - 1)),
          (Z.leb_spec j i), (Z.leb_spec j0 j), (Z.ltb_spec j i),
          (Z.ltb_spec j (i + 1));
          cbn [andb List.length] in *; try lia.
      * inversion Hso; subst. constructor; assumption.
      * inversion Hb; subst. constructor; assumption.
      * cbn [Bar.binLo Bar.binHi Bar.set_binHi Bar.set_freqHi].
        repeat split; lia.
Qed.

Lemma Inv_loop (n : nat) (j0 i lastPos : Z) (rbars : list Bar.t) :
  Inv j0 i lastPos rbars ->
  exists j0' lastPos',
    Inv j0' (i + Z.of_nat n) lastPos' (discreteLoop h pos n i lastPos rbars).
Proof.
  revert j0 i lastPos rbars.
  induction n as [| n IH]; intros j0 i lastPos rbars HI.
  - exists j0, lastPos. cbn [discreteLoop]. now rewrite Z.add_0_r.
  - destruct (Inv_step n _ _ _ _ HI) as (j1 & p1 & r1 & E & HI1).
    rewrite E. destruct (IH _ _ _ _ HI1) as (j2 & p2 & HI2).
    exists j2, p2. now replace (i + Z.of_nat (S n))%Z
                       with (i + 1 + Z.of_nat n)%Z by lia.
Qed.
End DiscreteLoop.

(** What the discrete loop builds from an empty list over [n] bins. *)
Lemma discreteLoop_owners (h : Host) (pos : Z -> Z) (i0 : Z) (n : nat) :
  let bars := rev (discreteLoop h pos n i0 (-999) []) in
  StronglySorted (fun b b' => Bar.posX b < Bar.posX b') bars
  /\ exists j0,
       (i0 <= j0 <= i0 + Z.of_nat n)%Z
       /\ (forall j, (i0 <= j < j0)%Z -> (pos j <= -999)%Z)
       /\ ((j0 < i0 + Z.of_nat n)%Z -> (-999 < pos j0)%Z)
       /\ forall j,
            List.length (owners bars j)
            = if ((j0 <=? j) && (j <? i0 + Z.of_nat n))%Z
              then 1%nat else 0%nat.
Proof.
  cbv zeta.
  destruct (Inv_loop h pos i0 n i0 i0 (-999) [] (Inv_start pos i0))
    as (j0 & lastPos & [Hr Hs Ho Hso Hb Hl]).
  split; [now apply StronglySorted_rev |].
  exists j0. repeat split; try lia; try assumption.
  - intros Hlt.
    destruct (discreteLoop h pos n i0 (-999) []); [lia | tauto].
  - intros j. unfold owners. rewrite filter_rev, length_rev. apply Ho.
Qed.

(** In the discrete branch [_calcBars] stores [discreteBars]. *)
Lemma _calcBars_discrete (a : Analyzer) :
  _ready (host a) = true -> _isOctaveBands (aux a) = false ->
  _bars (state_of (_calcBars a))
  = discreteBars (host a) (_minFreq (opts a)) (_maxFreq (opts a))
                 (_analyzerWidth (aux a)) (_initialX (aux a)).
Proof.
  intros Hr Ho. unfold _calcBars.
  change (_ready (host (set_bars a []))) with (_ready (host a)).
  change (_isOctaveBands (aux (set_bars a []))) with (_isOctaveBands (aux a)).
  rewrite Hr, Ho. cbn [negb].
  match goal with
  | |- _bars (state_of (_calcLeds ?x)) = _ =>
      destruct (_calcLeds_opts x) as (_ & -> & _)
  end.
  reflexivity.
Qed.

Lemma ln_le (x y : R) : 0 < x -> x <= y -> ln x <= ln y.
Proof.
  intros Hx [Hlt | ->]; [| lra].
  left. now apply ln_increasing.
Qed.

Lemma ln_10_pos : 0 < ln 10.
Proof. rewrite <- ln_1. apply ln_increasing; lra. Qed.

(** The pixel offset of a frequency on the logarithmic scale, with natural
    logarithms. *)
Lemma log_scale (W a b c : R) :
  ln b <> ln a ->
  W / (JS.log10 b - JS.log10 a) * (JS.log10 c - JS.log10 a)
  = W * (ln c - ln a) / (ln b - ln a).
Proof.
  intros H. unfold JS.log10. pose proof ln_10_pos. field. split; lra.
Qed.

(** The columns of bins 3 and 4 for the range 20..21 Hz on 640 pixels
    (fftSize 8192 at 44100 Hz): bin 3 is left of column -999. *)
Lemma columns_20_21 :
  let pos := discretePos (hostOf 8192 44100) 0 (JS.log10 20)
                         (IZR 640 / (JS.log10 21 - JS.log10 20)) in
  (pos 3 <= -999)%Z /\ (-999 < pos 4)%Z.
Proof.
  intros pos.
  assert (L20 : ln 20 < ln 21) by (apply ln_increasing; lra).
  split.
  - unfold pos, discretePos.
    rewrite binToFreq_pos by (simpl; lra || lia).
    cbn [sampleRate fftSize hostOf].
    rewrite log_scale by lra.
    assert (Hln : ln (3 * 44100 / 8192) + 2 * ln 21 <= 3 * ln 20).
    { replace (2 * ln 21) with (ln 21 + ln 21) by ring.
      replace (3 * ln 20) with (ln 20 + (ln 20 + ln 20)) by ring.
      rewrite <- !ln_mult by lra. apply ln_le; lra. }
    set (A := ln (3 * 44100 / 8192)) in *.
    assert (Hx : 640 * (A - ln 20) / (ln 21 - ln 20) <= -1280).
    { apply (Rmult_le_reg_r (ln 21 - ln 20)); [lra |].
      unfold Rdiv. rewrite Rmult_assoc, Rinv_l by lra. lra. }
    pose proof (Zfloor_bound (640 * (A - ln 20) / (ln 21 - ln 20) + / 2))
      as [Hfl _].
    unfold JS.round.
    assert (IZR (Zfloor (640 * (A - ln 20) / (ln 21 - ln 20) + / 2))
            < IZR (-998)) by lra.
    apply lt_IZR in H. lia.
  - unfold pos, discretePos.
    rewrite binToFreq_pos by (simpl; lra || lia).
    cbn [sampleRate fftSize hostOf].
    rewrite log_scale by lra.
    assert (Hln : ln 20 <= ln (4 * 44100 / 8192)) by (apply ln_le; lra).
    set (A := ln (4 * 44100 / 8192)) in *.
    assert (Hx : 0 <= 640 * (A - ln 20) / (ln 21 - ln 20)).
    { apply Rmult_le_pos; [lra |]. left. apply Rinv_0_lt_compat. lra. }
    assert (0 <= JS.round (640 * (A - ln 20) / (ln 21 - ln 20)))%Z.
    { unfold JS.round. apply Zfloor_lub. simpl. lra. }
    lia.
Qed.

Lemma bins_20_21 :
  _freqToBin (hostOf 8192 44100) 20 floor = 3%Z
  /\ _freqToBin (hostOf 8192 44100) 21 round = 4%Z.
Proof.
  split; unfold _freqToBin, Math; cbn [sampleRate fftSize hostOf].
  - rewrite (Zfloor_eq 3) by lra. reflexivity.
  - rewrite (round_eq 4) by lra. reflexivity.
Qed.

(** With the range 20..21 Hz on 640 pixels (fftSize 8192 at 44100 Hz), bin
    3 is the floor bin of 20 Hz and falls left of column -999 before any
    bar exists: it belongs to no bar. *)
Lemma discrete_dropped_bin_counterexample :
  let h := hostOf 8192 44100 in
  let bars := discreteBars h 20 21 640 0 in
  _freqToBin h 20 floor = 3%Z
  /\ _freqToBin h 21 round = 4%Z
  /\ owners bars 3 = [].
Proof.
  cbv zeta. destruct bins_20_21 as [E3 E4].
  split; [exact E3 |]. split; [exact E4 |].
  unfold discreteBars. rewrite E3, E4.
  change (Z.to_nat (4 - 3 + 1)) with 2%nat.
  destruct columns_20_21 as [P3 P4]. cbv zeta in P3, P4.
  set (pos := discretePos _ _ _ _) in *.
  cbn [discreteLoop].
  destruct (Z.ltb_spec (-999) (pos 3%Z)); [lia |].
  destruct (Z.ltb_spec (-999) (pos (3 + 1)%Z)); [| simpl in *; lia].
  reflexivity.
Qed.

Lemma log10_lt (x y : R) : 0 < x -> x < y -> JS.log10 x < JS.log10 y.
Proof.
  intros Hx Hxy. unfold JS.log10. pose proof ln_10_pos.
  pose proof (ln_increasing x y Hx Hxy).
  apply Rmult_lt_compat_r; [now apply Rinv_0_lt_compat | assumption].
Qed.

(** C6 (amended).  In discrete-frequency mode, for a range that starts at
    1 Hz or above and whose two ends have different logarithms
    ([log10 minFreq < log10 maxFreq], so that the width of the
    logarithmic scale is finite), the bars have pairwise distinct [posX]
    and every FFT bin belongs to at most one bar.  From the first bin of
    [minBin, maxBin] whose column is right of -999 on, every bin up to
    [maxBin] belongs to exactly one bar (the bins before it belong to
    none); so when the column of [minBin] itself is right of -999, every
    bin of [minBin, maxBin] belongs to exactly one bar. *)
Theorem discrete_bars_columns_and_bins
        (h : Host) (minFreq maxFreq : R) (analyzerWidth initialX : Z) :
  0 < sampleRate h -> (2 <= fftSize h)%Z ->
  1 <= minFreq -> JS.log10 minFreq < JS.log10 maxFreq ->
  let bars := discreteBars h minFreq maxFreq analyzerWidth initialX in
  let minBin := _freqToBin h minFreq floor in
  let maxBin := _freqToBin h maxFreq round in
  let pos := discretePos h initialX (JS.log10 minFreq)
               (IZR analyzerWidth / (JS.log10 maxFreq - JS.log10 minFreq)) in
  (forall i j bi bj,
      nth_error bars i = Some bi -> nth_error bars j = Some bj ->
      i <> j -> Bar.posX bi <> Bar.posX bj)
  /\ (forall j, (List.length (owners bars j) <= 1)%nat)
  /\ (forall first,
        (minBin <= first <= maxBin)%Z -> (-999 < pos first)%Z ->
        (forall j, (minBin <= j < first)%Z -> (pos j <= -999)%Z) ->
        forall j,
          ((first <= j <= maxBin)%Z -> List.length (owners bars j) = 1%nat)
          /\ ((j < first)%Z -> owners bars j = []))
  /\ ((-999 < pos minBin)%Z ->
      forall j, (minBin <= j <= maxBin)%Z ->
                List.length (owners bars j) = 1%nat).
Proof.
  intros _ _ _ _ bars minBin maxBin pos.
  destruct (discreteLoop_owners h pos minBin
              (Z.to_nat (maxBin - minBin + 1)))
    as (Hsorted & j0 & Hr & Hskip & Hopen & Hown).
  cbv zeta in Hsorted, Hown.
  change (rev (discreteLoop h pos (Z.to_nat (maxBin - minBin + 1)) minBin
                            (-999) []))
    with bars in Hsorted, Hown.
  assert (Hfirst : forall first,
            (minBin <= first <= maxBin)%Z -> (-999 < pos first)%Z ->
            (forall j, (minBin <= j < first)%Z -> (pos j <= -999)%Z) ->
            j0 = first).
  { intros first Hf Hp Hbefore.
    destruct (Z.lt_trichotomy j0 first) as [Hlt | [Heq | Hgt]];
      [| assumption |].
    - specialize (Hbefore j0 ltac:(lia)). specialize (Hopen ltac:(lia)). lia.
    - specialize (Hskip first ltac:(lia)). lia. }
  assert (Hall : forall first,
            (minBin <= first <= maxBin)%Z -> (-999 < pos first)%Z ->
            (forall j, (minBin <= j < first)%Z -> (pos j <= -999)%Z) ->
            forall j,
              ((first <= j <= maxBin)%Z -> List.length (owners bars j) = 1%nat)
              /\ ((j < first)%Z -> owners bars j = [])).
  { intros first Hf Hp Hbefore j.
    rewrite <- (Hfirst first Hf Hp Hbefore). specialize (Hown j).
    split; intros Hj.
    - rewrite Hown.
      destruct (Z.leb_spec j0 j),
        (Z.ltb_spec j (minBin + Z.of_nat (Z.to_nat (maxBin - minBin + 1))));
        simpl; try reflexivity; lia.
    - apply length_zero_iff_nil. rewrite Hown.
      destruct (Z.leb_spec j0 j); simpl; [lia | reflexivity]. }
  split; [| split; [| split]].
  - intros i j bi bj Hi Hj Hne.
    destruct (Nat.lt_trichotomy i j) as [Hlt | [Heq | Hgt]]; [| lia |].
    + pose proof (StronglySorted_nth _ _ Hsorted i j bi bj Hi Hj Hlt). lra.
    + pose proof (StronglySorted_nth _ _ Hsorted j i bj bi Hj Hi Hgt). lra.
  - intros j. rewrite Hown.
    destruct ((j0 <=? j)%Z && _); lia.
  - exact Hall.
  - intros Hp j Hj.
    apply (Hall minBin ltac:(lia) Hp ltac:(intros; lia) j). lia.
Qed.

Lemma discrete_bars_columns_and_bins_witness :
  let bars := discreteBars (hostOf 8192 44100) 20 21 640 0 in
  List.length (owners bars 4) = 1%nat.
Proof.
  intros bars.
  destruct (discrete_bars_columns_and_bins (hostOf 8192 44100) 20 21 640 0)
    as (_ & _ & H & _).
  { simpl. lra. }
  { simpl. lia. }
  { lra. }
  { apply log10_lt; lra. }
  cbv zeta in H. destruct bins_20_21 as [E3 E4]. rewrite E3, E4 in H.
  destruct columns_20_21 as [P3 P4]. cbv zeta in P3, P4.
  assert (P : forall j : Z, (3 <= j < 4)%Z ->
            (discretePos (hostOf 8192 44100) 0 (JS.log10 20)
               (640 / (JS.log10 21 - JS.log10 20)) j <= -999)%Z).
  { intros j Hj. replace j with 3%Z by lia. exact P3. }
  destruct (H 4%Z ltac:(lia) P4 P 4%Z) as [H1 _].
  apply H1. lia.
Defined.

(** ** The tempered scale *)

Lemma nth_error_grid {A} (f : nat -> nat -> A) (m n s o r : nat) :
  (o < n)%nat -> (r < m)%nat ->
  nth_error (flat_map (fun o => map (f o) (seq 0 m)) (seq s n)) (o * m + r)
  = Some (f (s + o)%nat r).
Proof.
  revert s o. induction n as [| n IH]; intros s o Ho Hr; [lia |].
  cbn [seq flat_map]. destruct o as [| o].
  - rewrite nth_error_app1 by (rewrite length_map, length_seq; lia).
    rewrite Nat.add_0_r. cbn [Nat.mul Nat.add].
    rewrite nth_error_map, nth_error_seq.
    destruct (Nat.ltb_spec r m); [reflexivity | lia].
  - rewrite nth_error_app2 by (rewrite length_map, length_seq; lia).
    rewrite length_map, length_seq.
    replace (S o * m + r - m)%nat with (o * m + r)%nat by lia.
    rewrite IH by lia. f_equal. f_equal. lia.
Qed.

Lemma temperedScale_length (h : Host) :
  List.length (temperedScale h) = 264%nat.
Proof. reflexivity. Qed.

Lemma temperedScale_at (h : Host) (k : nat) :
  (k < 264)%nat -> at_ (temperedScale h) (Z.of_nat k) = Some (entryAt h k).
Proof.
  intros Hk. unfold at_.
  destruct (Z.ltb_spec (Z.of_nat k) 0); [lia |].
  rewrite Nat2Z.id. unfold temperedScale, entryAt.
  rewrite (Nat.div_mod_eq k 24) at 1.
  rewrite (Nat.mul_comm 24 (k / 24)).
  apply (nth_error_grid (temperedEntry h) 24 11 0).
  - apply Nat.Div0.div_lt_upper_bound. lia.
  - apply Nat.mod_upper_bound. lia.
Qed.

Lemma entryAt_freq (h : Host) (k : nat) : freq (entryAt h k) = tfreq k.
Proof.
  unfold entryAt, temperedEntry, tfreq. cbn [freq].
  rewrite (Nat.div_mod_eq k 24) at 3.
  now rewrite (Nat.mul_comm 24 (k / 24)).
Qed.

Lemma ROOT24_pos : 0 < ROOT24.
Proof. unfold ROOT24, JS.pow, Rpower. apply exp_pos. Qed.

Lemma ROOT24_pow24 : ROOT24 ^ 24 = 2.
Proof.
  rewrite <- Rpower_pow by apply ROOT24_pos.
  unfold ROOT24, JS.pow. rewrite Rpower_mult.
  replace (1 / 24 * INR 24) with 1 by (simpl; field).
  apply Rpower_1. lra.
Qed.

(** [a < ROOT24 < b] follows from [a^24 < 2 < b^24]. *)
Lemma ROOT24_between (a b : R) :
  0 <= a -> 0 <= b -> a ^ 24 < 2 -> 2 < b ^ 24 -> a < ROOT24 < b.
Proof.
  intros Ha Hb Hlo Hhi. pose proof ROOT24_pos as Hr.
  pose proof ROOT24_pow24 as H24. split.
  - destruct (Rlt_le_dec a ROOT24) as [H | H]; [assumption | exfalso].
    pose proof (pow_incr ROOT24 a 24 ltac:(lra)). lra.
  - destruct (Rlt_le_dec ROOT24 b) as [H | H]; [assumption | exfalso].
    pose proof (pow_incr b ROOT24 24 ltac:(lra)). lra.
Qed.

Lemma ROOT24_bounds : 10293 / 10000 < ROOT24 < 102931 / 100000.
Proof. apply ROOT24_between; lra. Qed.

Lemma C0_pos : 0 < C0.
Proof.
  unfold C0, JS.pow, Rpower. pose proof (exp_pos (-114 * ln ROOT24)). lra.
Qed.

Lemma tfreq_pos (k : nat) : 0 < tfreq k.
Proof.
  unfold tfreq, JS.pow, Rpower.
  apply Rmult_lt_0_compat; [apply C0_pos | apply exp_pos].
Qed.

Lemma tfreq_S (k : nat) : tfreq (S k) = tfreq k * ROOT24.
Proof.
  unfold tfreq, JS.pow. rewrite S_INR, Rpower_plus.
  rewrite (Rpower_1 ROOT24) by apply ROOT24_pos. ring.
Qed.

Lemma tfreq_add (k d : nat) : tfreq (k + d) = tfreq k * ROOT24 ^ d.
Proof.
  induction d as [| d IH].
  - rewrite Nat.add_0_r. simpl. ring.
  - rewrite Nat.add_succ_r, tfreq_S, IH. simpl. ring.
Qed.

(** Note 114 is A4. *)
Lemma tfreq_114 : tfreq 114 = 440.
Proof.
  unfold tfreq, C0, JS.pow. rewrite Rmult_assoc, <- Rpower_plus.
  replace (-114 + INR 114) with 0.
  - rewrite Rpower_O by apply ROOT24_pos. ring.
  - replace (INR 114) with 114; [ring |].
    rewrite INR_IZR_INZ. reflexivity.
Qed.

Lemma tfreq_mono (j k : nat) : (j <= k)%nat -> tfreq j <= tfreq k.
Proof.
  induction 1 as [| k _ IH]; [lra |].
  rewrite tfreq_S. pose proof (tfreq_pos k).
  pose proof ROOT24_bounds. nra.
Qed.

(** ** The band loop *)

Lemma _freqToBin_le_max (h : Host) (f : R) (r : Rounding) :
  (_freqToBin h f r <= frequencyBinCount h - 1)%Z.
Proof.
  unfold _freqToBin.
  destruct (Z.ltb_spec (Math r (f * IZR (fftSize h) / sampleRate h))
                       (frequencyBinCount h - 1)); lia.
Qed.

Lemma bin_below_half (h : Host) (f : R) (r : Rounding) :
  Rleb (IZR (fftSize h) / 2) (IZR (_freqToBin h f r)) = false.
Proof.
  apply Rleb_false.
  pose proof (_freqToBin_le_max h f r) as H.
  assert (H2 : (2 * (_freqToBin h f r) + 2 <= fftSize h)%Z).
  { unfold frequencyBinCount in H.
    pose proof (Z.mul_div_le (fftSize h) 2 ltac:(lia)). lia. }
  apply IZR_le in H2. rewrite plus_IZR, mult_IZR in H2. lra.
Qed.

Section BandLoop.
Variable h : Host.
Variables minFreq maxFreq : R.
Variable st : nat.              (* steps *)
Hypothesis st_pos : (1 <= st)%nat.

Let lo (j : nat) := entryAt h (j * st).
Let hi (j : nat) := entryAt h (j * st + st - 1).

(** Round [j] of the loop, while the scale lasts. *)
Lemma band_round (j : nat) (rbars : list Bar.t) :
  ((j + 1) * st <= 264)%nat ->
  band h minFreq maxFreq (Z.of_nat st) (Z.of_nat (j * st)) rbars
  = if Rltb maxFreq (tfreq (j * st + st - 1)) then
      match rbars with
      | prevBar :: rest => Break (closeLast h prevBar :: rest)
      | [] => Raise rbars
      end
    else if Rleb minFreq (tfreq (j * st)) then Next (emit h (lo j) (hi j) rbars)
    else Next rbars.
Proof.
  intros Hj. unfold band.
  replace (Z.of_nat (j * st) + Z.of_nat st - 1)%Z
    with (Z.of_nat (j * st + st - 1)) by lia.
  rewrite !temperedScale_at by lia.
  rewrite !entryAt_freq.
  unfold entryAt at 1. unfold temperedEntry at 1. cbn [bin].
  rewrite bin_below_half, orb_false_r. reflexivity.
Qed.

Lemma bands_round (fuel j : nat) (rbars : list Bar.t) :
  ((j + 1) * st <= 264)%nat ->
  bands h minFreq maxFreq (S fuel) (Z.of_nat st) (Z.of_nat (j * st)) rbars
  = match band h minFreq maxFreq (Z.of_nat st) (Z.of_nat (j * st)) rbars with
    | Next rbars' =>
        bands h minFreq maxFreq fuel (Z.of_nat st) (Z.of_nat ((j + 1) * st))
              rbars'
    | Break rbars' => inl rbars'
    | Raise rbars' => inr rbars'
    end.
Proof.
  intros Hj. cbn [bands]. rewrite temperedScale_length.
  destruct (Z.ltb_spec (Z.of_nat (j * st)) (Z.of_nat 264)); [| lia].
  replace (Z.of_nat (j * st) + Z.of_nat st)%Z
    with (Z.of_nat ((j + 1) * st)) by lia.
  reflexivity.
Qed.

(** Rounds that stay below [minFreq] and [maxFreq] push nothing. *)
Lemma bands_skip (m fuel j : nat) (rbars : list Bar.t) :
  ((j + m) * st <= 264)%nat ->
  (m = 0%nat \/ tfreq ((j + m) * st - 1) < minFreq) ->
  (m = 0%nat \/ tfreq ((j + m) * st - 1) <= maxFreq) ->
  bands h minFreq maxFreq (m + fuel) (Z.of_nat st) (Z.of_nat (j * st)) rbars
  = bands h minFreq maxFreq fuel (Z.of_nat st) (Z.of_nat ((j + m) * st)) rbars.
Proof.
  revert j. induction m as [| m IH]; intros j Hm Hmin Hmax.
  - now rewrite Nat.add_0_r.
  - destruct Hmin as [? | Hmin]; [lia |]. destruct Hmax as [? | Hmax]; [lia |].
    cbn [Nat.add]. rewrite bands_round by lia. rewrite band_round by lia.
    pose proof (tfreq_mono (j * st + st - 1) ((j + S m) * st - 1) ltac:(nia)).
    pose proof (tfreq_mono (j * st) ((j + S m) * st - 1) ltac:(nia)).
    decide_R.
    replace ((j + S m) * st)%nat with ((j + 1 + m) * st)%nat by lia.
    apply IH.
    + lia.
    + destruct m; [now left | right].
      now replace ((j + 1 + S m) * st)%nat with ((j + S (S m)) * st)%nat by lia.
    + destruct m; [now left | right].
      now replace ((j + 1 + S m) * st)%nat with ((j + S (S m)) * st)%nat by lia.
Qed.

(** Rounds that stay below [maxFreq] go on, whatever they push. *)
Lemma bands_go_on (m fuel j : nat) (rbars : list Bar.t) :
  ((j + m) * st <= 264)%nat ->
  (m = 0%nat \/ tfreq ((j + m) * st - 1) <= maxFreq) ->
  exists rbars',
    bands h minFreq maxFreq (m + fuel) (Z.of_nat st) (Z.of_nat (j * st)) rbars
    = bands h minFreq maxFreq fuel (Z.of_nat st) (Z.of_nat ((j + m) * st))
            rbars'.
Proof.
  revert j rbars. induction m as [| m IH]; intros j rbars Hm Hmax.
  - exists rbars. now rewrite Nat.add_0_r.
  - destruct Hmax as [? | Hmax]; [lia |].
    cbn [Nat.add]. rewrite bands_round by lia. rewrite band_round by lia.
    pose proof (tfreq_mono (j * st + st - 1) ((j + S m) * st - 1) ltac:(nia)).
    decide_R.
    replace ((j + S m) * st)%nat with ((j + 1 + m) * st)%nat by lia.
    assert (Hnext : m = 0%nat \/ tfreq ((j + 1 + m) * st - 1) <= maxFreq).
    { destruct m; [now left | right].
      now replace ((j + 1 + S m) * st)%nat with ((j + S (S m)) * st)%nat
        by lia. }
    destruct (Rleb minFreq (tfreq (j * st))); apply IH; (lia || assumption).
Qed.
End BandLoop.

Lemma tfreq_above_A4 (d : nat) :
  440 * (10293 / 10000) ^ d <= tfreq (114 + d)
  /\ tfreq (114 + d) <= 440 * (102931 / 100000) ^ d.
Proof.
  rewrite tfreq_add, tfreq_114. destruct ROOT24_bounds as [Ha Hb].
  pose proof (pow_incr (10293 / 10000) ROOT24 d ltac:(lra)).
  pose proof (pow_incr ROOT24 (102931 / 100000) d ltac:(lra)).
  lra.
Qed.

Lemma tfreq_below_A4 (d : nat) :
  (d <= 114)%nat ->
  tfreq (114 - d) * (10293 / 10000) ^ d <= 440
  /\ 440 <= tfreq (114 - d) * (102931 / 100000) ^ d.
Proof.
  intros Hd.
  assert (E : tfreq (114 - d) * ROOT24 ^ d = 440).
  { rewrite <- tfreq_add. replace (114 - d + d)%nat with 114%nat by lia.
    apply tfreq_114. }
  destruct ROOT24_bounds as [Ha Hb].
  pose proof (tfreq_pos (114 - d)).
  pose proof (pow_incr (10293 / 10000) ROOT24 d ltac:(lra)).
  pose proof (pow_incr ROOT24 (102931 / 100000) d ltac:(lra)).
  rewrite <- E. split; apply Rmult_le_compat_l; lra.
Qed.

Lemma emit_head (h : Host) (lo hi : TemperedEntry) (rbars : list Bar.t) :
  exists b rest, emit h lo hi rbars = b :: rest /\ Bar.binHi b = bin hi.
Proof.
  unfold emit. destruct rbars as [| prevBar rest].
  - eexists _, _. split; reflexivity.
  - destruct (1 <? bin lo - Bar.binHi prevBar)%Z;
      match goal with
      | |- context [if ?c then (0, ?x) else ?y] => destruct c
      end; eexists _, _; split; reflexivity.
Qed.

Lemma placeBars_bins (initialX : Z) (barWidth : R) (bars : list Bar.t)
                     (b : Bar.t) :
  In b bars ->
  exists b', In b' (placeBars initialX barWidth bars)
             /\ Bar.binLo b' = Bar.binLo b /\ Bar.binHi b' = Bar.binHi b.
Proof.
  unfold placeBars. generalize 0%nat.
  induction bars as [| x bars IH]; intros n Hin; [contradiction |].
  destruct Hin as [-> | Hin].
  - eexists. split; [left; reflexivity | split; reflexivity].
  - destruct (IH (S n) Hin) as (b' & Hb' & E).
    exists b'. split; [right; exact Hb' | exact E].
Qed.

(** ** The bin range of the bars (C1) *)

Lemma tfreq_252_253 :
  22045 <= tfreq 252 /\ tfreq 252 <= 24000 /\ 24000 < tfreq 253.
Proof.
  destruct (tfreq_above_A4 138) as [L252 U252].
  destruct (tfreq_above_A4 139) as [L253 _].
  change (114 + 138)%nat with 252%nat in *.
  change (114 + 139)%nat with 253%nat in *.
  repeat split; lra.
Qed.

Lemma octaveBars_beyondNyquist :
  exists bars lastBar,
    octaveBars (hostOf 8192 44100) 20 24000 1 = inl (bars ++ [lastBar])
    /\ Bar.binHi lastBar = 4096%Z.
Proof.
  destruct tfreq_252_253 as (L252 & U252 & L253).
  unfold octaveBars. rewrite temperedScale_length.
  destruct (bands_go_on (hostOf 8192 44100) 20 24000 1 ltac:(lia)
                        252 12 0 []) as (rbars & E).
  { lia. }
  { right. pose proof (tfreq_mono 251 252 ltac:(lia)).
    change ((0 + 252) * 1 - 1)%nat with 251%nat. lra. }
  change (252 + 12)%nat with 264%nat in E.
  change (Z.of_nat (0 * 1)) with 0%Z in E. change (Z.of_nat 1) with 1%Z in E.
  rewrite E.
  change 12%nat with (S 11).
  change (Z.of_nat ((0 + 252) * 1)) with (Z.of_nat (252 * 1)).
  rewrite (bands_round (hostOf 8192 44100) 20 24000 1) by lia.
  rewrite (band_round (hostOf 8192 44100) 20 24000 1) by lia.
  change (252 * 1 + 1 - 1)%nat with 252%nat.
  change (252 * 1)%nat with 252%nat.
  decide_R.
  destruct (emit_head (hostOf 8192 44100) (entryAt (hostOf 8192 44100) 252)
                      (entryAt (hostOf 8192 44100) 252) rbars)
    as (b & rest & Eemit & Ebin).
  rewrite Eemit.
  change 11%nat with (S 10).
  change ((252 + 1) * 1)%nat with (253 * 1)%nat.
  rewrite (bands_round (hostOf 8192 44100) 20 24000 1) by lia.
  rewrite (band_round (hostOf 8192 44100) 20 24000 1) by lia.
  change (253 * 1 + 1 - 1)%nat with 253%nat.
  decide_R.
  exists (rev rest), (closeLast (hostOf 8192 44100) b).
  split; [reflexivity |].
  unfold closeLast. cbn [Bar.binHi Bar.set_binHi Bar.set_ratioHi Bar.set_freqHi].
  rewrite Ebin. unfold entryAt, temperedEntry. cbn [bin].
  change (C0 * JS.pow ROOT24 (INR (252 / 24 * 24 + 252 mod 24)))
    with (tfreq 252).
  unfold _freqToBin, Math. cbn [sampleRate fftSize hostOf].
  assert (4095 <= Zfloor (tfreq 252 * 8192 / 44100))%Z
    by (apply Zfloor_lub; lra).
  change (frequencyBinCount (hostOf 8192 44100) - 1)%Z with 4095%Z.
  destruct (Z.ltb_spec (Zfloor (tfreq 252 * 8192 / 44100)) 4095); lia.
Qed.

(** C1 (the code at an input it can receive).  With maxFreq = 24000 Hz
    above the Nyquist frequency (fftSize 8192 at 44100 Hz, mode 1,
    minFreq = 20) the rebuild succeeds and its last bar, after absorbing
    the extra bin at the range cutoff, ends at bin 4096, which is
    [frequencyBinCount] itself and not an index of the FFT array. *)
Theorem last_bar_ends_beyond_the_fft_bins :
  exists a' bar,
    _calcBars beyondNyquist = Ok a'
    /\ In bar (_bars a')
    /\ Bar.binHi bar = frequencyBinCount (host beyondNyquist)
    /\ ~ (Bar.binHi bar < frequencyBinCount (host beyondNyquist))%Z.
Proof.
  destruct octaveBars_beyondNyquist as (bars & lastBar & Eoct & Ehi).
  unfold _calcBars.
  change (_ready (host (set_bars beyondNyquist []))) with true.
  change (_isOctaveBands (aux (set_bars beyondNyquist []))) with true.
  change (at_ stepsTable (_mode (opts (set_bars beyondNyquist []))))
    with (Some 1%Z).
  change (host (set_bars beyondNyquist [])) with (hostOf 8192 44100).
  change (_minFreq (opts (set_bars beyondNyquist []))) with 20.
  change (_maxFreq (opts (set_bars beyondNyquist []))) with 24000.
  cbn [negb]. rewrite Eoct.
  set (W := _analyzerWidth (aux (set_bars beyondNyquist []))).
  set (X := _initialX (aux (set_bars beyondNyquist []))).
  set (bw := IZR W / INR (List.length (bars ++ [lastBar]))).
  destruct (placeBars_bins X bw (bars ++ [lastBar]) lastBar)
    as (b' & Hin & _ & Eb'); [apply in_or_app; right; now left |].
  destruct (placeBars X bw (bars ++ [lastBar])) as [| first placed] eqn:Ep;
    [contradiction |].
  match goal with
  | |- exists a' bar, _calcLeds ?x = Ok a' /\ _ =>
      assert (El : exists a', _calcLeds x = Ok a' /\ _bars a' = first :: placed)
  end.
  { unfold _calcLeds.
    match goal with
    | |- context [_isOctaveBands (aux (_calcAux ?x))] =>
        change (_isOctaveBands (aux (_calcAux x))) with true;
        change (_ready (host (_calcAux x))) with true;
        change (_ledParams (opts (_calcAux x))) with (@None (Z * R * R));
        change (at_ ledDefaults (_mode (opts (_calcAux x))))
          with (Some (Some (128%Z, 3, 45 / 100)))
    end.
    cbn [negb orb]. eexists. split; reflexivity. }
  destruct El as (a' & El & Ebars).
  exists a', b'. split; [exact El |]. rewrite Ebars.
  split; [exact Hin |].
  rewrite Eb', Ehi. split; [reflexivity | vm_compute; discriminate].
Qed.

(** ** Unused-bin redistribution (C4) *)

Lemma split_note (k : nat) : (k / 24 * 24 + k mod 24)%nat = k.
Proof. pose proof (Nat.div_mod_eq k 24). lia. Qed.

Lemma entryAt_bin (h : Host) (k : nat) :
  bin (entryAt h k) = _freqToBin h (tfreq k) floor.
Proof.
  unfold entryAt, temperedEntry, tfreq. cbn [bin].
  now rewrite split_note.
Qed.

Lemma entryAt_ratio (h : Host) (k : nat) :
  ratio (entryAt h k)
  = (tfreq k - binToFreq h (bin (entryAt h k)))
    / (binToFreq h (bin (entryAt h k) + 1) - binToFreq h (bin (entryAt h k))).
Proof.
  rewrite entryAt_bin.
  unfold entryAt, temperedEntry, tfreq. cbn [ratio].
  now rewrite split_note.
Qed.

(** The notes around A4 (fftSize 8192 at 44100 Hz). *)
Lemma notes_112_to_115 :
  let h := hostOf 8192 44100 in
  tfreq 112 < 425
  /\ 425 <= tfreq 113 <= 445
  /\ 445 < tfreq 115
  /\ bin (entryAt h 113) = 79%Z
  /\ bin (entryAt h 114) = 81%Z.
Proof.
  cbv zeta.
  destruct (tfreq_below_A4 2 ltac:(lia)) as [U112 _].
  destruct (tfreq_below_A4 1 ltac:(lia)) as [U113 L113].
  destruct (tfreq_above_A4 1) as [L115 _].
  change (114 - 2)%nat with 112%nat in *.
  change (114 - 1)%nat with 113%nat in *.
  change (114 + 1)%nat with 115%nat in *.
  repeat split; try lra.
  - rewrite entryAt_bin. unfold _freqToBin, Math.
    cbn [sampleRate fftSize hostOf].
    rewrite (Zfloor_eq 79) by lra. reflexivity.
  - rewrite entryAt_bin, tfreq_114. unfold _freqToBin, Math.
    cbn [sampleRate fftSize hostOf].
    rewrite (Zfloor_eq 81) by lra. reflexivity.
Qed.

(** The bars for the range 425..445 Hz in mode 1 (fftSize 8192 at
    44100 Hz): one for the note at 427.5 Hz (bin 79), one for 440 Hz
    (bin 81). *)
Lemma octaveBars_around_A4 :
  exists prev cur,
    octaveBars (hostOf 8192 44100) 425 445 1 = inl [prev; cur]
    /\ Bar.binHi prev = 80%Z
    /\ Bar.binLo cur = (Bar.binHi prev + 1)%Z
    /\ Bar.ratioLo cur <> 0.
Proof.
  destruct notes_112_to_115 as (U112 & [L113 U113] & L115 & B113 & B114).
  cbv zeta in B113, B114.
  set (h := hostOf 8192 44100) in *.
  unfold octaveBars. rewrite temperedScale_length.
  change (bands h 425 445 264 1 0 [])
    with (bands h 425 445 (113 + 151) (Z.of_nat 1) (Z.of_nat (0 * 1)) []).
  rewrite (bands_skip h 425 445 1 ltac:(lia) 113 151 0 []);
    [| lia | right; exact U112 | right; change ((0 + 113) * 1 - 1)%nat with 112%nat; lra].
  change 151%nat with (S (S (S 148))).
  change ((0 + 113) * 1)%nat with (113 * 1)%nat.
  rewrite (bands_round h 425 445 1) by lia.
  rewrite (band_round h 425 445 1) by lia.
  change (113 * 1 + 1 - 1)%nat with 113%nat.
  change (113 * 1)%nat with 113%nat.
  decide_R.
  change ((113 + 1) * 1)%nat with (114 * 1)%nat.
  rewrite (bands_round h 425 445 1) by lia.
  rewrite (band_round h 425 445 1) by lia.
  change (114 * 1 + 1 - 1)%nat with 114%nat.
  change (114 * 1)%nat with 114%nat.
  rewrite tfreq_114. decide_R.
  change ((114 + 1) * 1)%nat with (115 * 1)%nat.
  rewrite (bands_round h 425 445 1) by lia.
  rewrite (band_round h 425 445 1) by lia.
  change (115 * 1 + 1 - 1)%nat with 115%nat.
  decide_R.
  unfold emit, redistribute.
  cbn [Bar.binHi Bar.binLo barsPush hd_error Bar.set_binHi Bar.set_ratioHi
       Bar.set_freqHi].
  rewrite B113, B114.
  change (1 <? 81 - 79)%Z with true. cbv iota.
  change (81 - JS.shr (81 - 79) 1)%Z with 80%Z.
  cbn [Bar.binHi Bar.binLo barsPush hd_error Bar.set_binHi Bar.set_ratioHi
       Bar.set_freqHi].
  change (80 + 1)%Z with 81%Z.
  change ((81 <? 81)%Z && (80 <? 81)%Z) with false. cbv iota.
  eexists _, _. split; [reflexivity |].
  cbn [Bar.binHi Bar.binLo Bar.ratioLo barsPush closeLast Bar.set_binHi
       Bar.set_ratioHi Bar.set_freqHi].
  split; [reflexivity |]. split; [reflexivity |].
  rewrite entryAt_ratio, B114, tfreq_114.
  rewrite !binToFreq_pos by (simpl; lra || lia).
  cbn [sampleRate fftSize hostOf h]. change (81 + 1)%Z with 82%Z.
  intros H.
  apply Rmult_integral in H. destruct H as [H | H]; [lra |].
  assert (0 < / (82 * 44100 / 8192 - 81 * 44100 / 8192))
    by (apply Rinv_0_lt_compat; lra).
  lra.
Qed.

Lemma shr_1 (d : Z) :
  (0 <= d < 2147483648)%Z -> JS.shr d 1 = (d / 2)%Z.
Proof.
  intros H. unfold JS.shr. rewrite wrap32_small by lia.
  now rewrite Z.shiftr_div_pow2 by lia.
Qed.

Lemma redistribute_bins (h : Host) (before : option Bar.t) (prevBar : Bar.t)
                        (binLo : Z) :
  let prev' := redistribute h before prevBar binLo in
  Bar.binLo prev' = Bar.binLo prevBar
  /\ Bar.binHi prev' = (binLo - JS.shr (binLo - Bar.binHi prevBar) 1)%Z
  /\ Bar.ratioHi prev' = 0
  /\ Bar.freqHi prev' = binToFreq h (Bar.binHi prev').
Proof.
  unfold redistribute. destruct before as [b2 |]; [| repeat split].
  cbn [Bar.binLo Bar.binHi Bar.set_binHi Bar.set_ratioHi Bar.set_freqHi].
  match goal with |- context [if ?c then _ else _] => destruct c end;
    repeat split.
Qed.

Lemma redistribute_low_edge (h : Host) (before : option Bar.t)
                            (prevBar : Bar.t) (binLo : Z) :
  let prev' := redistribute h before prevBar binLo in
  (forall b2, before = Some b2 ->
     (Bar.binLo prevBar < Bar.binHi prev')%Z ->
     (Bar.binHi b2 < Bar.binLo prevBar)%Z ->
     Bar.ratioLo prev' = 0
     /\ Bar.freqLo prev' = binToFreq h (Bar.binLo prevBar))
  /\ ((before = None
       \/ (Bar.binHi prev' <= Bar.binLo prevBar)%Z
       \/ (exists b2, before = Some b2
                      /\ (Bar.binLo prevBar <= Bar.binHi b2)%Z)) ->
      Bar.ratioLo prev' = Bar.ratioLo prevBar
      /\ Bar.freqLo prev' = Bar.freqLo prevBar).
Proof.
  destruct (redistribute_bins h before prevBar binLo) as (_ & Ehi & _).
  cbv zeta in *. revert Ehi. unfold redistribute.
  cbn [Bar.binLo Bar.binHi Bar.set_binHi Bar.set_ratioHi Bar.set_freqHi].
  destruct before as [b2 |].
  - destruct (Z.ltb_spec (Bar.binLo prevBar)
                (binLo - JS.shr (binLo - Bar.binHi prevBar) 1));
      destruct (Z.ltb_spec (Bar.binHi b2) (Bar.binLo prevBar));
      cbn [andb];
      cbn [Bar.binLo Bar.binHi Bar.ratioLo Bar.freqLo Bar.set_binHi
           Bar.set_ratioHi Bar.set_freqHi Bar.set_ratioLo Bar.set_freqLo];
      intros Ehi; split.
    all: try (intros b E H1 H2; injection E as <-; first [lia | now split]).
    all: intros [E | [E | (b & E & H1)]];
      try discriminate; try (injection E as <-); try lia; now split.
  - intros _. split; [intros b E; discriminate | intros _; now split].
Qed.

(** What [emit] does when more than one bin lies between the last bar and
    the new band. *)
Lemma emit_redistributes (h : Host) (lo hi : TemperedEntry)
                         (prevBar : Bar.t) (rest : list Bar.t) :
  let diff := (bin lo - Bar.binHi prevBar)%Z in
  (1 < diff < 2147483648)%Z ->
  exists prev' cur,
    emit h lo hi (prevBar :: rest) = cur :: prev' :: rest
    /\ Bar.binHi prev' = (bin lo - diff / 2)%Z
    /\ Bar.binHi prev' = (Bar.binHi prevBar + (diff - diff / 2))%Z
    /\ Bar.ratioHi prev' = 0
    /\ Bar.freqHi prev' = binToFreq h (Bar.binHi prev')
    /\ Bar.binLo prev' = Bar.binLo prevBar
    /\ Bar.binLo cur = (Bar.binHi prev' + 1)%Z
    /\ Bar.binHi cur = bin hi
    /\ Bar.ratioHi cur = ratio hi
    /\ ((Bar.binLo cur < Bar.binHi cur)%Z ->
        Bar.ratioLo cur = 0 /\ Bar.freqLo cur = binToFreq h (Bar.binLo cur))
    /\ ((Bar.binHi cur <= Bar.binLo cur)%Z ->
        Bar.ratioLo cur = ratio lo /\ Bar.freqLo cur = freq lo)
    /\ (forall before tail, rest = before :: tail ->
        (Bar.binLo prevBar < Bar.binHi prev')%Z ->
        (Bar.binHi before < Bar.binLo prevBar)%Z ->
        Bar.ratioLo prev' = 0
        /\ Bar.freqLo prev' = binToFreq h (Bar.binLo prevBar))
    /\ ((rest = []
         \/ (Bar.binHi prev' <= Bar.binLo prevBar)%Z
         \/ (exists before tail, rest = before :: tail
               /\ (Bar.binLo prevBar <= Bar.binHi before)%Z)) ->
        Bar.ratioLo prev' = Bar.ratioLo prevBar
        /\ Bar.freqLo prev' = Bar.freqLo prevBar).
Proof.
  intros diff Hd. unfold emit.
  destruct (Z.ltb_spec 1 (bin lo - Bar.binHi prevBar)) as [_ | ?];
    [| unfold diff in Hd; lia].
  destruct (redistribute_bins h (hd_error rest) prevBar (bin lo))
    as (Elo & Ehi & Erh & Efh).
  cbv zeta in Elo, Ehi, Erh, Efh.
  rewrite shr_1 in Ehi by (unfold diff in Hd; lia).
  set (prev' := redistribute h (hd_error rest) prevBar (bin lo)) in *.
  fold diff in Ehi.
  assert (Hhalf : (diff / 2 <= diff - 1)%Z).
  { apply Z.div_le_upper_bound; lia. }
  assert (Hc : (Bar.binHi prev' + 1 <? bin hi)%Z
               && (Bar.binHi prev' <? Bar.binHi prev' + 1)%Z
               = (Bar.binHi prev' + 1 <? bin hi)%Z).
  { destruct (Z.ltb_spec (Bar.binHi prev') (Bar.binHi prev' + 1)); [| lia].
    apply andb_true_r. }
  rewrite Hc.
  destruct (redistribute_low_edge h (hd_error rest) prevBar (bin lo))
    as (Hzero & Hkeep).
  cbv zeta in Hzero, Hkeep. fold prev' in Hzero, Hkeep.
  assert (Hz : forall before tail, rest = before :: tail ->
            (Bar.binLo prevBar < Bar.binHi prev')%Z ->
            (Bar.binHi before < Bar.binLo prevBar)%Z ->
            Bar.ratioLo prev' = 0
            /\ Bar.freqLo prev' = binToFreq h (Bar.binLo prevBar)).
  { intros before tail -> H1 H2. now apply (Hzero before). }
  assert (Hk : rest = []
               \/ (Bar.binHi prev' <= Bar.binLo prevBar)%Z
               \/ (exists before tail, rest = before :: tail
                      /\ (Bar.binLo prevBar <= Bar.binHi before)%Z) ->
               Bar.ratioLo prev' = Bar.ratioLo prevBar
               /\ Bar.freqLo prev' = Bar.freqLo prevBar).
  { intros [-> | [H | (before & tail & -> & H)]]; apply Hkeep.
    - now left.
    - right. now left.
    - right. right. now exists before. }
  destruct (Z.ltb_spec (Bar.binHi prev' + 1) (bin hi)) as [Hlt | Hge];
    (eexists prev', _; split; [reflexivity |]);
    cbn [Bar.binLo Bar.binHi Bar.ratioLo Bar.ratioHi Bar.freqLo barsPush];
    (split; [exact Ehi |]); (split; [lia |]); (split; [exact Erh |]);
    (split; [exact Efh |]); (split; [exact Elo |]);
    (split; [reflexivity |]); (split; [reflexivity |]);
    (split; [reflexivity |]);
    (split; [intros; first [lia | now split] |]);
    (split; [intros; first [lia | now split] |]);
    (split; [exact Hz | exact Hk]).
Qed.

Lemma Sorted_snoc {A} (R : A -> A -> Prop) (l : list A) (x : A) :
  Sorted R l -> HdRel (fun a b => R b a) x (rev l) -> Sorted R (l ++ [x]).
Proof.
  induction l as [| a l IH]; intros Hs Hx; cbn [app].
  - repeat constructor.
  - inversion Hs as [| ? ? Hs' Ha]; subst.
    cbn [rev] in Hx. destruct l as [| b l].
    + cbn [app rev] in *. inversion Hx; subst.
      repeat constructor. assumption.
    + constructor.
      * apply IH; [assumption |].
        destruct (rev (b :: l)) as [| z zs] eqn:Er.
        -- constructor.
        -- inversion Hx; subst. now constructor.
      * inversion Ha; subst. now constructor.
Qed.

Lemma Sorted_rev {A} (R : A -> A -> Prop) (l : list A) :
  Sorted (fun a b => R b a) l -> Sorted R (rev l).
Proof.
  induction 1 as [| a l Hs IH Ha]; cbn [rev]; [constructor |].
  apply Sorted_snoc; [assumption |]. now rewrite rev_involutive.
Qed.

Lemma Sorted_consecutive {A} (R : A -> A -> Prop) (l : list A) :
  Sorted R l ->
  forall i a b, nth_error l i = Some a -> nth_error l (S i) = Some b -> R a b.
Proof.
  induction 1 as [| x l Hs IH Hx]; intros i a b Ha Hb.
  - destruct i; discriminate.
  - destruct i as [| i]; cbn [nth_error] in *.
    + injection Ha as <-. destruct l as [| y l]; [discriminate |].
      cbn [nth_error] in Hb. injection Hb as <-. now inversion Hx.
    + now apply (IH i).
Qed.

Section NoGap.
Variable h : Host.
Hypothesis sampleRate_pos : 0 < sampleRate h.
Hypothesis fftSize_range : (2 <= fftSize h < 2147483648)%Z.

Lemma scale_bins (e : TemperedEntry) :
  In e (temperedScale h) -> (0 <= bin e < 2147483648)%Z.
Proof.
  unfold temperedScale. intros Hin.
  apply in_flat_map in Hin. destruct Hin as (o & _ & Hin).
  apply in_map_iff in Hin. destruct Hin as (n & <- & _).
  unfold temperedEntry. cbn [bin].
  pose proof (_freqToBin_le_max h (C0 * JS.pow ROOT24 (INR (o * 24 + n))) floor)
    as Hmax.
  assert (Hc : (1 <= frequencyBinCount h <= fftSize h)%Z).
  { unfold frequencyBinCount. split.
    - apply Z.div_le_lower_bound; lia.
    - apply Z.div_le_upper_bound; lia. }
  split; [| lia].
  unfold _freqToBin in *. fold (tfreq (o * 24 + n)) in *.
  destruct (Z.ltb_spec (Math floor (tfreq (o * 24 + n) * IZR (fftSize h)
                                    / sampleRate h))
                       (frequencyBinCount h - 1)); [| lia].
  unfold Math. apply Zfloor_lub. simpl.
  pose proof (tfreq_pos (o * 24 + n)).
  assert (0 < IZR (fftSize h)) by (apply IZR_lt; lia).
  apply Rmult_le_pos; [nra |]. left. now apply Rinv_0_lt_compat.
Qed.

Lemma emit_Chain (lo hi : TemperedEntry) (rbars : list Bar.t) :
  (0 <= bin lo < 2147483648)%Z -> (0 <= bin hi)%Z ->
  Chain rbars -> Chain (emit h lo hi rbars).
Proof.
  intros Hlo Hhi [Hs Hf]. destruct rbars as [| prevBar rest].
  - unfold emit. split; repeat constructor. exact Hhi.
  - inversion Hs as [| ? ? Hs' Hrel]; subst.
    inversion Hf as [| ? ? Hp Hf']; subst.
    destruct (Z.ltb_spec 1 (bin lo - Bar.binHi prevBar)) as [Hgap | Hnear].
    + destruct (emit_redistributes h lo hi prevBar rest ltac:(lia))
        as (prev' & cur & -> & _ & E1 & _ & _ & E2 & E3 & E4 & _).
      assert ((bin lo - Bar.binHi prevBar) / 2
              <= bin lo - Bar.binHi prevBar)%Z
        by (apply Z.div_le_upper_bound; lia).
      split.
      * constructor; [constructor; [assumption |] |].
        -- destruct rest as [| b2 tail]; constructor.
           inversion Hrel; subst. unfold adjacent in *. lia.
        -- constructor. unfold adjacent. lia.
      * repeat constructor; try assumption; lia.
    + unfold emit.
      destruct (Z.ltb_spec 1 (bin lo - Bar.binHi prevBar)); [lia |].
      match goal with
      | |- context [if ?c then (0, ?x) else ?y] => destruct c
      end; (split;
            [ constructor; [assumption |]; constructor; unfold adjacent;
              cbn [Bar.binLo barsPush]; lia
            | repeat constructor; cbn [Bar.binHi barsPush]; assumption ]).
Qed.

Lemma closeLast_Chain (prevBar : Bar.t) (rest : list Bar.t) :
  Chain (prevBar :: rest) -> Chain (closeLast h prevBar :: rest).
Proof.
  intros [Hs Hf]. inversion Hs as [| ? ? Hs' Hrel]; subst.
  inversion Hf as [| ? ? Hp Hf']; subst. split.
  - constructor; [assumption |].
    destruct rest as [| b2 tail]; constructor.
    inversion Hrel; subst. exact H0.
  - constructor; [| assumption].
    unfold closeLast.
    cbn [Bar.binHi Bar.set_binHi Bar.set_ratioHi Bar.set_freqHi]. lia.
Qed.

Lemma bands_Chain (minFreq maxFreq : R) (steps : Z) (fuel : nat) :
  forall (index : Z) (rbars out : list Bar.t),
    Chain rbars ->
    bands h minFreq maxFreq fuel steps index rbars = inl out ->
    Chain out.
Proof.
  induction fuel as [| fuel IH]; intros index rbars out Hc E;
    cbn [bands] in E.
  - now injection E as <-.
  - destruct (index <? Z.of_nat (List.length (temperedScale h)))%Z;
      [| now injection E as <-].
    unfold band in E.
    destruct (at_ (temperedScale h) index) as [lo |] eqn:Elo;
      [| discriminate].
    destruct (at_ (temperedScale h) (index + steps - 1)) as [hi |] eqn:Ehi;
      [| discriminate].
    assert (Hlo : In lo (temperedScale h)).
    { unfold at_ in Elo. destruct (index <? 0)%Z; [discriminate |].
      eapply nth_error_In; eassumption. }
    assert (Hhi : In hi (temperedScale h)).
    { unfold at_ in Ehi. destruct (index + steps - 1 <? 0)%Z; [discriminate |].
      eapply nth_error_In; eassumption. }
    apply scale_bins in Hlo, Hhi.
    destruct (Rltb maxFreq (freq hi)
              || Rleb (IZR (fftSize h) / 2) (IZR (bin hi))).
    + destruct rbars as [| prevBar rest]; [discriminate |].
      injection E as <-. now apply closeLast_Chain.
    + destruct (Rleb minFreq (freq lo)).
      * apply (IH _ _ _ (emit_Chain lo hi rbars Hlo ltac:(lia) Hc) E).
      * apply (IH _ _ _ Hc E).
Qed.

(** In the finished list no bin is skipped between consecutive bars. *)
Lemma octaveBars_no_gap (minFreq maxFreq : R) (steps : Z)
                        (bars : list Bar.t) :
  octaveBars h minFreq maxFreq steps = inl bars ->
  forall i prev next,
    nth_error bars i = Some prev -> nth_error bars (S i) = Some next ->
    adjacent prev next.
Proof.
  unfold octaveBars. intros E.
  destruct (bands h minFreq maxFreq (List.length (temperedScale h)) steps 0 [])
    as [rbars | rbars] eqn:Eb; [| discriminate].
  injection E as <-.
  assert (Hc : Chain rbars).
  { apply (bands_Chain _ _ _ _ _ _ _ ltac:(split; constructor) Eb). }
  destruct Hc as [Hs _]. apply Sorted_rev in Hs.
  apply (Sorted_consecutive _ _ Hs).
Qed.
End NoGap.

(** With the range 425..445 Hz in mode 1 (fftSize 8192 at 44100 Hz) bin 80,
    between the two notes, goes to the first bar, so that the second bar
    starts right after it at bin 81 and shares that bin with no bar; yet
    its [ratioLo] is not 0: the bar was a single bin when it was pushed. *)
Lemma unshared_edge_interpolated_counterexample :
  exists prev cur,
    octaveBars (hostOf 8192 44100) 425 445 1 = inl [prev; cur]
    /\ Bar.binLo cur = (Bar.binHi prev + 1)%Z
    /\ Bar.ratioLo cur <> 0.
Proof.
  destruct octaveBars_around_A4 as (prev & cur & E & _ & Hlo & Hr).
  exists prev, cur. repeat split; assumption.
Qed.

(** C4 (amended).  When the band to emit starts more than one bin past the
    last bar ([diff > 1]), the last bar's [binHi] becomes
    [binLo - (diff >> 1)], that is, it grows by [diff - diff / 2] (half the
    gap, rounded up), its [ratioHi] becomes 0 and its [freqHi] is
    recomputed; the new bar starts at the next bin
    ([next.binLo = prev.binHi + 1]).  The new bar's [ratioLo] becomes 0 when
    the new bar spans more than one bin and is kept otherwise; the last
    bar's [ratioLo] becomes 0 when there is a bar before it, it now spans
    more than one bin and it starts above that bar's [binHi], and is kept
    otherwise.  In the finished list no bin is skipped between consecutive
    bars: [next.binLo <= prev.binHi + 1]. *)
Theorem unused_bins_redistributed
        (h : Host) (lo hi : TemperedEntry) (prevBar : Bar.t)
        (rest : list Bar.t) (minFreq maxFreq : R) (steps : Z) :
  0 < sampleRate h -> (2 <= fftSize h < 2147483648)%Z ->
  let diff := (bin lo - Bar.binHi prevBar)%Z in
  (1 < diff < 2147483648)%Z ->
  (exists prev' cur,
     emit h lo hi (prevBar :: rest) = cur :: prev' :: rest
     /\ Bar.binHi prev' = (bin lo - JS.shr diff 1)%Z
     /\ Bar.binHi prev' = (Bar.binHi prevBar + (diff - diff / 2))%Z
     /\ Bar.ratioHi prev' = 0
     /\ Bar.freqHi prev' = binToFreq h (Bar.binHi prev')
     /\ Bar.binLo cur = (Bar.binHi prev' + 1)%Z
     /\ Bar.binHi cur = bin hi
     /\ ((Bar.binLo cur < Bar.binHi cur)%Z ->
         Bar.ratioLo cur = 0 /\ Bar.freqLo cur = binToFreq h (Bar.binLo cur))
     /\ ((Bar.binHi cur <= Bar.binLo cur)%Z ->
         Bar.ratioLo cur = ratio lo /\ Bar.freqLo cur = freq lo)
     /\ (forall before tail, rest = before :: tail ->
         (Bar.binLo prevBar < Bar.binHi prev')%Z ->
         (Bar.binHi before < Bar.binLo prevBar)%Z ->
         Bar.ratioLo prev' = 0
         /\ Bar.freqLo prev' = binToFreq h (Bar.binLo prevBar))
     /\ ((rest = []
          \/ (Bar.binHi prev' <= Bar.binLo prevBar)%Z
          \/ (exists before tail, rest = before :: tail
                /\ (Bar.binLo prevBar <= Bar.binHi before)%Z)) ->
         Bar.ratioLo prev' = Bar.ratioLo prevBar
         /\ Bar.freqLo prev' = Bar.freqLo prevBar))
  /\ (forall bars,
        octaveBars h minFreq maxFreq steps = inl bars ->
        forall i prev next,
          nth_error bars i = Some prev -> nth_error bars (S i) = Some next ->
          (Bar.binLo next <= Bar.binHi prev + 1)%Z).
Proof.
  intros Hs Hf diff Hd. split.
  - destruct (emit_redistributes h lo hi prevBar rest Hd)
      as (prev' & cur & E & E1 & E2 & E3 & E4 & _ & E5 & E6 & _ & E7 & E8
          & E9 & E10).
    exists prev', cur.
    rewrite shr_1 by (unfold diff in *; lia).
    repeat (split; [assumption |]). assumption.
  - intros bars E i prev next Hp Hn.
    apply (octaveBars_no_gap h Hs Hf minFreq maxFreq steps bars E i);
      assumption.
Qed.

Lemma unused_bins_redistributed_witness :
  let h := hostOf 8192 44100 in
  let note := mkEntry 440 81 (73 / 100) in
  let prevBar := barsPush 0 79 79 427 427 (2 / 5) (2 / 5) in
  (exists prev' cur,
     emit h note note [prevBar] = [cur; prev']
     /\ Bar.binHi prev' = 80%Z /\ Bar.binLo cur = 81%Z)
  /\ exists prev cur,
       octaveBars h 425 445 1 = inl [prev; cur]
       /\ (Bar.binLo cur <= Bar.binHi prev + 1)%Z.
Proof.
  intros h note prevBar.
  destruct (unused_bins_redistributed h note note prevBar [] 425 445 1)
    as (Hemit & Hgap).
  - simpl. lra.
  - simpl. lia.
  - simpl. lia.
  - split.
    + destruct Hemit as (prev' & cur & E & E1 & E2 & _ & _ & E5 & _).
      exists prev', cur. split; [exact E |].
      split; [rewrite E2 | rewrite E5, E2]; reflexivity.
    + destruct octaveBars_around_A4 as (prev & cur & E & _).
      exists prev, cur. split; [exact E |].
      apply (Hgap [prev; cur] E 0%nat prev cur); reflexivity.
Defined.

(** ** Complements *)

(** The band loop never stops for want of fuel: with [steps >= 1], once the
    fuel covers the notes that are left, more fuel changes nothing. *)
Lemma bands_fuel_enough (h : Host) (minFreq maxFreq : R) (steps : Z)
                        (fuel extra : nat) :
  (1 <= steps)%Z ->
  forall (index : Z) (rbars : list Bar.t),
    (264 <= index + Z.of_nat fuel)%Z ->
    bands h minFreq maxFreq (fuel + extra) steps index rbars
    = bands h minFreq maxFreq fuel steps index rbars.
Proof.
  intros Hs. induction fuel as [| fuel IH]; intros index rbars Hi.
  - cbn [Nat.add bands]. destruct extra as [| extra]; [reflexivity |].
    cbn [bands]. rewrite temperedScale_length.
    destruct (Z.ltb_spec index (Z.of_nat 264)); [lia | reflexivity].
  - cbn [Nat.add bands]. rewrite temperedScale_length.
    destruct (Z.ltb_spec index (Z.of_nat 264)); [| reflexivity].
    destruct (band h minFreq maxFreq steps index rbars); try reflexivity.
    apply IH. lia.
Qed.

(** With [steps <= 0] the first round reads [temperedScale[-1]] or lower
    and throws. *)
Lemma bands_nonpositive_steps (h : Host) (minFreq maxFreq : R) (steps : Z)
                              (fuel : nat) :
  (steps <= 0)%Z ->
  bands h minFreq maxFreq (S fuel) steps 0 [] = inr [].
Proof.
  intros Hs. cbn [bands]. rewrite temperedScale_length.
  change (0 <? Z.of_nat 264)%Z with true. cbv iota.
  unfold band.
  pose proof (temperedScale_at h 0 ltac:(lia)) as E0.
  change (Z.of_nat 0) with 0%Z in E0. rewrite E0.
  unfold at_ at 1.
  destruct (Z.ltb_spec (0 + steps - 1) 0); [reflexivity | lia].
Qed.

(** The first note of the scale is above 16 Hz. *)
Lemma tfreq_0 : 16 < tfreq 0.
Proof.
  destruct (tfreq_below_A4 114 ltac:(lia)) as [_ L].
  change (114 - 114)%nat with 0%nat in L. lra.
Qed.

(** When even the first band ends above [maxFreq] there is no bar to close
    and the rebuild throws: mode 1 with the range 1..10 Hz. *)
Lemma rebuild_throws_below_first_note :
  let a := _calcAux (blank (hostOf 8192 44100)
                       (mkOptions 1 1 10 0 false false false false 0 None)) in
  _calcBars a = Thrown TypeError (set_bars a []).
Proof.
  intros a. unfold _calcBars.
  change (_ready (host (set_bars a []))) with true.
  change (_isOctaveBands (aux (set_bars a []))) with true.
  change (at_ stepsTable (_mode (opts (set_bars a [])))) with (Some 1%Z).
  change (host (set_bars a [])) with (hostOf 8192 44100).
  change (_minFreq (opts (set_bars a []))) with 1.
  change (_maxFreq (opts (set_bars a []))) with 10.
  cbn [negb]. unfold octaveBars. rewrite temperedScale_length.
  change (bands (hostOf 8192 44100) 1 10 264 1 0 [])
    with (bands (hostOf 8192 44100) 1 10 (S 263) (Z.of_nat 1)
                (Z.of_nat (0 * 1)) []).
  rewrite (bands_round (hostOf 8192 44100) 1 10 1) by lia.
  rewrite (band_round (hostOf 8192 44100) 1 10 1) by lia.
  change (0 * 1 + 1 - 1)%nat with 0%nat.
  pose proof tfreq_0. decide_R. reflexivity.
Qed.




(** A frame that goes through has gone through the state half. *)
Lemma _draw_Ok (useCanvas : bool) (a a' : Analyzer)
               (input : list Z * list Z) :
  _draw useCanvas a input = Some (Ok a') -> _drawState a input = Some a'.
Proof.
  unfold _draw. destruct (nextBarMissing useCanvas a).
  - destruct (_bars a) as [| bar rest]; [discriminate |].
    match goal with
    | |- context [drawBar ?f ?c ?m ?b] => destruct (drawBar f c m b)
    end; discriminate.
  - destruct (_drawState a input) as [x |]; cbn [option_map];
      [| discriminate].
    intros E. now injection E as ->.
Qed.

(** In [_draw] the energy value is 0 whatever the FFT data: the sum that
    [drawBarsLines] makes is lost with its by-value parameter. *)
Lemma _draw_energy (useCanvas : bool) (a a' : Analyzer)
                   (input : list Z * list Z) :
  (1 <= Z.of_nat (List.length (_bars a)) < 1073741824)%Z ->
  _draw useCanvas a input = Some (Ok a') ->
  _energy a' = updateEnergy (JS.Fin 0) (_energy a).
Proof.
  intros Hn E. apply _draw_Ok in E. revert E. unfold _drawState.
  set (bars1 := if _stereo (opts a) then _ else _).
  destruct bars1 as [bars |]; [| discriminate].
  set (n := Z.of_nat (List.length (_bars a))) in *.
  assert (Hdiv : JS.shl n (if _stereo (opts a) then 1 else 0) <> 0%Z).
  { unfold JS.shl. rewrite (wrap32_small n) by lia.
    destruct (_stereo (opts a)); rewrite Z.shiftl_mul_pow2 by lia;
      rewrite wrap32_small; lia. }
  destruct (Z.eqb_spec (JS.shl n (if _stereo (opts a) then 1 else 0)) 0);
    [contradiction |].
  intros E. injection E as <-. cbn [_energy].
  f_equal. f_equal. unfold Rdiv. ring.
Qed.

(** [drawBarsLines] updates every bar of the list with [drawBar]. *)
Lemma drawBarsLines_each (fftData : list Z) (c : nat) (mbh : R)
                         (bars bars' : list Bar.t) :
  drawBarsLines fftData c mbh bars = Some bars' ->
  Forall2 (fun b b' => drawBar fftData c mbh b = Some b') bars bars'.
Proof.
  revert bars'. induction bars as [| b bars IH]; intros bars' E;
    cbn [drawBarsLines] in E.
  - injection E as <-. constructor.
  - destruct (drawBar fftData c mbh b) as [b' |] eqn:Eb; [| discriminate].
    destruct (drawBarsLines fftData c mbh bars) as [rest |]; [| discriminate].
    injection E as <-. constructor; [exact Eb | now apply IH].
Qed.

Lemma nth_error_aset_other {A} (d : A) (l : list A) (i j : nat) (v x : A) :
  i <> j -> nth_error (JS.aset d l i v) j = Some x ->
  nth_error l j = Some x \/ x = d.
Proof.
  revert l j. induction i as [| i IH]; intros l j Hne E.
  - destruct j as [| j]; [contradiction |].
    destruct l as [| y l]; cbn [JS.aset nth_error] in *.
    + destruct j; discriminate.
    + now left.
  - destruct l as [| y l]; cbn [JS.aset] in E.
    + destruct j as [| j]; cbn [nth_error] in E.
      * right. now injection E.
      * destruct (IH [] j ltac:(lia) E) as [H | H]; [| now right].
        destruct j; discriminate.
    + destruct j as [| j]; cbn [nth_error] in *; [now left |].
      apply (IH l j); [lia | exact E].
Qed.

Lemma aset_length {A} (d : A) (l : list A) (i : nat) (v : A) :
  (List.length l <= List.length (JS.aset d l i v))%nat
  /\ (i < List.length (JS.aset d l i v))%nat.
Proof.
  revert l. induction i as [| i IH]; intros [| y l]; cbn [JS.aset List.length];
    try lia.
  - destruct (IH []). cbn [List.length] in *. lia.
  - destruct (IH l). lia.
Qed.

Lemma barsPush_holdWritten (posX : R) (binLo binHi : Z)
                           (freqLo freqHi ratioLo ratioHi : R) :
  holdWritten (barsPush posX binLo binHi freqLo freqHi ratioLo ratioHi).
Proof.
  intros c p E Hp. cbn [barsPush Bar.peak] in E.
  destruct c as [| [| c]]; cbn [nth_error] in E;
    try (injection E as <-; lra).
  destruct c; discriminate.
Qed.

Lemma drawBar_holdWritten (fftData : list Z) (c : nat) (mbh : R)
                          (bar : Bar.t) :
  holdWritten bar ->
  exists bar', drawBar fftData c mbh bar = Some bar' /\ holdWritten bar'.
Proof.
  intros Hw. unfold drawBar, dropPeak.
  cbn [Bar.peak Bar.hold Bar.set_value].
  assert (Hnew : forall v b, holdWritten b -> holdWritten (newPeak c v b)).
  { intros v b Hb. unfold newPeak.
    destruct (nth_error (Bar.peak b) c) as [p |]; [| exact Hb].
    destruct v as [x |]; [| exact Hb].
    destruct (Rleb p x); [| exact Hb].
    intros c' q E Hq.
    cbn [Bar.peak Bar.hold Bar.set_peak Bar.set_hold] in *.
    destruct (Nat.eq_dec c c') as [<- | Hne].
    - apply aset_length.
    - destruct (nth_error_aset_other _ _ _ _ _ _ Hne E) as [E' | ->];
        [| lra].
      pose proof (Hb c' q E' Hq).
      pose proof (aset_length 0%Z (Bar.hold b) c 30%Z). lia. }
  assert (Hval : forall v, holdWritten (Bar.set_value bar v)).
  { intros v c' q E Hq. exact (Hw c' q E Hq). }
  destruct (nth_error (Bar.peak bar) c) as [p |] eqn:Ep.
  - destruct (Rltb 0 p) eqn:Epos.
    + apply Rltb_true in Epos. pose proof (Hw c p Ep Epos) as Hlen.
      destruct (nth_error (Bar.hold bar) c) as [hd |] eqn:Eh;
        [| apply nth_error_None in Eh; lia].
      destruct (hd - 1 <? 0)%Z; cbn [option_map]; eexists;
        (split; [reflexivity |]); apply Hnew; intros c' q E Hq;
        cbn [Bar.peak Bar.hold Bar.set_peak Bar.set_hold Bar.set_value] in *.
      * pose proof (aset_length 0%Z (Bar.hold bar) c (hd - 1)%Z).
        destruct (Nat.eq_dec c c') as [<- | Hne]; [lia |].
        destruct (nth_error_aset_other _ _ _ _ _ _ Hne E) as [E' | ->];
          [| lra].
        pose proof (Hw c' q E' Hq). lia.
      * pose proof (aset_length 0%Z (Bar.hold bar) c (hd - 1)%Z).
        pose proof (Hw c' q E Hq). lia.
    + cbn [option_map]. eexists. split; [reflexivity |].
      apply Hnew, Hval.
  - cbn [option_map]. eexists. split; [reflexivity |]. apply Hnew, Hval.
Qed.

Lemma drawBarsLines_defined (fftData : list Z) (c : nat) (mbh : R)
                            (bars : list Bar.t) :
  Forall holdWritten bars ->
  exists bars', drawBarsLines fftData c mbh bars = Some bars'
                /\ Forall holdWritten bars'.
Proof.
  induction 1 as [| b bars Hb Hbars IH]; cbn [drawBarsLines].
  - exists []. split; [reflexivity | constructor].
  - destruct (drawBar_holdWritten fftData c mbh b Hb) as (b' & -> & Hb').
    destruct IH as (rest & -> & Hrest).
    exists (b' :: rest). split; [reflexivity | now constructor].
Qed.

(** * More properties *)

(** ** What a rebuild keeps and what it resets *)

Lemma _calcLeds_host (a : Analyzer) :
  host (state_of (_calcLeds a)) = host a
  /\ _barWidth (state_of (_calcLeds a)) = _barWidth a
  /\ _energy (state_of (_calcLeds a)) = _energy a
  /\ _fftData (state_of (_calcLeds a)) = _fftData a.
Proof.
  unfold _calcLeds.
  destruct (negb (_isOctaveBands (aux a)) || negb (_ready (host a)));
    [now repeat split |].
  destruct (_ledParams (opts a)); [now repeat split |].
  destruct (at_ ledDefaults (_mode (opts a))) as [[p |] |]; now repeat split.
Qed.

Lemma _calcBars_opts (a : Analyzer) :
  opts (state_of (_calcBars a)) = opts a
  /\ host (state_of (_calcBars a)) = host a.
Proof.
  unfold _calcBars.
  change (host (set_bars a [])) with (host a).
  change (opts (set_bars a [])) with (opts a).
  change (aux (set_bars a [])) with (aux a).
  destruct (negb (_ready (host a))); [now split |].
  assert (K : forall x, opts x = opts a -> host x = host a ->
                opts (state_of (_calcLeds (_calcAux x))) = opts a
                /\ host (state_of (_calcLeds (_calcAux x))) = host a).
  { intros x Ho Hh.
    destruct (_calcLeds_opts (_calcAux x)) as (-> & _ & _).
    destruct (_calcLeds_host (_calcAux x)) as (-> & _).
    destruct (_calcAux_fields x) as (-> & -> & _). now split. }
  destruct (_isOctaveBands (aux a)).
  - destruct (at_ stepsTable (_mode (opts a))) as [steps |]; [| now split].
    destruct (octaveBars (host a) (_minFreq (opts a)) (_maxFreq (opts a)) steps)
      as [bars | bars]; [| now split].
    destruct (placeBars _ _ bars) as [| first placed]; [now split |].
    now apply K.
  - now apply K.
Qed.

(** X1.  [set mode] truncates its argument to an integer.  When that
    integer is negative, above 10 or equal to 9, the setter throws
    ERR_INVALID_MODE and leaves the analyzer as it was.  When the setter
    succeeds, the integer is one of 0..8 or 10, it is the mode that the new
    state holds, and the octave-bands flag of the new state is the one of
    that mode. *)
Theorem mode_setter_validates (a : Analyzer) (value : R) :
  let mode := JS.toInt32 value in
  ((mode < 0 \/ 10 < mode \/ mode = 9)%Z ->
   mode_set a value = Thrown ERR_INVALID_MODE a)
  /\ (forall a', mode_set a value = Ok a' ->
        ((0 <= mode <= 8)%Z \/ mode = 10%Z)
        /\ _mode (opts a') = mode
        /\ _isOctaveBands (aux a') = isOctaveBands mode).
Proof.
  intros mode. unfold mode_set. fold mode. split.
  - intros H.
    destruct (Z.leb_spec 0 mode), (Z.leb_spec mode 10), (Z.eqb_spec mode 9);
      cbn [andb negb]; try reflexivity; lia.
  - intros a' E.
    destruct (Z.leb_spec 0 mode), (Z.leb_spec mode 10), (Z.eqb_spec mode 9);
      cbn [andb negb] in E; try discriminate.
    set (a1 := _calcAux (set_opts a (set_mode (opts a) mode))) in *.
    assert (Ho : opts a' = opts a1).
    { destruct (_calcBars_opts a1) as [Ho _]. now rewrite E in Ho. }
    assert (Hx : _isOctaveBands (aux a') = isOctaveBands mode).
    { unfold _calcBars in E.
      change (host (set_bars a1 [])) with (host a1) in E.
      change (opts (set_bars a1 [])) with (opts a1) in E.
      change (aux (set_bars a1 [])) with (aux a1) in E.
      assert (K : forall x, opts x = opts a1 ->
                    _calcLeds (_calcAux x) = Ok a' ->
                    _isOctaveBands (aux a') = isOctaveBands mode).
      { intros x Hox El.
        destruct (_calcLeds_opts (_calcAux x)) as (_ & _ & Ha).
        rewrite El in Ha. cbn [state_of] in Ha. rewrite Ha.
        destruct (_calcAux_fields x) as (_ & _ & _ & ->).
        rewrite Hox. unfold a1.
        destruct (_calcAux_fields (set_opts a (set_mode (opts a) mode)))
          as (-> & _).
        reflexivity. }
      destruct (negb (_ready (host a1))).
      - injection E as <-. cbn [aux set_bars]. unfold a1.
        now destruct (_calcAux_fields (set_opts a (set_mode (opts a) mode)))
          as (_ & _ & _ & ->).
      - destruct (_isOctaveBands (aux a1)).
        + destruct (at_ stepsTable (_mode (opts a1))) as [steps |];
            [| discriminate].
          destruct (octaveBars (host a1) (_minFreq (opts a1))
                               (_maxFreq (opts a1)) steps)
            as [bars | bars]; [| discriminate].
          destruct (placeBars _ _ bars) as [| first placed]; [discriminate |].
          refine (K _ _ E); reflexivity.
        + refine (K _ _ E); reflexivity. }
    split; [lia |]. split.
    + rewrite Ho. unfold a1.
      now destruct (_calcAux_fields (set_opts a (set_mode (opts a) mode)))
        as (-> & _).
    + exact Hx.
Qed.

(** In discrete mode the rebuild cannot fail. *)
Lemma _calcBars_discrete_ok (a : Analyzer) :
  _ready (host a) = true -> _isOctaveBands (aux a) = false ->
  isOctaveBands (_mode (opts a)) = false ->
  exists a', _calcBars a = Ok a'.
Proof.
  intros Hr Hx Hm. unfold _calcBars.
  change (host (set_bars a [])) with (host a).
  change (opts (set_bars a [])) with (opts a).
  change (aux (set_bars a [])) with (aux a).
  rewrite Hr, Hx. cbn [negb]. unfold _calcLeds.
  match goal with
  | |- context [_isOctaveBands (aux (_calcAux ?x))] =>
      destruct (_calcAux_fields x) as (_ & _ & _ & ->)
  end.
  cbn [opts set_scale set_barWidth set_bars]. rewrite Hm. cbn [negb orb].
  eexists. reflexivity.
Qed.

Lemma mode_setter_validates_witness :
  let a := blank (hostOf 8192 44100) defaults in
  mode_set a (19 / 2) = Thrown ERR_INVALID_MODE a
  /\ exists a', mode_set a 10 = Ok a' /\ _mode (opts a') = 10%Z.
Proof.
  intros a. split.
  - apply (mode_setter_validates a (19 / 2)). right. right.
    apply toInt32_eq; [lia | lra].
  - assert (E10 : JS.toInt32 10 = 10%Z) by (apply toInt32_IZR; lia).
    destruct (_calcBars_discrete_ok
                (_calcAux (set_opts a (set_mode (opts a) 10))))
      as (a' & E); try reflexivity.
    exists a'.
    assert (Em : mode_set a 10 = Ok a').
    { unfold mode_set. rewrite E10. exact E. }
    split; [exact Em |].
    destruct (mode_setter_validates a 10) as [_ H].
    destruct (H a' Em) as (_ & -> & _). exact E10.
Defined.

(** X2.  [setFreqRange] does not depend on the order of its arguments.
    For two frequencies of at least 1 Hz, swapping them gives the same
    result, and whether the rebuild then succeeds or throws, the state holds
    the smaller one as minFreq and the larger one as maxFreq. *)
Theorem setFreqRange_orders_the_range (a : Analyzer) (min max : R) :
  1 <= min -> 1 <= max ->
  let a' := state_of (setFreqRange a min max) in
  setFreqRange a max min = setFreqRange a min max
  /\ _minFreq (opts a') = Rmin min max
  /\ _maxFreq (opts a') = Rmax min max
  /\ 1 <= _minFreq (opts a') <= _maxFreq (opts a').
Proof.
  intros Hmin Hmax a'. unfold a'.
  rewrite (setFreqRange_stores a min max Hmin Hmax).
  rewrite (setFreqRange_stores a max min Hmax Hmin).
  rewrite (Rmin_comm max min), (Rmax_comm max min).
  split; [reflexivity |].
  match goal with
  | |- context [_calcBars ?x] => destruct (_calcBars_opts x) as [-> _]
  end.
  cbn [opts set_opts _minFreq _maxFreq set_minFreq set_maxFreq].
  split; [reflexivity |]. split; [reflexivity |].
  split.
  - apply Rmin_glb; assumption.
  - eapply Rle_trans; [apply Rmin_l | apply Rmax_l].
Qed.

Lemma setFreqRange_orders_the_range_witness :
  let a := blank (hostOf 8192 44100) defaults in
  setFreqRange a 16000 30 = setFreqRange a 30 16000
  /\ _minFreq (opts (state_of (setFreqRange a 30 16000))) = Rmin 30 16000.
Proof.
  intros a.
  destruct (setFreqRange_orders_the_range a 30 16000 ltac:(lra) ltac:(lra))
    as (E & Emin & _).
  split; [exact E | exact Emin].
Defined.

(** ** The tempered scale *)

Lemma ROOT24_gt_1 : 1 < ROOT24.
Proof. pose proof ROOT24_bounds. lra. Qed.

Lemma tfreq_lt (j k : nat) : (j < k)%nat -> tfreq j < tfreq k.
Proof.
  intros H. apply Rlt_le_trans with (tfreq (S j)).
  - rewrite tfreq_S. pose proof (tfreq_pos j). pose proof ROOT24_gt_1. nra.
  - apply tfreq_mono. lia.
Qed.

Lemma tfreq_octave (k : nat) : tfreq (k + 24) = 2 * tfreq k.
Proof. rewrite tfreq_add, ROOT24_pow24. ring. Qed.

Lemma _freqToBin_mono (h : Host) (f g : R) (r : Rounding) :
  0 < sampleRate h -> (0 <= fftSize h)%Z -> f <= g ->
  (_freqToBin h f r <= _freqToBin h g r)%Z.
Proof.
  intros Hs Hn Hfg. unfold _freqToBin.
  assert (Hx : f * IZR (fftSize h) / sampleRate h
               <= g * IZR (fftSize h) / sampleRate h).
  { apply IZR_le in Hn. pose proof (Rinv_0_lt_compat _ Hs). unfold Rdiv.
    apply Rmult_le_compat_r; [lra |]. apply Rmult_le_compat_r; lra. }
  assert (Hm : (Math r (f * IZR (fftSize h) / sampleRate h)
                <= Math r (g * IZR (fftSize h) / sampleRate h))%Z).
  { destruct r; unfold Math, JS.round.
    - now apply Zfloor_le.
    - apply Zfloor_le. lra.
    - now apply Zceil_le. }
  destruct (Z.ltb_spec (Math r (f * IZR (fftSize h) / sampleRate h))
                       (frequencyBinCount h - 1)),
           (Z.ltb_spec (Math r (g * IZR (fftSize h) / sampleRate h))
                       (frequencyBinCount h - 1)); lia.
Qed.

Lemma temperedScale_nth (h : Host) (k : nat) :
  (k < 264)%nat -> nth_error (temperedScale h) k = Some (entryAt h k).
Proof.
  intros Hk. pose proof (temperedScale_at h k Hk) as E. unfold at_ in E.
  destruct (Z.ltb_spec (Z.of_nat k) 0); [lia |].
  now rewrite Nat2Z.id in E.
Qed.

Lemma temperedScale_nth_inv (h : Host) (k : nat) (e : TemperedEntry) :
  nth_error (temperedScale h) k = Some e -> (k < 264)%nat /\ e = entryAt h k.
Proof.
  intros E.
  assert (Hk : (k < 264)%nat).
  { rewrite <- (temperedScale_length h). apply nth_error_Some. congruence. }
  split; [exact Hk |]. rewrite (temperedScale_nth h k Hk) in E. congruence.
Qed.

(** X3.  For a positive sample rate and a non-negative fftSize, the
    tempered scale has 264 notes; note k has the frequency C0 * ROOT24^k
    and the bin that [_freqToBin] gives this frequency with the rounding
    'floor'; the frequencies grow strictly and the bins never decrease along
    the scale.  To within one part in 10^12 (the powers of ROOT24 are
    rounded), the note 24 places further has twice the frequency, and note
    114 is at 440 Hz. *)
Theorem tempered_scale_is_a_quarter_tone_ladder (h : Host) :
  0 < sampleRate h -> (0 <= fftSize h)%Z ->
  List.length (temperedScale h) = 264%nat
  /\ (forall k, (k < 264)%nat ->
        exists e, nth_error (temperedScale h) k = Some e
                  /\ freq e = C0 * JS.pow ROOT24 (INR k)
                  /\ bin e = _freqToBin h (freq e) floor)
  /\ (forall j k ej ek, (j < k)%nat ->
        nth_error (temperedScale h) j = Some ej ->
        nth_error (temperedScale h) k = Some ek ->
        freq ej < freq ek /\ (bin ej <= bin ek)%Z)
  /\ (forall k e e',
        nth_error (temperedScale h) k = Some e ->
        nth_error (temperedScale h) (k + 24) = Some e' ->
        Rabs (freq e' - 2 * freq e) <= freq e / 1000000000000)
  /\ (exists a4, nth_error (temperedScale h) 114 = Some a4
                 /\ Rabs (freq a4 - 440) <= 440 / 1000000000000).
Proof.
  intros Hs Hn. split; [apply temperedScale_length |]. split.
  { intros k Hk. exists (entryAt h k). split; [now apply temperedScale_nth |].
    split; [apply entryAt_freq |]. rewrite entryAt_bin, entryAt_freq.
    reflexivity. }
  split.
  { intros j k ej ek Hjk Ej Ek.
    apply temperedScale_nth_inv in Ej, Ek.
    destruct Ej as [_ ->], Ek as [_ ->].
    rewrite !entryAt_freq, !entryAt_bin. split; [now apply tfreq_lt |].
    apply _freqToBin_mono; try assumption. apply tfreq_mono. lia. }
  split.
  { intros k e e' E E'.
    apply temperedScale_nth_inv in E, E'.
    destruct E as [_ ->], E' as [_ ->].
    rewrite !entryAt_freq, tfreq_octave, Rminus_diag, Rabs_R0.
    pose proof (tfreq_pos k). lra. }
  exists (entryAt h 114). split; [apply temperedScale_nth; lia |].
  rewrite entryAt_freq, tfreq_114, Rminus_diag, Rabs_R0. lra.
Qed.

Lemma tempered_scale_is_a_quarter_tone_ladder_witness :
  exists a4, nth_error (temperedScale (hostOf 8192 44100)) 114 = Some a4
             /\ Rabs (freq a4 - 440) <= 440 / 1000000000000.
Proof.
  apply (tempered_scale_is_a_quarter_tone_ladder (hostOf 8192 44100)).
  - simpl. lra.
  - simpl. lia.
Defined.

(** X4.  For a positive sample rate and an even, positive fftSize, every
    note of the scale below the Nyquist frequency lies between the frequency
    of its bin and the frequency of the next bin, and its interpolation
    ratio is at least 0 and below 1. *)
Theorem tempered_ratio_within_bin (h : Host) (k : nat) (e : TemperedEntry) :
  0 < sampleRate h -> (0 < fftSize h)%Z ->
  fftSize h = (2 * frequencyBinCount h)%Z ->
  nth_error (temperedScale h) k = Some e ->
  freq e < sampleRate h / 2 ->
  binToFreq h (bin e) <= freq e < binToFreq h (bin e + 1)
  /\ 0 <= ratio e < 1.
Proof.
  intros Hs Hn Heven E Hny.
  apply temperedScale_nth_inv in E. destruct E as [Hk ->].
  rewrite entryAt_ratio, entryAt_bin, entryAt_freq in *.
  set (f := tfreq k) in *.
  assert (Hf : 16 < f).
  { pose proof tfreq_0. pose proof (tfreq_mono 0 k ltac:(lia)). unfold f. lra. }
  assert (HN : 0 < IZR (fftSize h)) by (apply IZR_lt; lia).
  pose proof (Rinv_0_lt_compat _ Hs) as Hsi.
  pose proof (Rinv_0_lt_compat _ HN) as HNi.
  set (x := f * IZR (fftSize h) / sampleRate h).
  assert (Hx0 : 0 <= x).
  { unfold x, Rdiv. apply Rmult_le_pos; [nra | lra]. }
  assert (Hx1 : x < IZR (frequencyBinCount h)).
  { assert (IZR (fftSize h) = 2 * IZR (frequencyBinCount h))
      by (rewrite Heven, mult_IZR; reflexivity).
    unfold x. apply (Rmult_lt_reg_r (sampleRate h)); [exact Hs |].
    replace (f * IZR (fftSize h) / sampleRate h * sampleRate h)
      with (f * IZR (fftSize h)) by (field; lra).
    nra. }
  assert (Hb : _freqToBin h f floor = Zfloor x).
  { unfold _freqToBin, Math. fold x.
    destruct (Z.ltb_spec (Zfloor x) (frequencyBinCount h - 1));
      [reflexivity |].
    pose proof (Zfloor_bound x) as [Hlo _].
    assert (Zfloor x < frequencyBinCount h)%Z.
    { apply lt_IZR. lra. }
    lia. }
  rewrite Hb. set (b := Zfloor x).
  pose proof (Zfloor_bound x) as [Hlo Hhi]. fold b in Hlo, Hhi.
  assert (Hb0 : (0 <= b)%Z) by (apply Zfloor_lub; exact Hx0).
  assert (Hfx : f = x * sampleRate h / IZR (fftSize h))
    by (unfold x; field; lra).
  assert (Hnext : binToFreq h (b + 1)
                  = IZR (b + 1) * sampleRate h / IZR (fftSize h))
    by (apply binToFreq_pos; [assumption | assumption | lia]).
  assert (Hup : f < binToFreq h (b + 1)).
  { rewrite Hnext, Hfx, plus_IZR. unfold Rdiv.
    apply Rmult_lt_compat_r; [exact HNi |].
    apply Rmult_lt_compat_r; [exact Hs | exact Hhi]. }
  assert (Hdown : binToFreq h b <= f).
  { destruct (Z.eq_dec b 0) as [-> | Hne].
    - rewrite binToFreq_0. lra.
    - rewrite binToFreq_pos by (try assumption; lia).
      rewrite Hfx. unfold Rdiv.
      apply Rmult_le_compat_r; [lra |].
      apply Rmult_le_compat_r; lra. }
  split; [split; assumption |].
  set (lo := binToFreq h b) in *. set (hi := binToFreq h (b + 1)) in *.
  assert (Hw : 0 < hi - lo) by lra.
  pose proof (Rinv_0_lt_compat _ Hw) as Hwi.
  split.
  - unfold Rdiv. apply Rmult_le_pos; lra.
  - apply (Rmult_lt_reg_r (hi - lo)); [exact Hw |].
    replace ((f - lo) / (hi - lo) * (hi - lo)) with (f - lo)
      by (field; lra).
    lra.
Qed.

Lemma tempered_ratio_within_bin_witness :
  let h := hostOf 8192 44100 in
  0 <= ratio (entryAt h 114) < 1.
Proof.
  intros h.
  apply (tempered_ratio_within_bin h 114 (entryAt h 114)).
  - simpl. lra.
  - simpl. lia.
  - reflexivity.
  - apply temperedScale_nth. lia.
  - rewrite entryAt_freq, tfreq_114. simpl. lra.
Defined.

(** ** Where the bars are placed *)

Lemma mapi_from_nth {A B} (f : nat -> A -> B) (l : list A) :
  forall s i, nth_error (mapi_from f s l) i
              = option_map (f (s + i)%nat) (nth_error l i).
Proof.
  induction l as [| x l IH]; intros s i.
  - now destruct i.
  - destruct i as [| i]; cbn [mapi_from nth_error option_map].
    + now rewrite Nat.add_0_r.
    + rewrite IH. now replace (S s + i)%nat with (s + S i)%nat by lia.
Qed.

Lemma mapi_from_length {A B} (f : nat -> A -> B) (l : list A) :
  forall s, List.length (mapi_from f s l) = List.length l.
Proof.
  induction l as [| x l IH]; intros s; cbn [mapi_from List.length];
    [reflexivity | now rewrite IH].
Qed.

Lemma placeBars_nth (initialX : Z) (barWidth : R) (bars : list Bar.t)
                    (i : nat) (b' : Bar.t) :
  nth_error (placeBars initialX barWidth bars) i = Some b' ->
  exists b, nth_error bars i = Some b
            /\ b' = Bar.set_posX b (IZR initialX + INR i * barWidth).
Proof.
  unfold placeBars. rewrite mapi_from_nth. cbn [Nat.add].
  destruct (nth_error bars i) as [b |]; [| discriminate].
  cbn [option_map]. intros E. injection E as <-. now exists b.
Qed.

(** What a successful rebuild in octave mode has gone through. *)
Lemma _calcBars_octave (a a' : Analyzer) :
  _ready (host a) = true -> _isOctaveBands (aux a) = true ->
  _calcBars a = Ok a' ->
  exists steps bars,
    at_ stepsTable (_mode (opts a)) = Some steps
    /\ octaveBars (host a) (_minFreq (opts a)) (_maxFreq (opts a)) steps
       = inl bars
    /\ bars <> []
    /\ _bars a'
       = placeBars (_initialX (aux a))
                   (IZR (_analyzerWidth (aux a)) / INR (List.length bars)) bars
    /\ _barWidth a' = IZR (_analyzerWidth (aux a)) / INR (List.length bars).
Proof.
  intros Hr Hx E. unfold _calcBars in E.
  change (host (set_bars a [])) with (host a) in E.
  change (opts (set_bars a [])) with (opts a) in E.
  change (aux (set_bars a [])) with (aux a) in E.
  rewrite Hr, Hx in E. cbn [negb] in E.
  destruct (at_ stepsTable (_mode (opts a))) as [steps |] eqn:Es;
    [| discriminate].
  destruct (octaveBars (host a) (_minFreq (opts a)) (_maxFreq (opts a)) steps)
    as [bars | bars] eqn:Eo; [| discriminate].
  exists steps, bars. split; [reflexivity |]. split; [exact Eo |].
  set (w := IZR (_analyzerWidth (aux a)) / INR (List.length bars)) in *.
  destruct (placeBars (_initialX (aux a)) w bars) as [| first placed] eqn:Ep;
    [discriminate |].
  split.
  { intros ->. discriminate. }
  match type of E with
  | _calcLeds (_calcAux ?x) = _ =>
      destruct (_calcLeds_opts (_calcAux x)) as (_ & Hb & _);
      destruct (_calcLeds_host (_calcAux x)) as (_ & Hw & _)
  end.
  rewrite E in Hb, Hw. cbn [state_of] in Hb, Hw.
  split; [exact Hb | exact Hw].
Qed.

(** In the modes 1 to 8 the rebuild succeeds as soon as the band loop
    leaves one bar. *)
Lemma _calcBars_octave_ok (a : Analyzer) (steps : Z) (b : Bar.t)
                          (bars : list Bar.t) :
  _ready (host a) = true -> _isOctaveBands (aux a) = true ->
  (1 <= _mode (opts a) <= 8)%Z ->
  at_ stepsTable (_mode (opts a)) = Some steps ->
  octaveBars (host a) (_minFreq (opts a)) (_maxFreq (opts a)) steps
  = inl (b :: bars) ->
  exists a', _calcBars a = Ok a'.
Proof.
  intros Hr Hx Hm Es Eo. unfold _calcBars.
  change (host (set_bars a [])) with (host a).
  change (opts (set_bars a [])) with (opts a).
  change (aux (set_bars a [])) with (aux a).
  rewrite Hr, Hx, Es, Eo. cbn [negb placeBars mapi_from].
  unfold _calcLeds.
  match goal with
  | |- context [_isOctaveBands (aux (_calcAux ?x))] =>
      destruct (_calcAux_fields x) as (Ho & Hh & _ & ->);
      rewrite Ho, Hh
  end.
  cbn [opts host set_scale set_barWidth set_bars]. rewrite Hr.
  assert (C : (_mode (opts a) = 1 \/ _mode (opts a) = 2 \/ _mode (opts a) = 3
               \/ _mode (opts a) = 4 \/ _mode (opts a) = 5
               \/ _mode (opts a) = 6 \/ _mode (opts a) = 7
               \/ _mode (opts a) = 8)%Z) by lia.
  destruct (_ledParams (opts a));
    repeat (destruct C as [-> | C]); try rewrite C; cbn; eexists; reflexivity.
Qed.

(** X5.  When a rebuild in octave mode succeeds on a ready analyzer whose
    analyzer area is at least one pixel wide (width and [initialX] below
    2^31), there is at least one bar, the bar width is the analyzer width
    divided by the number of bars, and bar number i is at
    [initialX + i * barWidth]: the bars start inside the analyzer area, from
    left to right. *)
Theorem octave_bars_evenly_spaced (a a' : Analyzer) :
  _ready (host a) = true -> _isOctaveBands (aux a) = true ->
  (0 < _analyzerWidth (aux a) < 2147483648)%Z ->
  (0 <= _initialX (aux a) < 2147483648)%Z ->
  _calcBars a = Ok a' ->
  let n := List.length (_bars a') in
  let W := IZR (_analyzerWidth (aux a)) in
  let x0 := IZR (_initialX (aux a)) in
  (1 <= n)%nat
  /\ _barWidth a' = W / INR n
  /\ (forall i b, nth_error (_bars a') i = Some b ->
        Bar.posX b = x0 + INR i * _barWidth a'
        /\ x0 <= Bar.posX b < x0 + W)
  /\ (forall i j bi bj,
        nth_error (_bars a') i = Some bi -> nth_error (_bars a') j = Some bj ->
        (i < j)%nat -> Bar.posX bi < Bar.posX bj).
Proof.
  intros Hr Hx HW _ E.
  destruct (_calcBars_octave a a' Hr Hx E)
    as (steps & bars & _ & _ & Hne & Eb & Ew).
  cbv zeta. rewrite Ew, Eb.
  assert (El : forall w, List.length (placeBars (_initialX (aux a)) w bars)
                         = List.length bars)
    by (intros w; unfold placeBars; apply mapi_from_length).
  rewrite !El.
  assert (Hn : (1 <= List.length bars)%nat).
  { destruct bars; [contradiction | cbn [List.length]; lia]. }
  assert (Hn0 : 0 < INR (List.length bars)) by (apply lt_0_INR; lia).
  assert (HW0 : 0 < IZR (_analyzerWidth (aux a))) by (apply IZR_lt; lia).
  set (W := IZR (_analyzerWidth (aux a))) in *.
  set (n := INR (List.length bars)) in *.
  assert (Hw : 0 < W / n).
  { unfold Rdiv. apply Rmult_lt_0_compat; [exact HW0 |].
    now apply Rinv_0_lt_compat. }
  assert (Hpos : forall i b,
            nth_error (placeBars (_initialX (aux a)) (W / n) bars) i = Some b ->
            Bar.posX b = IZR (_initialX (aux a)) + INR i * (W / n)
            /\ INR i < n).
  { intros i b Ei.
    assert (Hi : (i < List.length bars)%nat).
    { rewrite <- (mapi_from_length
                    (fun index bar =>
                       Bar.set_posX bar (IZR (_initialX (aux a))
                                         + INR index * (W / n))) bars 0).
      apply nth_error_Some. unfold placeBars in Ei. congruence. }
    apply placeBars_nth in Ei. destruct Ei as (b0 & _ & ->).
    split; [reflexivity |]. unfold n. now apply lt_INR. }
  split; [exact Hn |]. split; [reflexivity |]. split.
  - intros i b Ei. destruct (Hpos i b Ei) as [-> Hi].
    split; [reflexivity |].
    pose proof (pos_INR i).
    assert (INR i * (W / n) < n * (W / n))
      by (apply Rmult_lt_compat_r; assumption).
    replace (n * (W / n)) with W in * by (field; lra).
    nra.
  - intros i j bi bj Ei Ej Hij.
    destruct (Hpos i bi Ei) as [-> _]. destruct (Hpos j bj Ej) as [-> _].
    apply lt_INR in Hij. nra.
Qed.

Lemma octave_bars_evenly_spaced_witness :
  let a := _calcAux (blank (hostOf 8192 44100)
                       (mkOptions 1 425 445 0 false false false false 0 None)) in
  exists a', _calcBars a = Ok a'
             /\ _barWidth a'
                = IZR (_analyzerWidth (aux a)) / INR (List.length (_bars a')).
Proof.
  intros a.
  destruct octaveBars_around_A4 as (prev & cur & Eo & _).
  destruct (_calcBars_octave_ok a 1 prev [cur]) as (a' & E);
    try reflexivity; try exact Eo.
  { cbn. lia. }
  exists a'. split; [exact E |].
  apply (octave_bars_evenly_spaced a a' eq_refl eq_refl); try exact E.
  - cbn. lia.
  - cbn. lia.
Defined.

(** ** The bins of the bars *)

Section BinBounds.
Variable h : Host.
Hypothesis sampleRate_pos : 0 < sampleRate h.
Hypothesis fftSize_range : (2 <= fftSize h < 2147483648)%Z.

Lemma at_scale (index : Z) (e : TemperedEntry) :
  at_ (temperedScale h) index = Some e ->
  exists k, (k < 264)%nat /\ index = Z.of_nat k /\ e = entryAt h k.
Proof.
  unfold at_. destruct (Z.ltb_spec index 0); [discriminate |].
  intros E. apply temperedScale_nth_inv in E. destruct E as [Hk ->].
  exists (Z.to_nat index). split; [exact Hk |]. split; [lia | reflexivity].
Qed.

Lemma fbc_range : (1 <= frequencyBinCount h <= fftSize h)%Z.
Proof.
  unfold frequencyBinCount. split.
  - apply Z.div_le_lower_bound; lia.
  - apply Z.div_le_upper_bound; lia.
Qed.

Lemma entry_bins (j k : nat) :
  (j <= k)%nat ->
  (0 <= bin (entryAt h j) <= bin (entryAt h k))%Z
  /\ (bin (entryAt h k) <= frequencyBinCount h - 1)%Z.
Proof.
  intros Hjk. rewrite !entryAt_bin. split; [split |].
  - pose proof (tfreq_pos j). pose proof fbc_range.
    unfold _freqToBin.
    destruct (Z.ltb_spec (Math floor (tfreq j * IZR (fftSize h) / sampleRate h))
                         (frequencyBinCount h - 1)); [| lia].
    unfold Math. apply Zfloor_lub. simpl.
    assert (0 < IZR (fftSize h)) by (apply IZR_lt; lia).
    apply Rmult_le_pos; [nra |]. left. now apply Rinv_0_lt_compat.
  - apply _freqToBin_mono; [assumption | lia | now apply tfreq_mono].
  - apply _freqToBin_le_max.
Qed.

Lemma emit_within (lo hi : TemperedEntry) (rbars : list Bar.t) :
  (0 <= bin lo <= bin hi)%Z -> (bin hi <= frequencyBinCount h - 1)%Z ->
  Forall (binsWithin (frequencyBinCount h - 1)) rbars ->
  Forall (binsWithin (frequencyBinCount h - 1)) (emit h lo hi rbars).
Proof.
  intros Hlo Hhi Hf. pose proof fbc_range as Hc.
  destruct rbars as [| prevBar rest].
  - unfold emit. repeat constructor; cbn [Bar.binLo Bar.binHi barsPush]; lia.
  - inversion Hf as [| ? ? [Hp1 Hp2] Hf']; subst.
    destruct (Z.ltb_spec 1 (bin lo - Bar.binHi prevBar)) as [Hgap | Hnear].
    + destruct (emit_redistributes h lo hi prevBar rest ltac:(lia))
        as (prev' & cur & -> & E0 & E1 & _ & _ & E2 & E3 & E4 & _).
      assert (1 <= (bin lo - Bar.binHi prevBar) / 2)%Z
        by (apply Z.div_le_lower_bound; lia).
      assert ((bin lo - Bar.binHi prevBar) / 2
              <= bin lo - Bar.binHi prevBar)%Z
        by (apply Z.div_le_upper_bound; lia).
      constructor; [| constructor; [| assumption]]; unfold binsWithin; lia.
    + unfold emit.
      destruct (Z.ltb_spec 1 (bin lo - Bar.binHi prevBar)); [lia |].
      match goal with
      | |- context [if ?c then (0, ?x) else ?y] => destruct c
      end; (constructor; [| assumption]); unfold binsWithin;
        cbn [Bar.binLo Bar.binHi barsPush]; lia.
Qed.

Lemma bands_within (minFreq maxFreq : R) (steps : Z) (fuel : nat) :
  (1 <= steps)%Z ->
  forall (index : Z) (rbars out : list Bar.t),
    Forall (binsWithin (frequencyBinCount h - 1)) rbars ->
    bands h minFreq maxFreq fuel steps index rbars = inl out ->
    binsWithinButLast (frequencyBinCount h - 1) out.
Proof.
  intros Hsteps.
  assert (Hweak : forall l, Forall (binsWithin (frequencyBinCount h - 1)) l ->
                            binsWithinButLast (frequencyBinCount h - 1) l).
  { intros [| b l] Hl; [exact I |]. inversion Hl as [| ? ? [H1 H2] Hl']; subst.
    split; [| exact Hl']. unfold binsWithin. lia. }
  induction fuel as [| fuel IH]; intros index rbars out Hf E;
    cbn [bands] in E.
  - injection E as <-. now apply Hweak.
  - destruct (index <? Z.of_nat (List.length (temperedScale h)))%Z;
      [| injection E as <-; now apply Hweak].
    unfold band in E.
    destruct (at_ (temperedScale h) index) as [lo |] eqn:Elo;
      [| discriminate].
    destruct (at_ (temperedScale h) (index + steps - 1)) as [hi |] eqn:Ehi;
      [| discriminate].
    apply at_scale in Elo, Ehi.
    destruct Elo as (j & Hj & -> & ->), Ehi as (k & Hk & Ek & ->).
    destruct (entry_bins j k ltac:(lia)) as [Hb1 Hb2].
    destruct (Rltb maxFreq (freq (entryAt h k))
              || Rleb (IZR (fftSize h) / 2) (IZR (bin (entryAt h k)))).
    + destruct rbars as [| prevBar rest]; [discriminate |].
      injection E as <-.
      inversion Hf as [| ? ? [H1 H2] Hf']; subst.
      split; [| exact Hf']. unfold binsWithin, closeLast.
      cbn [Bar.binLo Bar.binHi Bar.set_binHi Bar.set_ratioHi Bar.set_freqHi].
      lia.
    + destruct (Rleb minFreq (freq (entryAt h j))).
      * apply (IH _ _ _ (emit_within _ _ rbars Hb1 Hb2 Hf) E).
      * apply (IH _ _ _ Hf E).
Qed.

Lemma octaveBars_within (minFreq maxFreq : R) (steps : Z)
                        (bars : list Bar.t) :
  octaveBars h minFreq maxFreq steps = inl bars ->
  Forall (binsWithin (frequencyBinCount h)) bars
  /\ (forall i b, nth_error bars i = Some b ->
        (S i < List.length bars)%nat ->
        binsWithin (frequencyBinCount h - 1) b).
Proof.
  unfold octaveBars. rewrite temperedScale_length. intros E.
  destruct (bands h minFreq maxFreq 264 steps 0 []) as [rbars | rbars] eqn:Eb;
    [| discriminate].
  injection E as <-.
  destruct (Z.le_gt_cases steps 0) as [Hs | Hs].
  { change 264%nat with (S 263) in Eb.
    rewrite (bands_nonpositive_steps h minFreq maxFreq steps 263 Hs) in Eb.
    discriminate. }
  pose proof (bands_within minFreq maxFreq steps 264 ltac:(lia) 0 [] rbars
                           ltac:(constructor) Eb) as Hw.
  destruct rbars as [| newest rest]; cbn [rev].
  { split; [constructor |]. intros [| i] b Eb'; discriminate. }
  destruct Hw as [[Hn1 Hn2] Hrest].
  replace (frequencyBinCount h - 1 + 1)%Z with (frequencyBinCount h) in Hn2
    by lia.
  split.
  - apply Forall_app. split.
    + apply Forall_rev. revert Hrest. apply Forall_impl.
      intros b [H1 H2]. split; [exact H1 | lia].
    + constructor; [split; assumption | constructor].
  - intros i b Eb' Hi. rewrite length_app, length_rev in Hi.
    cbn [List.length] in Hi.
    rewrite nth_error_app1 in Eb' by (rewrite length_rev; lia).
    apply nth_error_In, in_rev in Eb'.
    rewrite Forall_forall in Hrest. now apply Hrest.
Qed.
End BinBounds.

(** X6.  In octave mode, for a positive sample rate and an fftSize from
    2 to below 2^31: when the band loop ends without throwing, every bar has
    0 <= binLo <= binHi <= frequencyBinCount, and every bar but the last has
    binHi <= frequencyBinCount - 1.  Only the last bar, after the range
    cutoff, can reach frequencyBinCount. *)
Theorem octave_bars_stay_within_the_bins
        (h : Host) (minFreq maxFreq : R) (steps : Z) (bars : list Bar.t) :
  0 < sampleRate h -> (2 <= fftSize h < 2147483648)%Z ->
  octaveBars h minFreq maxFreq steps = inl bars ->
  Forall (fun b => (0 <= Bar.binLo b <= Bar.binHi b)%Z
                   /\ (Bar.binHi b <= frequencyBinCount h)%Z) bars
  /\ (forall i b, nth_error bars i = Some b ->
        (S i < List.length bars)%nat ->
        (Bar.binHi b <= frequencyBinCount h - 1)%Z).
Proof.
  intros Hs Hn E.
  destruct (octaveBars_within h Hs Hn minFreq maxFreq steps bars E)
    as [Hall Hinit].
  split; [exact Hall |].
  intros i b Eb Hi. now destruct (Hinit i b Eb Hi).
Qed.

Lemma octave_bars_stay_within_the_bins_witness :
  exists bars,
    octaveBars (hostOf 8192 44100) 425 445 1 = inl bars
    /\ Forall (fun b => (0 <= Bar.binLo b <= Bar.binHi b)%Z
                        /\ (Bar.binHi b <= 4096)%Z) bars.
Proof.
  destruct octaveBars_around_A4 as (prev & cur & Eo & _).
  exists [prev; cur]. split; [exact Eo |].
  apply (octave_bars_stay_within_the_bins (hostOf 8192 44100) 425 445 1
           [prev; cur]).
  - simpl. lra.
  - simpl. lia.
  - exact Eo.
Defined.

(** ** The bins of the discrete bars *)

Lemma discreteLoop_Partition (h : Host) (pos : Z -> Z) (i0 : Z) (n : nat) :
  forall (i lastPos : Z) (rbars : list Bar.t),
    (i0 <= i)%Z -> Partition h i0 i rbars ->
    Partition h i0 (i + Z.of_nat n) (discreteLoop h pos n i lastPos rbars).
Proof.
  induction n as [| n IH]; intros i lastPos rbars Hi HP.
  - cbn [discreteLoop]. now replace (i + Z.of_nat 0)%Z with i by lia.
  - replace (i + Z.of_nat (S n))%Z with (i + 1 + Z.of_nat n)%Z by lia.
    destruct HP as (Hall & Hsorted & Hnewest).
    assert (Hweak : forall l, Forall (wholeBins h i0 i) l ->
                              Forall (wholeBins h i0 (i + 1)) l).
    { intros l. apply Forall_impl. intros b (H1 & H2 & H3).
      split; [exact H1 |]. split; [lia | exact H3]. }
    cbn [discreteLoop]. destruct (lastPos <? pos i)%Z.
    + apply IH; [lia |]. split; [| split].
      * constructor; [| now apply Hweak].
        unfold wholeBins, barsPush. cbn. repeat split; lia.
      * constructor; [exact Hsorted |].
        destruct rbars as [| newest rest]; constructor.
        cbn [Bar.binLo barsPush]. lia.
      * cbn [Bar.binHi barsPush]. lia.
    + destruct rbars as [| newest rest].
      * apply IH; [lia |]. split; [constructor |]. split; [constructor | exact I].
      * apply IH; [lia |].
        inversion Hall as [| ? ? (H1 & H2 & H3 & H4 & H5 & H6) Hrest]; subst.
        inversion Hsorted as [| ? ? Hs' Hrel]; subst.
        split; [| split].
        -- constructor; [| now apply Hweak].
           unfold wholeBins.
           cbn [Bar.binLo Bar.binHi Bar.freqLo Bar.freqHi Bar.ratioLo
                Bar.ratioHi Bar.set_binHi Bar.set_freqHi].
           repeat split; try assumption; lia.
        -- constructor; [exact Hs' |].
           destruct rest as [| older tail]; constructor.
           inversion Hrel; subst.
           cbn [Bar.binLo Bar.set_binHi Bar.set_freqHi]. assumption.
        -- cbn [Bar.binHi Bar.set_binHi Bar.set_freqHi]. lia.
Qed.

(** X7.  In discrete mode the bars share out a run of whole bins.  With
    minBin the bin of minFreq (rounding 'floor') and maxBin the bin of
    maxFreq (rounding 'round'), maxBin is at most frequencyBinCount - 1;
    every bar has minBin <= binLo <= binHi <= maxBin, the frequencies of
    these two bins as freqLo and freqHi, and both ratios 0; every bar starts
    at the bin that follows the last bin of the bar before it; and the last
    bar ends at maxBin. *)
Theorem discrete_bars_partition_their_bins
        (h : Host) (minFreq maxFreq : R) (analyzerWidth initialX : Z) :
  let bars := discreteBars h minFreq maxFreq analyzerWidth initialX in
  let minBin := _freqToBin h minFreq floor in
  let maxBin := _freqToBin h maxFreq round in
  (maxBin <= frequencyBinCount h - 1)%Z
  /\ Forall (fun b =>
               (minBin <= Bar.binLo b <= Bar.binHi b)%Z
               /\ (Bar.binHi b <= maxBin)%Z
               /\ Bar.freqLo b = binToFreq h (Bar.binLo b)
               /\ Bar.freqHi b = binToFreq h (Bar.binHi b)
               /\ Bar.ratioLo b = 0 /\ Bar.ratioHi b = 0) bars
  /\ (forall i prev next,
        nth_error bars i = Some prev -> nth_error bars (S i) = Some next ->
        Bar.binLo next = (Bar.binHi prev + 1)%Z)
  /\ (forall b, hd_error (rev bars) = Some b -> Bar.binHi b = maxBin).
Proof.
  intros bars minBin maxBin. split; [apply _freqToBin_le_max |].
  unfold bars, discreteBars. fold minBin maxBin.
  set (pos := discretePos h initialX _ _).
  set (n := Z.to_nat (maxBin - minBin + 1)).
  pose proof (discreteLoop_Partition h pos minBin n minBin (-999) []
                ltac:(lia) ltac:(repeat split; constructor))
    as (Hall & Hsorted & Hnewest).
  set (rbars := discreteLoop h pos n minBin (-999) []) in *.
  split; [| split].
  - apply Forall_rev. revert Hall. apply Forall_impl.
    intros b (H1 & H2 & H3). split; [exact H1 |].
    split; [unfold n in H2; lia | exact H3].
  - apply Sorted_rev in Hsorted. apply (Sorted_consecutive _ _ Hsorted).
  - rewrite rev_involutive. intros b Eb.
    destruct rbars as [| newest rest]; [discriminate |].
    injection Eb as <-.
    inversion Hall as [| ? ? (H1 & H2 & _) _]; subst.
    unfold n in *. lia.
Qed.

(** ** The value of a bar *)

Section ByteData.
Variable fftData : list Z.
Hypothesis bytes : Forall (fun v => (0 <= v <= 255)%Z) fftData.

Lemma fft_byte (j : Z) :
  (0 <= j < Z.of_nat (List.length fftData))%Z ->
  exists v, fft fftData j = JS.Fin v /\ 0 <= v <= 255.
Proof.
  intros Hj. unfold fft, at_. destruct (Z.ltb_spec j 0); [lia |].
  destruct (nth_error fftData (Z.to_nat j)) as [v |] eqn:E.
  - exists (IZR v). split; [reflexivity |].
    apply nth_error_In in E. rewrite Forall_forall in bytes.
    destruct (bytes v E) as [H0 H1]. apply IZR_le in H0, H1. lra.
  - apply nth_error_None in E. lia.
Qed.

Lemma interpolate_byte (j : Z) (r : R) :
  (0 <= j)%Z -> (j + 1 < Z.of_nat (List.length fftData))%Z -> 0 <= r <= 1 ->
  exists v, interpolate fftData j r = JS.Fin v /\ 0 <= v <= 255.
Proof.
  intros H0 H1 Hr. unfold interpolate.
  destruct (fft_byte j ltac:(lia)) as (lo & -> & Hlo).
  destruct (fft_byte (j + 1) ltac:(lia)) as (hi & -> & Hhi).
  eexists. split; [reflexivity |]. nra.
Qed.

Lemma highest_byte (n : nat) :
  forall (j : Z) (b : R),
    (0 <= j)%Z -> (j + Z.of_nat n <= Z.of_nat (List.length fftData))%Z ->
    0 <= b <= 255 ->
    exists v, highest fftData n j (JS.Fin b) = JS.Fin v
              /\ b <= v <= 255.
Proof.
  induction n as [| n IH]; intros j b H0 H1 Hb; cbn [highest].
  - exists b. split; [reflexivity | lra].
  - destruct (fft_byte j ltac:(lia)) as (x & -> & Hx).
    destruct (Rltb b x) eqn:E.
    + apply Rltb_true in E.
      destruct (IH (j + 1)%Z x ltac:(lia) ltac:(lia) Hx) as (v & -> & Hv).
      exists v. split; [reflexivity | lra].
    + apply (IH (j + 1)%Z b); [lia | lia | exact Hb].
Qed.
End ByteData.

(** X8.  On byte data, a bar whose ratios are within 0..1 and whose
    bins, with the bin after each, are inside the FFT array, has a value
    within 0..1. *)
Theorem bar_value_between_0_and_1 (fftData : list Z) (bar : Bar.t) :
  Forall (fun v => (0 <= v <= 255)%Z) fftData ->
  (0 <= Bar.binLo bar <= Bar.binHi bar)%Z ->
  (Bar.binHi bar + 1 < Z.of_nat (List.length fftData))%Z ->
  0 <= Bar.ratioLo bar <= 1 -> 0 <= Bar.ratioHi bar <= 1 ->
  exists v, barValue fftData bar = JS.Fin v /\ 0 <= v <= 1.
Proof.
  intros Hb Hbins Hlen Hlo Hhi. unfold barValue.
  destruct (interpolate_byte fftData Hb (Bar.binLo bar) (Bar.ratioLo bar)
              ltac:(lia) ltac:(lia) Hlo) as (x & -> & Hx).
  destruct (interpolate_byte fftData Hb (Bar.binHi bar) (Bar.ratioHi bar)
              ltac:(lia) ltac:(lia) Hhi) as (y & -> & Hy).
  cbn [JS.max].
  assert (Hm : 0 <= Rmax x y <= 255).
  { split; [apply Rle_trans with x; [lra | apply Rmax_l] |].
    apply Rmax_lub; lra. }
  destruct (highest_byte fftData Hb
              (Z.to_nat (Bar.binHi bar - (Bar.binLo bar + 1)))
              (Bar.binLo bar + 1) (Rmax x y) ltac:(lia) ltac:(lia) Hm)
    as (v & -> & Hv).
  exists (v / 255). split; [reflexivity | lra].
Qed.

Lemma bar_value_between_0_and_1_witness :
  exists v, barValue [0; 255; 17; 3]%Z (barsPush 0 1 2 1 1 (1 / 2) 0)
            = JS.Fin v
            /\ 0 <= v <= 1.
Proof.
  apply (bar_value_between_0_and_1 [0; 255; 17; 3]%Z
           (barsPush 0 1 2 1 1 (1 / 2) 0)).
  - repeat constructor; cbn; lia.
  - cbn. lia.
  - cbn. lia.
  - cbn. lra.
  - cbn. lra.
Defined.

Lemma fft_beyond (fftData : list Z) (j : Z) :
  (j < 0 \/ Z.of_nat (List.length fftData) <= j)%Z ->
  fft fftData j = JS.NaN.
Proof.
  intros Hj. unfold fft, at_. destruct (Z.ltb_spec j 0); [reflexivity |].
  destruct (nth_error fftData (Z.to_nat j)) eqn:E; [| reflexivity].
  assert (Z.to_nat j < List.length fftData)%nat
    by (apply nth_error_Some; congruence).
  lia.
Qed.

Lemma highest_NaN (fftData : list Z) (n : nat) :
  forall j, highest fftData n j JS.NaN = JS.NaN.
Proof.
  induction n as [| n IH]; intros j; cbn [highest]; [reflexivity |].
  destruct (fft fftData j); apply IH.
Qed.

(** X9.  A bar whose binHi is the last index of the FFT array, or
    beyond it, has the value NaN: the interpolation reads the array one
    place after binHi.  On a channel where the peak of the bar is 0, the
    frame stores NaN as the value and leaves the peak and the hold counters
    as they were. *)
Theorem bar_on_the_last_bin_is_blank
        (fftData : list Z) (c : nat) (mbh : R) (bar : Bar.t) :
  (Z.of_nat (List.length fftData) <= Bar.binHi bar + 1)%Z ->
  barValue fftData bar = JS.NaN
  /\ (nth_error (Bar.peak bar) c = Some 0 ->
      exists bar',
        drawBar fftData c mbh bar = Some bar'
        /\ nth_error (Bar.value bar') c = Some JS.NaN
        /\ Bar.peak bar' = Bar.peak bar
        /\ Bar.hold bar' = Bar.hold bar).
Proof.
  intros Hlen.
  assert (Hv : barValue fftData bar = JS.NaN).
  { unfold barValue.
    assert (Hi : interpolate fftData (Bar.binHi bar) (Bar.ratioHi bar)
                 = JS.NaN).
    { unfold interpolate.
      rewrite (fft_beyond fftData (Bar.binHi bar + 1)) by lia.
      now destruct (fft fftData (Bar.binHi bar)). }
    rewrite Hi.
    replace (JS.max (interpolate fftData (Bar.binLo bar) (Bar.ratioLo bar))
                    JS.NaN) with JS.NaN
      by now destruct (interpolate fftData (Bar.binLo bar) (Bar.ratioLo bar)).
    now rewrite highest_NaN. }
  split; [exact Hv |].
  intros Ep. unfold drawBar. rewrite Hv. unfold dropPeak.
  cbn [Bar.peak Bar.set_value]. rewrite Ep.
  assert (E0 : Rltb 0 0 = false) by (apply Rltb_false; lra).
  rewrite E0. cbn [option_map]. unfold newPeak.
  cbn [Bar.peak Bar.set_value]. rewrite Ep.
  eexists. split; [reflexivity |].
  cbn [Bar.value Bar.peak Bar.hold Bar.set_value].
  split; [apply nth_error_aset |]. split; reflexivity.
Qed.

Lemma bar_on_the_last_bin_is_blank_witness :
  barValue [200; 200; 200; 200]%Z (barsPush 0 3 3 1 1 0 0) = JS.NaN.
Proof.
  apply (bar_on_the_last_bin_is_blank [200; 200; 200; 200]%Z 0 100
           (barsPush 0 3 3 1 1 0 0)).
  cbn. lia.
Defined.

(** ** The peak of a bar *)

Lemma peakHold_envelope (mbh v p : R) (hd : Z) :
  0 < mbh ->
  let s := peakHold mbh v (p, hd) in
  v <= fst s <= Rmax p v /\ (snd s <= Z.max 30 hd)%Z.
Proof.
  intros Hm. unfold peakHold.
  pose proof (Rmax_l p v). pose proof (Rmax_r p v).
  destruct (Rltb 0 p) eqn:Ep.
  - apply Rltb_true in Ep.
    destruct (Z.ltb_spec (hd - 1) 0) as [Hneg | Hpos].
    + pose proof (Zltb_IZR_neg (hd - 1) mbh Hm Hneg).
      destruct (Rleb (p + IZR (hd - 1) / mbh) v) eqn:E; cbn [fst snd];
        [apply Rleb_true in E | apply Rleb_false in E];
        (split; [lra | lia]).
    + destruct (Rleb p v) eqn:E; cbn [fst snd];
        [apply Rleb_true in E | apply Rleb_false in E];
        (split; [lra | lia]).
  - destruct (Rleb p v) eqn:E; cbn [fst snd];
      [apply Rleb_true in E | apply Rleb_false in E];
      (split; [lra | lia]).
Qed.

(** X10.  For a positive maximum bar height, after a frame the peak of
    a bar on the channel is at least the value of the bar and at most the
    larger of the value and the peak before the frame; the hold counter is at
    most 30, or at most what it was. *)
Theorem peak_never_below_the_value
        (fftData : list Z) (c : nat) (mbh : R) (bar : Bar.t)
        (p : R) (hd : Z) (v : R) :
  0 < mbh ->
  nth_error (Bar.peak bar) c = Some p ->
  nth_error (Bar.hold bar) c = Some hd ->
  barValue fftData bar = JS.Fin v ->
  exists bar' p' hd',
    drawBar fftData c mbh bar = Some bar'
    /\ nth_error (Bar.peak bar') c = Some p'
    /\ nth_error (Bar.hold bar') c = Some hd'
    /\ v <= p' <= Rmax p v
    /\ (hd' <= Z.max 30 hd)%Z.
Proof.
  intros Hm Ep Eh Ev.
  destruct (drawBar_peakHold fftData c mbh bar p hd v Ep Eh Ev)
    as (bar' & E & Ep' & Eh' & _).
  destruct (peakHold_envelope mbh v p hd Hm) as (H1 & H2).
  exists bar', (fst (peakHold mbh v (p, hd))), (snd (peakHold mbh v (p, hd))).
  repeat split; try assumption; lra.
Qed.

Lemma peak_never_below_the_value_witness :
  exists bar' p' hd',
    drawBar [0; 255; 17; 3]%Z 0 100 (barsPush 0 1 2 1 1 0 0) = Some bar'
    /\ nth_error (Bar.peak bar') 0 = Some p'
    /\ nth_error (Bar.hold bar') 0 = Some hd'
    /\ 1 <= p' <= Rmax 0 1
    /\ (hd' <= Z.max 30 0)%Z.
Proof.
  apply (peak_never_below_the_value [0; 255; 17; 3]%Z 0 100
           (barsPush 0 1 2 1 1 0 0) 0 0 1).
  - lra.
  - reflexivity.
  - reflexivity.
  - unfold barValue, interpolate.
    cbn [Bar.binLo Bar.binHi Bar.ratioLo Bar.ratioHi barsPush].
    change (fft [0; 255; 17; 3]%Z 1) with (JS.Fin 255).
    change (fft [0; 255; 17; 3]%Z (1 + 1)) with (JS.Fin 17).
    change (fft [0; 255; 17; 3]%Z 2) with (JS.Fin 17).
    change (fft [0; 255; 17; 3]%Z (2 + 1)) with (JS.Fin 3).
    change (Z.to_nat (2 - (1 + 1))) with 0%nat.
    cbn [JS.max highest].
    rewrite Rmax_left by lra. f_equal. field.
Defined.

(** ** Frames after a rebuild *)

Lemma fresh_holdWritten (b : Bar.t) : fresh b -> holdWritten b.
Proof.
  intros (Ep & _) c p E Hp. rewrite Ep in E.
  destruct c as [| [| c]]; cbn [nth_error] in E;
    try (injection E as <-; lra).
  destruct c; discriminate.
Qed.

Lemma emit_fresh (h : Host) (lo hi : TemperedEntry) (rbars : list Bar.t) :
  Forall fresh rbars -> Forall fresh (emit h lo hi rbars).
Proof.
  intros Hf. unfold emit. destruct rbars as [| prevBar rest].
  - repeat constructor.
  - inversion Hf as [| ? ? Hp Hrest]; subst.
    destruct (1 <? bin lo - Bar.binHi prevBar)%Z.
    + set (prev' := redistribute h (hd_error rest) prevBar (bin lo)).
      assert (Hp' : fresh prev').
      { unfold prev', redistribute. destruct (hd_error rest) as [b2 |];
          [| exact Hp].
        match goal with |- context [if ?c then _ else _] => destruct c end;
          exact Hp. }
      match goal with |- context [if ?c then (0, ?x) else ?y] => destruct c end;
        (constructor; [repeat split |]); constructor; assumption.
    + match goal with |- context [if ?c then (0, ?x) else ?y] => destruct c end;
        (constructor; [repeat split |]); constructor; assumption.
Qed.

Lemma bands_fresh (h : Host) (minFreq maxFreq : R) (steps : Z) (fuel : nat) :
  forall (index : Z) (rbars : list Bar.t),
    Forall fresh rbars ->
    Forall fresh
      match bands h minFreq maxFreq fuel steps index rbars with
      | inl out | inr out => out
      end.
Proof.
  induction fuel as [| fuel IH]; intros index rbars Hf; cbn [bands];
    [exact Hf |].
  destruct (index <? Z.of_nat (List.length (temperedScale h)))%Z;
    [| exact Hf].
  unfold band.
  destruct (at_ (temperedScale h) index) as [lo |]; [| exact Hf].
  destruct (at_ (temperedScale h) (index + steps - 1)) as [hi |];
    [| exact Hf].
  destruct (Rltb maxFreq (freq hi)
            || Rleb (IZR (fftSize h) / 2) (IZR (bin hi))).
  - destruct rbars as [| prevBar rest]; [exact Hf |].
    inversion Hf as [| ? ? Hp Hrest]; subst.
    constructor; [exact Hp | exact Hrest].
  - destruct (Rleb minFreq (freq lo)).
    + apply IH. now apply emit_fresh.
    + now apply IH.
Qed.

Lemma discreteLoop_fresh (h : Host) (pos : Z -> Z) (n : nat) :
  forall (i lastPos : Z) (rbars : list Bar.t),
    Forall fresh rbars -> Forall fresh (discreteLoop h pos n i lastPos rbars).
Proof.
  induction n as [| n IH]; intros i lastPos rbars Hf; cbn [discreteLoop];
    [exact Hf |].
  destruct (lastPos <? pos i)%Z.
  - apply IH. constructor; [repeat split | exact Hf].
  - destruct rbars as [| newest rest]; [now apply IH |].
    inversion Hf as [| ? ? Hp Hrest]; subst.
    apply IH. constructor; [exact Hp | exact Hrest].
Qed.

Lemma placeBars_fresh (initialX : Z) (barWidth : R) (bars : list Bar.t) :
  Forall fresh bars -> Forall fresh (placeBars initialX barWidth bars).
Proof.
  unfold placeBars. generalize 0%nat.
  induction bars as [| b bars IH]; intros s Hf; cbn [mapi_from];
    [constructor |].
  inversion Hf as [| ? ? Hb Hrest]; subst.
  constructor; [exact Hb | now apply IH].
Qed.

(** Whatever the outcome of a rebuild, the bars it leaves are new ones. *)
Lemma _calcBars_fresh (a : Analyzer) :
  Forall fresh (_bars (state_of (_calcBars a))).
Proof.
  unfold _calcBars.
  change (host (set_bars a [])) with (host a).
  change (opts (set_bars a [])) with (opts a).
  change (aux (set_bars a [])) with (aux a).
  destruct (negb (_ready (host a))); [constructor |].
  assert (K : forall x, Forall fresh (_bars x) ->
                Forall fresh (_bars (state_of (_calcLeds (_calcAux x))))).
  { intros x Hx. destruct (_calcLeds_opts (_calcAux x)) as (_ & -> & _).
    now destruct (_calcAux_fields x) as (_ & _ & -> & _). }
  destruct (_isOctaveBands (aux a)).
  - destruct (at_ stepsTable (_mode (opts a))) as [steps |]; [| constructor].
    unfold octaveBars.
    pose proof (bands_fresh (host a) (_minFreq (opts a)) (_maxFreq (opts a))
                            steps (List.length (temperedScale (host a))) 0 []
                            ltac:(constructor)) as Hb.
    destruct (bands (host a) (_minFreq (opts a)) (_maxFreq (opts a))
                    (List.length (temperedScale (host a))) steps 0 [])
      as [rbars | rbars].
    + apply Forall_rev in Hb.
      pose proof (placeBars_fresh
                    (_initialX (aux a))
                    (IZR (_analyzerWidth (aux a))
                     / INR (List.length (rev rbars))) (rev rbars) Hb) as Hp.
      destruct (placeBars _ _ (rev rbars)) as [| first placed];
        [constructor |].
      apply K. exact Hp.
    + cbn [state_of _bars set_bars]. now apply Forall_rev.
  - apply K. cbn [_bars set_scale set_barWidth set_bars].
    unfold discreteBars. apply Forall_rev, discreteLoop_fresh. constructor.
Qed.

Lemma drawBar_samePlace (fftData : list Z) (c : nat) (mbh : R)
                        (bar bar' : Bar.t) :
  drawBar fftData c mbh bar = Some bar' -> samePlace bar bar'.
Proof.
  unfold drawBar, dropPeak, newPeak. cbn [Bar.peak Bar.hold Bar.set_value].
  intros E.
  repeat match type of E with
         | context [match ?x with _ => _ end] => destruct x
         end;
    cbn [option_map] in E; try discriminate; injection E as <-;
    repeat match goal with
           | |- context [match ?x with _ => _ end] => destruct x
           end;
    now repeat split.
Qed.

Lemma drawBarsLines_samePlace (fftData : list Z) (c : nat) (mbh : R)
                              (bars bars' : list Bar.t) :
  drawBarsLines fftData c mbh bars = Some bars' ->
  Forall2 samePlace bars bars'.
Proof.
  intros E. apply drawBarsLines_each in E.
  induction E as [| b b' bars bars' Hb _ IH]; constructor;
    [now apply drawBar_samePlace in Hb | exact IH].
Qed.

Lemma samePlace_trans (l1 l2 l3 : list Bar.t) :
  Forall2 samePlace l1 l2 -> Forall2 samePlace l2 l3 ->
  Forall2 samePlace l1 l3.
Proof.
  intros H12. revert l3.
  induction H12 as [| a b l1 l2 Hab _ IH]; intros l3 H23;
    inversion H23 as [| ? c ? l3' Hbc H23']; subst; constructor.
  - destruct Hab as (A1 & A2 & A3 & A4 & A5 & A6 & A7).
    destruct Hbc as (B1 & B2 & B3 & B4 & B5 & B6 & B7).
    repeat split; congruence.
  - now apply IH.
Qed.

Lemma samePlace_refl (l : list Bar.t) : Forall2 samePlace l l.
Proof. induction l; constructor; [now repeat split | assumption]. Qed.

(** A frame on bars whose hold counters are written: it goes through, and
    only touches the peaks, the hold counters and the values. *)
Lemma _drawState_defined (a : Analyzer) (input : list Z * list Z) :
  Forall holdWritten (_bars a) ->
  exists a',
    _drawState a input = Some a'
    /\ Forall holdWritten (_bars a')
    /\ Forall2 samePlace (_bars a) (_bars a')
    /\ opts a' = opts a /\ host a' = host a /\ aux a' = aux a.
Proof.
  intros Hw. unfold _drawState.
  set (mbh := if _radial (opts a) then _ else _).
  set (fftData := if _stereo (opts a) then input else _).
  destruct (drawBarsLines_defined (fst fftData) 0 mbh (_bars a) Hw)
    as (bars0 & E0 & Hw0).
  rewrite E0.
  pose proof (drawBarsLines_samePlace _ _ _ _ _ E0) as Hs0.
  destruct (_stereo (opts a)).
  - destruct (drawBarsLines_defined (snd fftData) 1 mbh bars0 Hw0)
      as (bars1 & E1 & Hw1).
    rewrite E1.
    pose proof (drawBarsLines_samePlace _ _ _ _ _ E1) as Hs1.
    eexists. split; [reflexivity |]. cbn [_bars opts host aux].
    split; [exact Hw1 |]. split; [| now repeat split].
    now apply samePlace_trans with bars0.
  - eexists. split; [reflexivity |]. cbn [_bars opts host aux].
    split; [exact Hw0 |]. split; [exact Hs0 | now repeat split].
Qed.

(** Whether the first round throws depends on the mode and on the number of
    bars only. *)
Lemma nextBarMissing_same (useCanvas : bool) (a a' : Analyzer) :
  Forall2 samePlace (_bars a) (_bars a') -> opts a' = opts a ->
  nextBarMissing useCanvas a' = nextBarMissing useCanvas a.
Proof.
  intros Hs Ho. unfold nextBarMissing. rewrite Ho.
  apply Forall2_length in Hs. now rewrite Hs.
Qed.

(** A frame on bars whose hold counters are written either goes through or
    throws in its first round, according to [nextBarMissing]. *)
Lemma _draw_defined (useCanvas : bool) (a : Analyzer)
                    (input : list Z * list Z) :
  Forall holdWritten (_bars a) ->
  exists r,
    _draw useCanvas a input = Some r
    /\ Forall holdWritten (_bars (state_of r))
    /\ Forall2 samePlace (_bars a) (_bars (state_of r))
    /\ (opts (state_of r) = opts a /\ host (state_of r) = host a
        /\ aux (state_of r) = aux a)
    /\ r = if nextBarMissing useCanvas a
           then Thrown TypeError (state_of r) else Ok (state_of r).
Proof.
  intros Hw. unfold _draw.
  destruct (nextBarMissing useCanvas a) eqn:En.
  - unfold nextBarMissing in En.
    apply andb_prop in En. destruct En as [_ En].
    apply Nat.eqb_eq in En.
    destruct (_bars a) as [| bar [| second rest]] eqn:Eb;
      try discriminate En.
    inversion Hw as [| ? ? Hbar _]; subst.
    set (mbh := if _radial (opts a) then _ else _).
    destruct (drawBar_holdWritten (fst input) 0 mbh bar Hbar)
      as (bar' & E' & Hw').
    rewrite E'. eexists. split; [reflexivity |].
    cbn [state_of _bars opts host aux].
    split; [constructor; [exact Hw' | constructor] |].
    split; [constructor; [now apply drawBar_samePlace in E' | constructor] |].
    split; [now repeat split | reflexivity].
  - destruct (_drawState_defined a input Hw)
      as (a' & -> & Hw' & Hs' & Ho').
    cbn [option_map]. exists (Ok a'). cbn [state_of].
    split; [reflexivity |]. split; [exact Hw' |]. split; [exact Hs' |].
    split; [exact Ho' | reflexivity].
Qed.

Lemma play_defined (useCanvas : bool) (inputs : list (list Z * list Z)) :
  forall a, Forall holdWritten (_bars a) ->
    exists r,
      play useCanvas a inputs = Some r
      /\ Forall2 samePlace (_bars a) (_bars (state_of r))
      /\ (opts (state_of r) = opts a /\ host (state_of r) = host a
          /\ aux (state_of r) = aux a)
      /\ (nextBarMissing useCanvas a = false -> r = Ok (state_of r))
      /\ (nextBarMissing useCanvas a = true -> inputs <> [] ->
          r = Thrown TypeError (state_of r)).
Proof.
  induction inputs as [| input inputs IH]; intros a Hw; cbn [play].
  - exists (Ok a). cbn [state_of]. split; [reflexivity |].
    split; [apply samePlace_refl |]. split; [now repeat split |].
    split; [reflexivity | intros _ H; now contradiction H].
  - destruct (_draw_defined useCanvas a input Hw)
      as (r1 & -> & Hw1 & Hs1 & (Ho1 & Hh1 & Ha1) & Er).
    destruct (nextBarMissing useCanvas a) eqn:En.
    + rewrite Er. exists (Thrown TypeError (state_of r1)). cbn [state_of].
      split; [reflexivity |]. split; [exact Hs1 |].
      split; [now repeat split |].
      split; [discriminate | reflexivity].
    + rewrite Er.
      destruct (IH (state_of r1) Hw1)
        as (r & E & Hs & (Ho & Hh & Ha) & Hok & _).
      exists r. split; [exact E |].
      split; [now apply samePlace_trans with (_bars (state_of r1)) |].
      split; [repeat split; congruence |].
      split; [| discriminate].
      intros _. apply Hok.
      rewrite (nextBarMissing_same useCanvas a (state_of r1) Hs1 Ho1).
      exact En.
Qed.

(** X11.  After a rebuild, whether it succeeded or threw, the frames stop
    in one configuration only: with [useCanvas] on, in mode 10 and with a
    single bar, the first frame throws a TypeError, its first round reading
    the second bar.  In every other configuration every sequence of frames
    goes through: the hold counter that a frame decrements has always been
    written before.  In both cases the frames leave the bars in place: the
    same number of bars, each with the posX, the bins, the frequencies and
    the ratios it was built with; the options, the host and the auxiliary
    fields are not touched. *)
Theorem frames_keep_the_geometry (useCanvas : bool) (a : Analyzer)
                                 (inputs : list (list Z * list Z)) :
  let built := state_of (_calcBars a) in
  exists r,
    play useCanvas built inputs = Some r
    /\ Forall2 samePlace (_bars built) (_bars (state_of r))
    /\ (opts (state_of r) = opts built /\ host (state_of r) = host built
        /\ aux (state_of r) = aux built)
    /\ (nextBarMissing useCanvas built = false -> r = Ok (state_of r))
    /\ (nextBarMissing useCanvas built = true -> inputs <> [] ->
        r = Thrown TypeError (state_of r)).
Proof.
  intros built.
  assert (Hw : Forall holdWritten (_bars built)).
  { pose proof (_calcBars_fresh a) as Hf. fold built in Hf.
    revert Hf. apply Forall_impl. exact fresh_holdWritten. }
  exact (play_defined useCanvas inputs built Hw).
Qed.

(** ** The energy of a frame *)

Lemma updateEnergy_val (v : JS.num) (e : Energy.t) :
  Energy.val (updateEnergy v e) = v.
Proof.
  unfold updateEnergy. destruct v as [x |]; cbn [JS.geb].
  - destruct (Rle_dec (Energy.peak e) x); [reflexivity |].
    destruct (0 <? Energy.hold e)%Z; [reflexivity |].
    now destruct (Rltb 0 (Energy.peak e)).
  - destruct (0 <? Energy.hold e)%Z; [reflexivity |].
    now destruct (Rltb 0 (Energy.peak e)).
Qed.

Lemma _drawState_samePlace (a a' : Analyzer) (input : list Z * list Z) :
  _drawState a input = Some a' -> Forall2 samePlace (_bars a) (_bars a').
Proof.
  unfold _drawState.
  set (mbh := if _radial (opts a) then _ else _).
  set (fftData := if _stereo (opts a) then input else _).
  destruct (drawBarsLines (fst fftData) 0 mbh (_bars a)) as [bars0 |] eqn:E0.
  - pose proof (drawBarsLines_samePlace _ _ _ _ _ E0) as H0.
    destruct (_stereo (opts a)).
    + destruct (drawBarsLines (snd fftData) 1 mbh bars0) as [bars1 |] eqn:E1;
        [| discriminate].
      pose proof (drawBarsLines_samePlace _ _ _ _ _ E1) as H1.
      intros E. injection E as <-. cbn [_bars].
      now apply samePlace_trans with bars0.
    + intros E. injection E as <-. exact H0.
  - destruct (_stereo (opts a)); discriminate.
Qed.

(** Whatever the FFT data and the number of bars, the energy value that a
    frame stores is 0 or NaN. *)
Lemma _drawState_val (a a' : Analyzer) (input : list Z * list Z) :
  _drawState a input = Some a' -> notPositive (Energy.val (_energy a')).
Proof.
  unfold _drawState.
  match goal with
  | |- match ?b with _ => _ end = _ -> _ => destruct b as [bars |]
  end; [| discriminate].
  intros E. injection E as <-. cbn [_energy]. rewrite updateEnergy_val.
  destruct (_ =? 0)%Z; [exact I |]. cbn [notPositive]. unfold Rdiv.
  rewrite Rmult_0_l. lra.
Qed.

(** A frame that throws leaves the energy as it was. *)
Lemma _draw_Thrown (useCanvas : bool) (a a' : Analyzer) (e : Error)
                   (input : list Z * list Z) :
  _draw useCanvas a input = Some (Thrown e a') -> _energy a' = _energy a.
Proof.
  unfold _draw. destruct (nextBarMissing useCanvas a).
  - destruct (_bars a) as [| bar rest]; [discriminate |].
    match goal with
    | |- context [drawBar ?f ?c ?m ?b] => destruct (drawBar f c m b)
    end; [| discriminate].
    intros E. injection E as _ <-. reflexivity.
  - destruct (_drawState a input); discriminate.
Qed.

Lemma play_energy (useCanvas : bool) (inputs : list (list Z * list Z)) :
  forall a a',
    (1 <= Z.of_nat (List.length (_bars a)) < 1073741824)%Z ->
    Energy.peak (_energy a) <= 0 -> inputs <> [] ->
    play useCanvas a inputs = Some (Ok a') ->
    _energy a' = Energy.mk (JS.Fin 0) 0 30.
Proof.
  assert (Hstep : forall e, Energy.peak e <= 0 ->
                    updateEnergy (JS.Fin 0) e = Energy.mk (JS.Fin 0) 0 30).
  { intros e He. unfold updateEnergy. cbn [JS.geb].
    destruct (Rle_dec (Energy.peak e) 0); [reflexivity | contradiction]. }
  induction inputs as [| input inputs IH]; intros a a' Hn Hp Hne E;
    [contradiction |].
  cbn [play] in E.
  destruct (_draw useCanvas a input) as [[a1 | e a1] |] eqn:E1;
    try discriminate.
  pose proof (_draw_energy useCanvas a a1 input Hn E1) as He.
  rewrite (Hstep _ Hp) in He.
  destruct inputs as [| input' inputs'].
  - cbn [play] in E. injection E as <-. exact He.
  - apply (IH a1 a'); try exact E; try discriminate.
    + apply _draw_Ok, _drawState_samePlace, Forall2_length in E1.
      now rewrite <- E1.
    + rewrite He. cbn. lra.
Qed.

(** X12.  With at least one bar (and less than 2^30) and an energy peak
    that is not positive, as after the constructor, one frame or more that
    go through leave the energy at value 0, peak 0 and hold 30, whatever
    the FFT data: [getEnergy()] and [getEnergy('peak')] answer 0.  The sum
    of the bar values is made in a by-value parameter of [drawBarsLines] and
    never comes back to [_draw]. *)
Theorem energy_stays_zero (useCanvas : bool) (a a' : Analyzer)
                          (inputs : list (list Z * list Z)) :
  (1 <= Z.of_nat (List.length (_bars a)) < 1073741824)%Z ->
  Energy.peak (_energy a) <= 0 -> inputs <> [] ->
  play useCanvas a inputs = Some (Ok a') ->
  _energy a' = Energy.mk (JS.Fin 0) 0 30
  /\ getEnergy a' Undefined None = (a', Return (Num (JS.Fin 0)))
  /\ getEnergy a' (Str "peak") None = (a', Return (Num (JS.Fin 0))).
Proof.
  intros Hn Hp Hne E.
  pose proof (play_energy useCanvas inputs a a' Hn Hp Hne E) as He.
  split; [exact He |]. split.
  - cbn [getEnergy]. now rewrite He.
  - change (getEnergy a' (Str "peak") None)
      with (a', Return (Num (JS.Fin (Energy.peak (_energy a'))))).
    now rewrite He.
Qed.

Lemma energy_stays_zero_witness :
  let bar := barsPush 0 1 2 1 1 0 0 in
  let a := set_bars (blank (hostOf 8 44100) defaults) [bar] in
  exists a',
    play true a [([0; 255; 255; 255]%Z, [])] = Some (Ok a')
    /\ getEnergy a' Undefined None = (a', Return (Num (JS.Fin 0))).
Proof.
  intros bar a.
  assert (Hw : Forall holdWritten (_bars a)).
  { constructor; [apply barsPush_holdWritten | constructor]. }
  destruct (_draw_defined true a ([0; 255; 255; 255]%Z, []) Hw)
    as (r & E & _ & _ & _ & Er).
  change (nextBarMissing true a) with false in Er.
  assert (Ep : play true a [([0; 255; 255; 255]%Z, [])]
               = Some (Ok (state_of r))).
  { cbn [play]. rewrite E, Er. reflexivity. }
  exists (state_of r). split; [exact Ep |].
  apply (energy_stays_zero true a (state_of r) [([0; 255; 255; 255]%Z, [])]).
  - cbn. lia.
  - cbn. lra.
  - discriminate.
  - exact Ep.
Defined.

(** ** The spin of the radial analyzer *)

Lemma spin_still (e : Energy.t) (s : Spin) :
  notPositive (Energy.val e) -> spin e s = s.
Proof.
  unfold spin, notPositive. destruct (Energy.val e) as [v |]; [| reflexivity].
  intros Hv. destruct (Rltb 0 v) eqn:E; [| reflexivity].
  apply Rltb_true in E. lra.
Qed.

(** X13.  [_draw] adds to the spin angle only when the energy value is
    positive.  From a state where it is not positive (it is 0 after the
    constructor), no sequence of frames changes the spin speed or the spin
    angle, and the energy value stays not positive, also when the last of
    the frames throws. *)
Theorem spin_never_advances (useCanvas : bool)
                            (inputs : list (list Z * list Z)) :
  forall (s s' : Spin) (a : Analyzer) (r : Result),
    notPositive (Energy.val (_energy a)) ->
    playSpin useCanvas (s, a) inputs = Some (s', r) ->
    s' = s /\ notPositive (Energy.val (_energy (state_of r))).
Proof.
  induction inputs as [| input inputs IH]; intros s s' a r Hv E;
    cbn [playSpin] in E.
  - injection E as <- <-. now split.
  - unfold _drawSpin in E.
    destruct (_draw useCanvas a input) as [[a1 | e a1] |] eqn:E1;
      [| | discriminate]; rewrite (spin_still _ s Hv) in E.
    + apply (IH s s' a1 r); [| exact E].
      now apply _draw_Ok, _drawState_val in E1.
    + injection E as <- <-. split; [reflexivity |]. cbn [state_of].
      now rewrite (_draw_Thrown _ _ _ _ _ E1).
Qed.

Lemma spin_never_advances_witness :
  let a := set_bars (blank (hostOf 8 44100) defaults)
                    [barsPush 0 1 2 1 1 0 0] in
  let s := spinSpeed_set (mkSpin None JS.NaN) (JS.Fin 5) in
  exists s' r,
    playSpin true (s, a) [([0; 255; 255; 255]%Z, [])] = Some (s', r)
    /\ _spinAngle s' = JS.Fin (- HALF_PI).
Proof.
  intros a s.
  assert (Hw : Forall holdWritten (_bars a)).
  { constructor; [apply barsPush_holdWritten | constructor]. }
  destruct (_draw_defined true a ([0; 255; 255; 255]%Z, []) Hw)
    as (r & E & _ & _ & _ & Er).
  change (nextBarMissing true a) with false in Er.
  exists (spin (_energy a) s), r.
  assert (Ep : playSpin true (s, a) [([0; 255; 255; 255]%Z, [])]
               = Some (spin (_energy a) s, r)).
  { cbn [playSpin _drawSpin]. rewrite E, Er. reflexivity. }
  split; [exact Ep |].
  destruct (spin_never_advances true [([0; 255; 255; 255]%Z, [])] s
              (spin (_energy a) s) a r) as [-> _].
  - cbn. lra.
  - exact Ep.
  - reflexivity.
Defined.

(** ** A range below the first band *)

Lemma octaveBars_first_band_too_high (h : Host) (minFreq maxFreq : R)
                                     (st : nat) :
  (1 <= st <= 264)%nat -> maxFreq < tfreq (st - 1) ->
  octaveBars h minFreq maxFreq (Z.of_nat st) = inr [].
Proof.
  intros Hst Hmax. unfold octaveBars. rewrite temperedScale_length.
  change (bands h minFreq maxFreq 264 (Z.of_nat st) 0 [])
    with (bands h minFreq maxFreq (S 263) (Z.of_nat st) (Z.of_nat (0 * st)) []).
  rewrite (bands_round h minFreq maxFreq st) by lia.
  rewrite (band_round h minFreq maxFreq st) by lia.
  replace (0 * st + st - 1)%nat with (st - 1)%nat by lia.
  apply Rltb_true in Hmax. rewrite Hmax. reflexivity.
Qed.

(** X14.  In the modes 1 to 8, on a ready analyzer, a range whose two
    ends are between 1 and 16 Hz passes the check of [setFreqRange] and then
    breaks the rebuild: the first band already ends above maxFreq when there
    is no bar to close.  A TypeError is thrown, the analyzer is left without
    bars, and the new range is stored. *)
Theorem range_below_the_first_band_throws (a : Analyzer) (min max : R) :
  _ready (host a) = true -> _isOctaveBands (aux a) = true ->
  (1 <= _mode (opts a) <= 8)%Z ->
  1 <= min <= 16 -> 1 <= max <= 16 ->
  exists a',
    setFreqRange a min max = Thrown TypeError a'
    /\ _bars a' = []
    /\ _minFreq (opts a') = Rmin min max
    /\ _maxFreq (opts a') = Rmax min max.
Proof.
  intros Hr Hx Hm Hmin Hmax.
  rewrite setFreqRange_stores by lra.
  set (o := set_maxFreq (set_minFreq (opts a) (Rmin min max)) (Rmax min max)).
  assert (Hs : exists st, (1 <= st <= 264)%nat
                          /\ at_ stepsTable (_mode (opts a))
                             = Some (Z.of_nat st)).
  { assert (C : (_mode (opts a) = 1 \/ _mode (opts a) = 2
                 \/ _mode (opts a) = 3 \/ _mode (opts a) = 4
                 \/ _mode (opts a) = 5 \/ _mode (opts a) = 6
                 \/ _mode (opts a) = 7 \/ _mode (opts a) = 8)%Z) by lia.
    destruct C as [-> | [-> | [-> | [-> | [-> | [-> | [-> | ->]]]]]]];
      [exists 1%nat | exists 2%nat | exists 3%nat | exists 4%nat
       | exists 6%nat | exists 8%nat | exists 12%nat | exists 24%nat];
      (split; [lia | reflexivity]). }
  destruct Hs as (st & Hst & Es).
  assert (Hhigh : Rmax min max < tfreq (st - 1)).
  { pose proof tfreq_0. pose proof (tfreq_mono 0 (st - 1) ltac:(lia)).
    apply Rle_lt_trans with 16; [apply Rmax_lub; lra | lra]. }
  exists (set_bars (set_opts a o) []).
  split; [| now repeat split].
  unfold _calcBars.
  change (host (set_bars (set_opts a o) [])) with (host a).
  change (aux (set_bars (set_opts a o) [])) with (aux a).
  change (_mode (opts (set_bars (set_opts a o) []))) with (_mode (opts a)).
  change (_minFreq (opts (set_bars (set_opts a o) []))) with (Rmin min max).
  change (_maxFreq (opts (set_bars (set_opts a o) []))) with (Rmax min max).
  rewrite Hr, Hx, Es. cbn [negb].
  rewrite (octaveBars_first_band_too_high (host a) _ _ st Hst Hhigh).
  reflexivity.
Qed.

Lemma range_below_the_first_band_throws_witness :
  let a := _calcAux (blank (hostOf 8192 44100)
                       (mkOptions 8 20 22000 0 false false false false 0 None)) in
  exists a', setFreqRange a 1 10 = Thrown TypeError a' /\ _bars a' = [].
Proof.
  intros a.
  destruct (range_below_the_first_band_throws a 1 10) as (a' & E & Hb & _);
    try reflexivity; try lra.
  { cbn. lia. }
  exists a'. now split.
Defined.

(** ** Custom LED parameters *)

Section CustomLeds.
Variables (H : Z) (dPR r : R).

(** The [do ... while] loop stops at the first count, from [c - 1] down,
    whose block and spacing are at least [2 * dPR], or at 1. *)
Lemma customLoop_spec (fuel : nat) :
  forall c : Z,
    (1 <= c - 1 <= Z.of_nat fuel)%Z ->
    let n := fst (customLoop H dPR fuel r c) in
    let spaceV := snd (customLoop H dPR fuel r c) in
    (1 <= n <= c - 1)%Z
    /\ spaceV = IZR H / IZR n / (1 + r) * r
    /\ ((1 < n)%Z ->
        2 * dPR <= IZR H / IZR n / (1 + r) /\ 2 * dPR <= spaceV).
Proof.
  induction fuel as [| fuel IH]; intros c Hc; [lia |].
  cbn [customLoop].
  destruct (Rltb (IZR H / IZR (c - 1) / (1 + r)) (2 * dPR)
            || Rltb (IZR H / IZR (c - 1) / (1 + r) * r) (2 * dPR)) eqn:Esmall.
  - destruct (Z.ltb_spec 1 (c - 1)) as [Hgt | Hle]; cbn [andb].
    + destruct (IH (c - 1)%Z ltac:(lia)) as (H1 & H2 & H3).
      split; [lia |]. split; [exact H2 | exact H3].
    + cbn [fst snd]. split; [lia |]. split; [reflexivity | lia].
  - cbn [andb fst snd]. apply orb_false_iff in Esmall.
    destruct Esmall as [E1 E2]. apply Rltb_false in E1, E2.
    split; [lia |]. split; [reflexivity |]. intros _. split; lra.
Qed.
End CustomLeds.

Lemma _calcLeds_custom (a : Analyzer) (p : Z * R * R) :
  _ready (host a) = true -> _isOctaveBands (aux a) = true ->
  _ledParams (opts a) = Some p ->
  _calcLeds a
  = Ok (set_leds a (Some (ledGeometry (_analyzerHeight (aux a))
                                      (dPR_of (host a))
                                      (_maximizeLeds (aux a)) (_barWidth a)
                                      true p))).
Proof.
  intros Hr Hx Hp. unfold _calcLeds. now rewrite Hr, Hx, Hp.
Qed.

(** X15.  [setLedParams] on a ready analyzer in octave mode.  With
    [maxLeds | 0 > 0], [spaceV > 0] and [spaceH >= 0] it stores
    [maxLeds | 0], spaceV and spaceH and computes LEDs whose count is
    between 1 and [maxLeds | 0].  The vertical spacing is the block height
    [analyzerHeight / ledCount / (1 + spaceV)] times spaceV, and the LED
    height is the analyzer height (plus the spacing, when the LEDs are
    maximized) divided by the count, less the spacing.  When there is more
    than one LED, the block height and the vertical spacing are at least
    [2 * dPR].  With no argument, a property that is NaN or a property out
    of its range, the custom parameters are cleared. *)
Theorem custom_led_parameters
        (a : Analyzer) (params : option (JS.num * JS.num * JS.num)) :
  _ready (host a) = true -> _isOctaveBands (aux a) = true ->
  let a' := state_of (setLedParams a params) in
  (forall maxLeds spaceV spaceH,
      params = Some (JS.Fin maxLeds, JS.Fin spaceV, JS.Fin spaceH) ->
      (0 < JS.toInt32 maxLeds)%Z -> 0 < spaceV -> 0 <= spaceH ->
      _ledParams (opts a') = Some (JS.toInt32 maxLeds, spaceV, spaceH)
      /\ exists leds,
           setLedParams a params = Ok a'
           /\ _leds a' = Some leds
           /\ (1 <= ledCount leds <= JS.toInt32 maxLeds)%Z
           /\ let analyzerHeight := IZR (_analyzerHeight (aux a)) in
              let blockHeight :=
                analyzerHeight / IZR (ledCount leds) / (1 + spaceV) in
              ledSpaceV leds = blockHeight * spaceV
              /\ ledHeight leds
                 = (if _maximizeLeds (aux a)
                    then analyzerHeight + ledSpaceV leds
                    else analyzerHeight) / IZR (ledCount leds)
                   - ledSpaceV leds
              /\ ((1 < ledCount leds)%Z ->
                  2 * dPR_of (host a) <= blockHeight
                  /\ 2 * dPR_of (host a) <= ledSpaceV leds))
  /\ ((params = None
       \/ exists m v s,
            params = Some (m, v, s)
            /\ (m = JS.NaN \/ v = JS.NaN \/ s = JS.NaN
                \/ (exists x, m = JS.Fin x /\ (JS.toInt32 x <= 0)%Z)
                \/ (exists x, v = JS.Fin x /\ x <= 0)
                \/ (exists x, s = JS.Fin x /\ x < 0))) ->
      _ledParams (opts a') = None).
Proof.
  intros Hr Hx a'. split.
  - intros maxLeds spaceV spaceH -> Hm Hv Hs.
    assert (E : setLedParams a
                  (Some (JS.Fin maxLeds, JS.Fin spaceV, JS.Fin spaceH))
                = _calcLeds (set_opts a (set_ledParams (opts a)
                     (Some (JS.toInt32 maxLeds, spaceV, spaceH))))).
    { unfold setLedParams.
      destruct (Z.ltb_spec 0 (JS.toInt32 maxLeds)); [| lia].
      apply Rltb_true in Hv. apply Rleb_true in Hs. now rewrite Hv, Hs. }
    unfold a'. rewrite E.
    rewrite (_calcLeds_custom _ (JS.toInt32 maxLeds, spaceV, spaceH))
      by (try reflexivity; assumption).
    cbn [state_of opts set_leds set_opts _ledParams set_ledParams].
    split; [reflexivity |].
    eexists. split; [reflexivity |]. split; [reflexivity |].
    cbn [host aux set_opts set_leds _barWidth].
    unfold ledGeometry.
    pose proof (customLoop_spec (_analyzerHeight (aux a)) (dPR_of (host a))
                  spaceV (Z.to_nat (JS.toInt32 maxLeds))
                  (JS.toInt32 maxLeds + 1) ltac:(lia)) as Hloop.
    destruct (customLoop (_analyzerHeight (aux a)) (dPR_of (host a))
                         (Z.to_nat (JS.toInt32 maxLeds)) spaceV
                         (JS.toInt32 maxLeds + 1)) as [n sv].
    cbn [fst snd] in Hloop. destruct Hloop as (Hn & Esv & Hbig).
    cbn [ledCount ledSpaceV ledHeight].
    split; [lia |]. split; [exact Esv |]. split; [reflexivity | exact Hbig].
  - intros Hbad.
    assert (E : exists o, setLedParams a params = _calcLeds (set_opts a o)
                          /\ _ledParams o = None).
    { exists (set_ledParams (opts a) None). split; [| reflexivity].
      unfold setLedParams.
      destruct Hbad as [-> | (m & v & s & -> & Hbad)]; [reflexivity |].
      destruct m as [m |], v as [v |], s as [s |]; try reflexivity.
      destruct Hbad as [Hbad | [Hbad | [Hbad | [(x & Ex & Hbad)
                         | [(x & Ex & Hbad) | (x & Ex & Hbad)]]]]];
        try discriminate; injection Ex as <-.
      - destruct (Z.ltb_spec 0 (JS.toInt32 m)); [lia | reflexivity].
      - assert (Ev : Rltb 0 v = false) by (apply Rltb_false; exact Hbad).
        rewrite Ev, andb_false_r. reflexivity.
      - assert (Es : Rleb 0 s = false) by (apply Rleb_false; exact Hbad).
        rewrite Es, andb_false_r. reflexivity. }
    destruct E as (o & E & Ho). unfold a'. rewrite E.
    destruct (_calcLeds_opts (set_opts a o)) as (-> & _). exact Ho.
Qed.

Lemma custom_led_parameters_witness :
  let a := _calcAux (blank (hostOf 8192 44100) (set_mode defaults 3)) in
  let a' := state_of (setLedParams a
                        (Some (JS.Fin (1605 / 100), JS.Fin 1, JS.Fin 0))) in
  _ledParams (opts a') = Some (16%Z, 1, 0)
  /\ _ledParams (opts (state_of (setLedParams a None))) = None.
Proof.
  intros a a'.
  assert (E16 : JS.toInt32 (1605 / 100) = 16%Z)
    by (apply toInt32_eq; [lia | lra]).
  destruct (custom_led_parameters a
              (Some (JS.Fin (1605 / 100), JS.Fin 1, JS.Fin 0))
              eq_refl eq_refl) as [Hgood _].
  destruct (Hgood (1605 / 100) 1 0 eq_refl) as [Hp _]; try lra.
  { rewrite E16. lia. }
  split.
  - unfold a'. rewrite Hp, E16. reflexivity.
  - destruct (custom_led_parameters a None eq_refl eq_refl) as [_ Hbad].
    apply Hbad. now left.
Defined.

(** ** The height of a LED bar *)

Lemma toInt32_small (x : R) :
  0 <= x < 2147483648 ->
  JS.toInt32 x = Zfloor x /\ (0 <= Zfloor x)%Z.
Proof.
  intros [H0 H1].
  assert (Hf : (0 <= Zfloor x)%Z) by (apply Zfloor_lub; simpl; lra).
  split; [| exact Hf].
  unfold JS.toInt32, JS.trunc. destruct (Rle_dec 0 x); [| lra].
  apply wrap32_small. split; [lia |].
  apply lt_IZR. pose proof (Zfloor_bound x). lra.
Qed.

(** X16.  A LED bar lights whole LEDs.  For LED attributes with at least
    one LED (and less than 2^31), a non-negative spacing and a non-negative
    LED height, and for bar values [v <= w] within 0..1: [ledPosY] gives
    [k * (ledHeight + spaceV) - spaceV] for a whole number [k] between 0 and
    the LED count, which is the LED count for the value 1; the height of the
    bar is 0 for the value 0, never negative, and grows with the value up to
    the height for the value 1. *)
Theorem led_bar_lights_whole_leds (leds : Leds) (v w : R) :
  (1 <= ledCount leds < 2147483648)%Z ->
  0 <= ledSpaceV leds -> 0 <= ledHeight leds ->
  0 <= v <= w -> w <= 1 ->
  (exists k, (0 <= k <= ledCount leds)%Z
             /\ ledPosY leds v
                = IZR k * (ledHeight leds + ledSpaceV leds) - ledSpaceV leds)
  /\ ledPosY leds 1
     = IZR (ledCount leds) * (ledHeight leds + ledSpaceV leds)
       - ledSpaceV leds
  /\ ledBarHeight leds 0 = 0
  /\ 0 <= ledBarHeight leds v <= ledBarHeight leds w
  /\ ledBarHeight leds w <= ledBarHeight leds 1.
Proof.
  intros Hn Hsv Hlh Hv Hw.
  assert (Hn1 : 1 <= IZR (ledCount leds) < 2147483648).
  { split; [apply IZR_le | apply IZR_lt]; lia. }
  set (s := ledHeight leds + ledSpaceV leds).
  assert (Hs : 0 <= s) by (unfold s; lra).
  (* the number of LEDs that a value lights *)
  assert (Hq : forall x, 0 <= x <= 1 ->
            JS.toInt32 (x * IZR (ledCount leds))
            = Zfloor (x * IZR (ledCount leds))
            /\ (0 <= Zfloor (x * IZR (ledCount leds)) <= ledCount leds)%Z).
  { intros x Hx.
    assert (Hx' : 0 <= x * IZR (ledCount leds) < 2147483648) by nra.
    destruct (toInt32_small _ Hx') as [E Hk].
    pose proof (Zfloor_bound (x * IZR (ledCount leds))) as Hb.
    split; [exact E |]. split; [exact Hk |]. apply le_IZR. nra. }
  assert (Hmono : forall x y, 0 <= x <= y -> y <= 1 ->
            ledBarHeight leds x <= ledBarHeight leds y).
  { intros x y Hx Hy.
    destruct (Hq x ltac:(lra)) as [Ex _], (Hq y ltac:(lra)) as [Ey _].
    assert (Hk : (Zfloor (x * IZR (ledCount leds))
                  <= Zfloor (y * IZR (ledCount leds)))%Z)
      by (apply Zfloor_le; nra).
    apply IZR_le in Hk.
    unfold ledBarHeight, ledPosY. rewrite Ex, Ey. fold s.
    set (kx := IZR (Zfloor (x * IZR (ledCount leds)))) in *.
    set (ky := IZR (Zfloor (y * IZR (ledCount leds)))) in *.
    assert (kx * s <= ky * s) by (apply Rmult_le_compat_r; assumption).
    destruct (Rltb (kx * s - ledSpaceV leds) 0) eqn:E1,
             (Rltb (ky * s - ledSpaceV leds) 0) eqn:E2;
      try apply Rltb_true in E1; try apply Rltb_true in E2;
      try apply Rltb_false in E1; try apply Rltb_false in E2; lra. }
  assert (Hnonneg : forall x, 0 <= ledBarHeight leds x).
  { intros x. unfold ledBarHeight.
    destruct (Rltb (ledPosY leds x) 0) eqn:E; [lra |].
    now apply Rltb_false in E. }
  split; [| split; [| split; [| split]]].
  - destruct (Hq v ltac:(lra)) as [E Hk].
    exists (Zfloor (v * IZR (ledCount leds))). split; [exact Hk |].
    unfold ledPosY. now rewrite E.
  - unfold ledPosY. rewrite Rmult_1_l, toInt32_IZR by lia. reflexivity.
  - unfold ledBarHeight, ledPosY. rewrite Rmult_0_l.
    replace (JS.toInt32 0) with 0%Z
      by (symmetry; apply (toInt32_IZR 0); lia).
    rewrite Rmult_0_l.
    destruct (Rltb (0 - ledSpaceV leds) 0) eqn:E; [reflexivity |].
    apply Rltb_false in E. lra.
  - split; [apply Hnonneg | apply Hmono; lra].
  - apply Hmono; lra.
Qed.

Lemma led_bar_lights_whole_leds_witness :
  let leds := mkLeds 45 1 2 4 in
  ledBarHeight leds 0 = 0
  /\ ledBarHeight leds (1 / 3) <= ledBarHeight leds (1 / 2).
Proof.
  intros leds.
  destruct (led_bar_lights_whole_leds leds (1 / 3) (1 / 2))
    as (_ & _ & H0 & [_ Hm] & _).
  - cbn. lia.
  - cbn. lra.
  - cbn. lra.
  - lra.
  - lra.
  - split; [exact H0 | exact Hm].
Defined.

(** ** The analyzer area *)

Lemma shr_0 (z : Z) : (-2147483648 <= z < 2147483648)%Z -> JS.shr z 0 = z.
Proof. intros Hz. unfold JS.shr. rewrite wrap32_small by lia. apply Z.shiftr_0_r. Qed.

Lemma toInt32_minus_half (z : Z) :
  (0 <= z < 2147483648)%Z ->
  JS.toInt32 (IZR z - 5 / 10) = Z.max 0 (z - 1).
Proof.
  intros Hz. destruct (Z.eq_dec z 0) as [-> | Hne].
  - unfold JS.toInt32, JS.trunc. destruct (Rle_dec 0 (0 - 5 / 10)); [lra |].
    rewrite (Zceil_eq 0) by (simpl; lra). reflexivity.
  - rewrite (toInt32_eq (z - 1)); [lia | lia |].
    rewrite minus_IZR. lra.
Qed.

Lemma toInt32_fraction (n : Z) (f : R) :
  (0 <= n < 2147483648)%Z -> 0 <= f <= 1 ->
  (0 <= JS.toInt32 (IZR n * f) <= n)%Z.
Proof.
  intros Hn Hf.
  assert (Hn' : 0 <= IZR n < 2147483648).
  { split; [apply IZR_le | apply IZR_lt]; lia. }
  destruct (toInt32_small (IZR n * f) ltac:(nra)) as [-> Hk].
  split; [exact Hk |]. apply le_IZR.
  pose proof (Zfloor_bound (IZR n * f)). nra.
Qed.

Lemma channelHeight_bounds (h : Z) (dual led : bool) :
  (0 <= h < 2147483648)%Z ->
  let ch :=
    JS.shr (JS.toInt32 (IZR h - (if dual && negb led then 5 / 10 else 0)))
           (if dual then 1 else 0) in
  (0 <= ch)%Z /\ (ch * (if dual then 2 else 1) <= h)%Z.
Proof.
  intros Hh. cbv zeta.
  set (t := JS.toInt32 (IZR h - (if dual && negb led then 5 / 10 else 0))).
  assert (Ht : (0 <= t <= h)%Z).
  { unfold t. destruct (dual && negb led).
    - rewrite toInt32_minus_half by lia. lia.
    - rewrite Rminus_0_r, toInt32_IZR by lia. lia. }
  destruct dual.
  - rewrite shr_1 by lia.
    pose proof (Z.div_pos t 2 ltac:(lia) ltac:(lia)).
    pose proof (Z.mul_div_le t 2 ltac:(lia)). lia.
  - rewrite shr_0 by lia. lia.
Qed.

(** The analyzer area that [_calcAux] computes lies inside the canvas. *)
Lemma _calcAux_area (a : Analyzer) :
  (0 <= canvas_width (host a) < 2147483648)%Z ->
  (0 <= canvas_height (host a) < 2147483648)%Z ->
  0 <= _reflexRatio (opts a) < 1 ->
  let x := aux (_calcAux a) in
  let w := canvas_width (host a) in
  (0 <= _initialX x)%Z /\ (0 <= _analyzerWidth x)%Z
  /\ (_initialX x + _analyzerWidth x <= w)%Z
  /\ (_analyzerWidth x = if (_mirror (opts a) =? 0)%Z then w else w - w / 2)%Z
  /\ (0 <= _analyzerHeight x <= _channelHeight x)%Z
  /\ (_channelHeight x * (if _stereo (opts a) && negb (_radial (opts a))
                          then 2 else 1)
      <= canvas_height (host a))%Z.
Proof.
  intros Hw Hh Hr. cbv zeta. unfold _calcAux.
  cbn [aux set_aux _initialX _analyzerWidth _analyzerHeight _channelHeight].
  rewrite (shr_1 (canvas_width (host a))) by lia.
  pose proof (Z.div_pos (canvas_width (host a)) 2 ltac:(lia) ltac:(lia)).
  pose proof (Z.mul_div_le (canvas_width (host a)) 2 ltac:(lia)).
  pose proof (channelHeight_bounds
                (canvas_height (host a))
                (_stereo (opts a) && negb (_radial (opts a)))
                (_showLeds (opts a) && isOctaveBands (_mode (opts a))
                 && negb (_radial (opts a))) Hh) as Hch.
  cbv zeta in Hch.
  set (ch := JS.shr _ (if _stereo (opts a) && negb (_radial (opts a))
                       then 1 else 0)%Z) in *.
  destruct Hch as [Hch0 Hch1].
  assert (Hch2 : (ch < 2147483648)%Z).
  { destruct (_stereo (opts a) && negb (_radial (opts a))); lia. }
  set (w := canvas_width (host a)) in *.
  split; [destruct (_ =? -1)%Z, (negb (_radial (opts a))); cbn [andb]; lia |].
  split; [destruct (_mirror (opts a) =? 0)%Z; lia |].
  split.
  { destruct (Z.eqb_spec (_mirror (opts a)) 0),
             (Z.eqb_spec (_mirror (opts a)) (-1)),
             (negb (_radial (opts a))); cbn [andb]; lia. }
  split; [destruct (_mirror (opts a) =? 0)%Z; lia |].
  split; [| exact Hch1].
  apply toInt32_fraction; [lia |].
  destruct (_ || _); lra.
Qed.

Lemma _calcAux_depends (a b : Analyzer) :
  host a = host b -> opts a = opts b -> aux (_calcAux a) = aux (_calcAux b).
Proof.
  intros Hh Ho. unfold _calcAux. cbn [aux set_aux]. now rewrite Hh, Ho.
Qed.

(** A rebuild on auxiliary fields that are up to date leaves them so. *)
Lemma _calcBars_aux (a : Analyzer) :
  aux (_calcAux a) = aux a -> aux (state_of (_calcBars a)) = aux a.
Proof.
  intros Hc. unfold _calcBars.
  change (host (set_bars a [])) with (host a).
  change (opts (set_bars a [])) with (opts a).
  change (aux (set_bars a [])) with (aux a).
  destruct (negb (_ready (host a))); [reflexivity |].
  assert (K : forall x, opts x = opts a -> host x = host a ->
                aux (state_of (_calcLeds (_calcAux x))) = aux a).
  { intros x Ho Hh.
    destruct (_calcLeds_opts (_calcAux x)) as (_ & _ & ->).
    rewrite <- Hc. now apply _calcAux_depends. }
  destruct (_isOctaveBands (aux a)).
  - destruct (at_ stepsTable (_mode (opts a))) as [steps |]; [| reflexivity].
    destruct (octaveBars (host a) (_minFreq (opts a)) (_maxFreq (opts a)) steps)
      as [bars | bars]; [| reflexivity].
    destruct (placeBars _ _ bars) as [| first placed]; [reflexivity |].
    now apply K.
  - now apply K.
Qed.

Lemma _calcAux_idem (a : Analyzer) :
  aux (_calcAux (_calcAux a)) = aux (_calcAux a).
Proof.
  apply _calcAux_depends; destruct (_calcAux_fields a) as (Ho & Hh & _);
    assumption.
Qed.

Lemma sign_toInt32 (x : R) :
  JS.toInt32 (sign x)
  = if Rltb 0 x then 1%Z else if Rltb x 0 then (-1)%Z else 0%Z.
Proof.
  unfold sign. destruct (Rltb 0 x); [apply (toInt32_IZR 1); lia |].
  destruct (Rltb x 0); [| apply (toInt32_IZR 0); lia].
  replace (-1) with (IZR (-1)) by reflexivity. apply toInt32_IZR. lia.
Qed.

(** X17.  [set mirror] stores the sign of its argument: -1, 0 or 1, and 0
    for NaN.  For a canvas width from 0 to below 2^31, whether the rebuild
    then succeeds or throws, the analyzer area is inside the canvas:
    initialX is not negative and initialX + analyzerWidth is at most the
    canvas width; the analyzer width is the canvas width without mirror and
    the canvas width less its half (rounded down) with it; initialX is that
    half when mirror is -1 and the analyzer is not radial, and 0
    otherwise. *)
Theorem mirror_setter (a : Analyzer) (value : JS.num) :
  (0 <= canvas_width (host a) < 2147483648)%Z ->
  let a' := state_of (mirror_set a value) in
  let w := canvas_width (host a) in
  (_mirror (opts a')
   = match value with
     | JS.Fin x => if Rltb 0 x then 1 else if Rltb x 0 then -1 else 0
     | JS.NaN => 0
     end)%Z
  /\ (0 <= _initialX (aux a'))%Z
  /\ (_initialX (aux a') + _analyzerWidth (aux a') <= w)%Z
  /\ (_analyzerWidth (aux a')
      = if (_mirror (opts a') =? 0)%Z then w else w - w / 2)%Z
  /\ (_initialX (aux a')
      = if (_mirror (opts a') =? -1)%Z && negb (_radial (opts a))
        then w / 2 else 0)%Z.
Proof.
  intros Hw a' w.
  set (m := match value with
            | JS.Fin x => JS.toInt32 (sign x)
            | JS.NaN => 0%Z
            end).
  set (a1 := _calcAux (set_opts a (set_mirror (opts a) m))).
  assert (Ea' : a' = state_of (_calcBars a1)) by reflexivity.
  assert (Ho : opts a' = set_mirror (opts a) m).
  { rewrite Ea'. destruct (_calcBars_opts a1) as [-> _]. unfold a1.
    now destruct (_calcAux_fields (set_opts a (set_mirror (opts a) m)))
      as (-> & _). }
  assert (Ha : aux a' = aux a1).
  { rewrite Ea'. apply _calcBars_aux. apply _calcAux_idem. }
  rewrite Ho, Ha. cbn [_mirror set_mirror].
  split.
  { unfold m. destruct value as [x |]; [apply sign_toInt32 | reflexivity]. }
  unfold a1, _calcAux. cbn [aux set_aux _initialX _analyzerWidth].
  cbn [opts host set_opts _mirror _radial set_mirror].
  fold w. rewrite (shr_1 w) by (unfold w; lia).
  pose proof (Z.div_pos w 2 ltac:(unfold w; lia) ltac:(lia)).
  pose proof (Z.mul_div_le w 2 ltac:(lia)).
  destruct (Z.eqb_spec m 0), (Z.eqb_spec m (-1)), (negb (_radial (opts a)));
    cbn [andb]; repeat split; lia.
Qed.

Lemma mirror_setter_witness :
  let a := blank (hostOf 8192 44100) defaults in
  let a' := state_of (mirror_set a (JS.Fin (-7))) in
  _mirror (opts a') = (-1)%Z /\ _analyzerWidth (aux a') = 320%Z
  /\ _initialX (aux a') = 320%Z.
Proof.
  intros a a'.
  destruct (mirror_setter a (JS.Fin (-7)) ltac:(cbn; lia))
    as (Hm & _ & _ & Hw & Hx).
  fold a' in Hm, Hw, Hx.
  assert (E0 : Rltb 0 (-7) = false) by (apply Rltb_false; lra).
  assert (E1 : Rltb (-7) 0 = true) by (apply Rltb_true; lra).
  rewrite E0, E1 in Hm. rewrite Hm in Hw, Hx.
  split; [exact Hm |]. split; [exact Hw | exact Hx].
Defined.

(** X18.  [set reflexRatio] reads its argument as a number, NaN as 0.  A
    value that is negative, or 1 or more, is rejected with
    ERR_REFLEX_OUT_OF_RANGE.  Any other value is stored, and for a canvas
    height from 0 to below 2^31 the new state has
    0 <= analyzerHeight <= channelHeight <= canvas height. *)
Theorem reflex_ratio_setter (a : Analyzer) (value : JS.num) :
  (0 <= canvas_height (host a) < 2147483648)%Z ->
  let v := orZero value in
  ((v < 0 \/ 1 <= v) ->
   reflexRatio_set a value = inl ERR_REFLEX_OUT_OF_RANGE)
  /\ (0 <= v < 1 ->
      exists r,
        reflexRatio_set a value = inr r
        /\ _reflexRatio (opts (state_of r)) = v
        /\ (0 <= _analyzerHeight (aux (state_of r))
            <= _channelHeight (aux (state_of r)))%Z
        /\ (_channelHeight (aux (state_of r)) <= canvas_height (host a))%Z).
Proof.
  intros Hh v. unfold reflexRatio_set. fold v. split.
  - intros [Hlow | Hhigh].
    + apply Rltb_true in Hlow. now rewrite Hlow.
    + apply Rleb_true in Hhigh. now rewrite Hhigh, orb_true_r.
  - intros [H0 H1].
    assert (E0 : Rltb v 0 = false) by (apply Rltb_false; lra).
    assert (E1 : Rleb 1 v = false) by (apply Rleb_false; lra).
    rewrite E0, E1. cbn [orb].
    set (a1 := set_opts a (set_reflexRatio (opts a) v)).
    exists (_calcLeds (_calcAux a1)). split; [reflexivity |].
    destruct (_calcLeds_opts (_calcAux a1)) as (-> & _ & ->).
    destruct (_calcAux_fields a1) as (-> & _).
    split; [reflexivity |].
    unfold _calcAux.
    cbn [aux set_aux _analyzerHeight _channelHeight].
    cbn [opts host a1 set_opts _stereo _radial _showLeds _lumiBars _mode
         _reflexRatio set_reflexRatio].
    pose proof (channelHeight_bounds
                  (canvas_height (host a))
                  (_stereo (opts a) && negb (_radial (opts a)))
                  (_showLeds (opts a) && isOctaveBands (_mode (opts a))
                   && negb (_radial (opts a))) Hh) as Hch.
    cbv zeta in Hch.
    set (dual := _stereo (opts a) && negb (_radial (opts a))) in *.
    set (ch := JS.shr _ (if dual then 1 else 0)%Z) in *.
    assert (Hch' : (0 <= ch <= canvas_height (host a))%Z)
      by (destruct dual; lia).
    split; [| lia].
    apply toInt32_fraction; [lia |].
    destruct (_ || _); lra.
Qed.

Lemma reflex_ratio_setter_witness :
  let a := blank (hostOf 8192 44100) defaults in
  reflexRatio_set a (JS.Fin 1) = inl ERR_REFLEX_OUT_OF_RANGE
  /\ exists r, reflexRatio_set a (JS.Fin (4 / 10)) = inr r
               /\ _reflexRatio (opts (state_of r)) = 4 / 10.
Proof.
  intros a.
  destruct (reflex_ratio_setter a (JS.Fin 1) ltac:(cbn; lia)) as [Hbad _].
  destruct (reflex_ratio_setter a (JS.Fin (4 / 10)) ltac:(cbn; lia))
    as [_ Hgood].
  split.
  - apply Hbad. right. cbn. lra.
  - destruct Hgood as (r & E & Hv & _); [cbn; lra |].
    exists r. split; [exact E | exact Hv].
Defined.

(** ** The labels of the frequency scale *)

(** The state that a rebuild in discrete mode leaves. *)
Lemma _calcBars_discrete_state (a : Analyzer) :
  _ready (host a) = true -> _isOctaveBands (aux a) = false ->
  isOctaveBands (_mode (opts a)) = false ->
  let minLog := JS.log10 (_minFreq (opts a)) in
  let logWidth :=
    IZR (_analyzerWidth (aux a)) / (JS.log10 (_maxFreq (opts a)) - minLog) in
  let bars := discreteBars (host a) (_minFreq (opts a)) (_maxFreq (opts a))
                           (_analyzerWidth (aux a)) (_initialX (aux a)) in
  _calcBars a
  = Ok (_calcAux (set_scale (set_barWidth (set_bars (set_bars a []) bars) 1)
                            minLog logWidth)).
Proof.
  intros Hr Hx Hm. cbv zeta. unfold _calcBars.
  change (host (set_bars a [])) with (host a).
  change (opts (set_bars a [])) with (opts a).
  change (aux (set_bars a [])) with (aux a).
  rewrite Hr, Hx. cbn [negb]. unfold _calcLeds.
  match goal with
  | |- context [_isOctaveBands (aux (_calcAux ?x))] =>
      destruct (_calcAux_fields x) as (_ & _ & _ & ->)
  end.
  cbn [opts set_scale set_barWidth set_bars]. rewrite Hm. reflexivity.
Qed.

Lemma ln_lt (x y : R) : 0 < x -> x < y -> ln x < ln y.
Proof. intros Hx Hxy. apply ln_increasing; assumption. Qed.

Lemma ln_le_inv (x y : R) : 0 < x -> 0 < y -> ln x <= ln y -> x <= y.
Proof.
  intros Hx Hy H. destruct (Rle_or_lt x y) as [Hle | Hgt]; [exact Hle |].
  pose proof (ln_lt y x Hy Hgt). lra.
Qed.

Lemma scaleLabel_labelOf (a : Analyzer) (f : Z) (c : LabelCall) :
  In c (scaleLabel a f) ->
  labelOf c = f
  /\ 0 <= _logWidth a * (JS.log10 (IZR f) - _minLog a)
       <= IZR (_analyzerWidth (aux a)).
Proof.
  unfold scaleLabel.
  set (x := _logWidth a * (JS.log10 (IZR f) - _minLog a)).
  destruct (Rleb 0 x) eqn:E0; [| intros []].
  destruct (Rleb x (IZR (_analyzerWidth (aux a)))) eqn:E1; [| intros []].
  apply Rleb_true in E0, E1. cbn [andb]. intros Hin.
  split; [| split; assumption].
  repeat (apply in_app_or in Hin; destruct Hin as [Hin | Hin]);
    repeat match type of Hin with
           | In _ (if ?b then _ else _) => destruct b
           | In _ (_ ++ _) => apply in_app_or in Hin; destruct Hin as [Hin | Hin]
           | In _ [_] => destruct Hin as [<- | []]
           | In _ [] => destruct Hin
           end; reflexivity.
Qed.

Lemma ln_le_1 (x : R) : x <= 1 -> ln x <= 0.
Proof.
  intros H. destruct (Rlt_dec 0 x) as [Hp | Hn].
  - rewrite <- ln_1. apply ln_le; assumption.
  - unfold ln. destruct (Rlt_dec 0 x); [contradiction | lra].
Qed.

(** X19.  The labels of the frequency scale after a rebuild in discrete
    mode, for a canvas at least 1 pixel wide and a range that starts at
    1 Hz or above with [log10 minFreq < log10 maxFreq].  The scale starts at
    [log10 minFreq] and has [W / (log10 maxFreq - log10 minFreq)] pixels per
    decade, for the analyzer width [W].  A frequency [f] of the label table
    that is minFreq, or above it by 1 Hz at least, and below maxFreq by 1 Hz
    at least, is written at [initialX + x], where
    [x = logWidth * (log10 f - minLog)] is at least 0 and below [W], and
    has its radial label at [x].  A frequency of the table that is 1 Hz or
    more outside the range has no label. *)
Theorem discrete_scale_labels (a a' : Analyzer) (f : Z) :
  _ready (host a) = true -> isOctaveBands (_mode (opts a)) = false ->
  (1 <= canvas_width (host a) < 2147483648)%Z ->
  1 <= _minFreq (opts a) ->
  JS.log10 (_minFreq (opts a)) < JS.log10 (_maxFreq (opts a)) ->
  _calcBars (_calcAux a) = Ok a' ->
  In f freqLabels ->
  let minFreq := _minFreq (opts a) in
  let maxFreq := _maxFreq (opts a) in
  let W := IZR (_analyzerWidth (aux a')) in
  let x := _logWidth a' * (JS.log10 (IZR f) - _minLog a') in
  _minLog a' = JS.log10 minFreq
  /\ _logWidth a' = W / (JS.log10 maxFreq - JS.log10 minFreq)
  /\ (minFreq = IZR f \/ minFreq + 1 <= IZR f -> IZR f + 1 <= maxFreq ->
      0 <= x < W
      /\ In (FillText f (IZR (_initialX (aux a')) + x)) (_createScales a')
      /\ In (RadialLabel x f) (_createScales a'))
  /\ (IZR f + 1 <= minFreq \/ maxFreq + 1 <= IZR f ->
      forall c, In c (_createScales a') -> labelOf c <> f).
Proof.
  intros Hr Hm Hw Hmin Hlog E Hf minFreq maxFreq.
  set (a1 := _calcAux a) in *.
  assert (Hx1 : _isOctaveBands (aux a1) = false).
  { unfold a1. now destruct (_calcAux_fields a) as (_ & _ & _ & ->). }
  assert (Ho1 : opts a1 = opts a /\ host a1 = host a).
  { unfold a1. destruct (_calcAux_fields a) as (-> & -> & _). now split. }
  destruct Ho1 as [Ho1 Hh1].
  rewrite (_calcBars_discrete_state a1) in E
    by (rewrite ?Hh1, ?Ho1; assumption).
  injection E as <-.
  match goal with
  | |- context [_calcAux ?s] => set (a2 := s)
  end.
  assert (Ea : aux (_calcAux a2) = aux a1).
  { unfold a1. apply _calcAux_depends; [exact Hh1 | exact Ho1]. }
  rewrite Ea. cbv zeta.
  set (W := IZR (_analyzerWidth (aux a1))).
  assert (HW : 1 <= W).
  { unfold W, a1, _calcAux. cbn [aux set_aux _analyzerWidth].
    rewrite shr_1 by lia. apply IZR_le.
    pose proof (Z.mul_div_le (canvas_width (host a)) 2 ltac:(lia)).
    pose proof (Z.div_pos (canvas_width (host a)) 2 ltac:(lia) ltac:(lia)).
    destruct (_mirror (opts a) =? 0)%Z; lia. }
  assert (Hfpos : 16 <= IZR f).
  { assert (16 <= f)%Z.
    { unfold freqLabels in Hf. cbn [In] in Hf.
      repeat (destruct Hf as [<- | Hf]; [lia |]). contradiction. }
    now apply IZR_le in H. }
  fold minFreq in Hmin, Hlog. fold maxFreq in Hlog.
  assert (Hln : ln minFreq < ln maxFreq).
  { unfold JS.log10 in Hlog. pose proof ln_10_pos.
    apply (Rmult_lt_reg_r (/ ln 10)); [now apply Rinv_0_lt_compat |].
    exact Hlog. }
  assert (Hmax : minFreq < maxFreq).
  { assert (0 <= ln minFreq).
    { rewrite <- ln_1. apply ln_le; lra. }
    assert (1 < maxFreq).
    { destruct (Rle_or_lt maxFreq 1) as [Hle | Hgt]; [| exact Hgt].
      pose proof (ln_le_1 maxFreq Hle). lra. }
    apply ln_lt_inv; lra. }
  assert (Emin : _minLog (_calcAux a2) = JS.log10 minFreq).
  { change (_minLog (_calcAux a2)) with (JS.log10 (_minFreq (opts a1))).
    now rewrite Ho1. }
  assert (Ewid : _logWidth (_calcAux a2)
                 = W / (JS.log10 maxFreq - JS.log10 minFreq)).
  { change (_logWidth (_calcAux a2))
      with (W / (JS.log10 (_maxFreq (opts a1)) - JS.log10 (_minFreq (opts a1)))).
    now rewrite Ho1. }
  split; [exact Emin |]. split; [exact Ewid |].
  assert (Ex : _logWidth (_calcAux a2)
               * (JS.log10 (IZR f) - _minLog (_calcAux a2))
               = W * (ln (IZR f) - ln minFreq) / (ln maxFreq - ln minFreq)).
  { rewrite Emin, Ewid. apply log_scale. lra. }
  set (xc := _logWidth (_calcAux a2)
             * (JS.log10 (IZR f) - _minLog (_calcAux a2))) in *.
  assert (Hd : 0 < ln maxFreq - ln minFreq) by lra.
  pose proof (Rinv_0_lt_compat _ Hd) as Hdi.
  assert (Exd : xc * (ln maxFreq - ln minFreq)
                = W * (ln (IZR f) - ln minFreq)).
  { rewrite Ex. field. lra. }
  assert (Hx0 : 0 <= xc <-> minFreq <= IZR f).
  { split.
    - intros H0. apply ln_le_inv; [lra | lra |]. nra.
    - intros H0. pose proof (ln_le minFreq (IZR f) ltac:(lra) H0).
      rewrite Ex. unfold Rdiv. apply Rmult_le_pos; [| lra]. nra. }
  assert (HxW : xc <= W <-> IZR f <= maxFreq).
  { split.
    - intros H0. apply ln_le_inv; [lra | lra |]. nra.
    - intros H0. pose proof (ln_le (IZR f) maxFreq ltac:(lra) H0).
      apply (Rmult_le_reg_r (ln maxFreq - ln minFreq)); [lra |]. nra. }
  split.
  - intros Hlo Hhi.
    assert (H0 : 0 <= xc) by (apply Hx0; lra).
    assert (H1 : xc < W).
    { pose proof (ln_lt (IZR f) maxFreq ltac:(lra) ltac:(lra)).
      apply (Rmult_lt_reg_r (ln maxFreq - ln minFreq)); [lra |]. nra. }
    split; [split; assumption |].
    assert (Hlab : scaleLabel (_calcAux a2) f
                   = [FillText f (IZR (_initialX (aux a1)) + xc)]
                     ++ [RadialLabel xc f]
                     ++ (if (_mirror (opts (_calcAux a2)) =? 0)%Z then []
                         else
                           [FillText f
                              (IZR (if (_initialX (aux a1) =? 0)%Z
                                    then canvas_width (host (_calcAux a2))
                                    else _initialX (aux a1)) - xc)]
                           ++ (if Rltb 10 xc then [RadialLabel (- xc) f]
                               else []))).
    { unfold scaleLabel. fold xc. rewrite Ea. fold W.
      assert (H1' : xc <= W) by lra.
      apply Rleb_true in H0, H1'. apply Rltb_true in H1.
      rewrite H0, H1', H1. reflexivity. }
    split; unfold _createScales; apply in_flat_map; exists f;
      (split; [exact Hf |]); rewrite Hlab.
    + now left.
    + right. now left.
  - intros Hout c Hc Hlab.
    unfold _createScales in Hc. apply in_flat_map in Hc.
    destruct Hc as (g & _ & Hc).
    apply scaleLabel_labelOf in Hc. destruct Hc as [Eg Hc].
    rewrite Hlab in Eg. subst g. fold xc in Hc. rewrite Ea in Hc.
    fold W in Hc.
    destruct Hc as [H0 H1]. apply Hx0 in H0. apply HxW in H1. lra.
Qed.

Lemma discrete_scale_labels_witness :
  let a := blank (hostOf 8192 44100) defaults in
  exists a',
    _calcBars (_calcAux a) = Ok a'
    /\ forall c, In c (_createScales a') -> labelOf c <> 16%Z.
Proof.
  intros a.
  destruct (_calcBars_discrete_ok (_calcAux a)) as (a' & E);
    try reflexivity.
  exists a'. split; [exact E |].
  apply (discrete_scale_labels a a' 16); try reflexivity; try exact E.
  - cbn. lia.
  - cbn. lra.
  - cbn. apply log10_lt; lra.
  - cbn. now left.
  - left. cbn. lra.
Defined.

(** ** The output connections *)

Lemma existsb_eqb_In (n : nat) (l : list nat) :
  existsb (Nat.eqb n) l = true <-> In n l.
Proof.
  rewrite existsb_exists. split.
  - intros (x & Hx & E). apply Nat.eqb_eq in E. now subst.
  - intros H. exists n. split; [exact H | apply Nat.eqb_refl].
Qed.

Lemma filter_out_absent (n : nat) (l : list nat) :
  ~ In n l -> filter (fun e => negb (e =? n)%nat) l = l.
Proof.
  induction l as [| x l IH]; intros Hn; cbn [filter]; [reflexivity |].
  destruct (Nat.eqb_spec x n) as [-> | _]; cbn [negb].
  - exfalso. apply Hn. now left.
  - rewrite IH; [reflexivity |]. intros H. apply Hn. now right.
Qed.

Lemma connectOutput_inv (destination : Node) (o : Outputs)
                         (node : option Node) :
  outputsInv o -> outputsInv (connectOutput destination o node).
Proof.
  destruct o as [nodes a0 a1]. unfold outputsInv, connectOutput.
  cbn [_outNodes analyzer0 analyzer1]. intros (Hnd & -> & ->).
  set (n := match node with Some n => n | None => destination end).
  destruct (existsb (Nat.eqb n) nodes) eqn:E;
    cbn [_outNodes analyzer0 analyzer1]; [now repeat split |].
  assert (Hn : ~ In n nodes).
  { intros H. apply existsb_eqb_In in H. congruence. }
  assert (Hnd' : NoDup (nodes ++ [n])).
  { apply NoDup_app; [exact Hnd | repeat constructor; intros [] |].
    intros x Hx [<- | []]. contradiction. }
  rewrite length_app. cbn [List.length]. rewrite Nat.add_1_r.
  cbn [Nat.eqb].
  destruct (List.length nodes =? 0)%nat;
    cbn [_outNodes analyzer0 analyzer1]; rewrite length_app;
    cbn [List.length]; rewrite Nat.add_1_r; cbn [Nat.eqb negb];
    now repeat split.
Qed.

Lemma disconnectOutput_inv (o : Outputs) (node : option Node) :
  outputsInv o -> outputsInv (disconnectOutput o node).
Proof.
  destruct o as [nodes a0 a1]. unfold outputsInv, disconnectOutput.
  cbn [_outNodes analyzer0 analyzer1]. intros (Hnd & -> & ->).
  destruct node as [n |]; [| split; [constructor | now split]].
  destruct (existsb (Nat.eqb n) nodes); cbn [negb];
    cbn [_outNodes analyzer0 analyzer1]; [| now repeat split].
  unfold Node in *.
  set (l := filter (fun e => negb (e =? n)%nat) nodes).
  assert (Hl : NoDup l) by now apply NoDup_filter.
  destruct (Nat.eqb_spec (List.length l) 0) as [E | E];
    cbn [_outNodes analyzer0 analyzer1].
  - split; [exact Hl |]. rewrite E. now split.
  - apply Nat.eqb_neq in E.
    destruct nodes as [| z t]; [unfold l in E; cbn in E; discriminate |].
    split; [exact Hl |]. rewrite E. now split.
Qed.

Lemma stereo_rewire_inv (o : Outputs) :
  outputsInv o -> outputsInv (stereo_rewire o).
Proof.
  destruct o as [nodes a0 a1]. unfold outputsInv, stereo_rewire.
  cbn [_outNodes analyzer0 analyzer1]. intros (Hnd & _ & ->).
  split; [exact Hnd |]. split; [| reflexivity].
  now destruct (List.length nodes =? 0)%nat.
Qed.

Lemma outputsAfter_inv (destination : Node) (calls : list OutputCall) :
  outputsInv (outputsAfter destination calls).
Proof.
  unfold outputsAfter.
  assert (K : forall cs o, outputsInv o ->
                outputsInv (fold_left (outputStep destination) cs o)).
  { induction cs as [| c cs IH]; intros o Ho; cbn [fold_left];
      [exact Ho |].
    apply IH. destruct c; cbn [outputStep].
    - now apply connectOutput_inv.
    - now apply disconnectOutput_inv.
    - now apply stereo_rewire_inv. }
  apply K. split; [constructor | now split].
Qed.

(** X21.  After the constructor and any sequence of [connectOutput],
    [disconnectOutput] and changes of [stereo], [_outNodes] holds no node
    twice, and each of the two analyzer nodes is connected exactly when
    [_outNodes] is not empty.  Connecting a node that is not in the list and
    disconnecting it gives back the state before; connecting a node twice is
    connecting it once. *)
Theorem output_nodes_bookkeeping (destination : Node)
                                 (calls : list OutputCall) :
  let o := outputsAfter destination calls in
  let connected := negb (List.length (_outNodes o) =? 0)%nat in
  NoDup (_outNodes o)
  /\ analyzer0 o = connected /\ analyzer1 o = connected
  /\ (forall n, ~ In n (_outNodes o) ->
        disconnectOutput (connectOutput destination o (Some n)) (Some n) = o)
  /\ (forall n, connectOutput destination
                  (connectOutput destination o (Some n)) (Some n)
                = connectOutput destination o (Some n)).
Proof.
  destruct (outputsAfter_inv destination calls) as (Hnd & H0 & H1).
  cbv zeta.
  set (o := outputsAfter destination calls) in *.
  split; [exact Hnd |]. split; [exact H0 |]. split; [exact H1 |]. split.
  - intros n Hn. unfold connectOutput.
    assert (E : existsb (Nat.eqb n) (_outNodes o) = false).
    { destruct (existsb (Nat.eqb n) (_outNodes o)) eqn:E; [| reflexivity].
      apply existsb_eqb_In in E. contradiction. }
    rewrite E. unfold disconnectOutput.
    assert (Ef : filter (fun e => negb (e =? n)%nat) (_outNodes o ++ [n])
                 = _outNodes o).
    { rewrite filter_app, filter_out_absent by exact Hn.
      cbn [filter]. rewrite Nat.eqb_refl. cbn [negb]. apply app_nil_r. }
    assert (Ei : existsb (Nat.eqb n) (_outNodes o ++ [n]) = true).
    { apply existsb_eqb_In, in_or_app. right. now left. }
    destruct o as [nodes a0 a1]. cbn [_outNodes analyzer0 analyzer1] in *.
    destruct (Nat.eqb_spec (List.length (nodes ++ [n])) 1) as [E1 | E1];
      cbn [_outNodes analyzer0 analyzer1]; rewrite Ei, Ef; cbn [negb].
    + rewrite length_app in E1. cbn [List.length] in E1.
      destruct nodes as [| y l]; [| cbn [List.length] in E1; lia].
      cbn in *. now subst.
    + destruct nodes as [| y l].
      * contradiction E1. reflexivity.
      * reflexivity.
  - intros n. unfold connectOutput at 1.
    destruct (existsb (Nat.eqb n) (_outNodes (connectOutput destination o
                                                (Some n)))) eqn:E;
      [reflexivity |].
    exfalso. assert (In n (_outNodes (connectOutput destination o (Some n)))).
    { unfold connectOutput.
      destruct (existsb (Nat.eqb n) (_outNodes o)) eqn:E0.
      - now apply existsb_eqb_In.
      - destruct (_ =? 1)%nat; cbn [_outNodes]; apply in_or_app; right;
          now left. }
    apply existsb_eqb_In in H. congruence.
Qed.

(** ** The energy of a range of frequencies *)

Lemma sumBins_byte (fftData : list Z) (n : nat) :
  Forall byte fftData ->
  forall (i : Z) (acc : R),
    (0 <= i)%Z -> (i + Z.of_nat n <= Z.of_nat (List.length fftData))%Z ->
    exists v, sumBins fftData n i (JS.Fin acc) = JS.Fin v
              /\ acc <= v <= acc + 255 * INR n.
Proof.
  intros Hb. induction n as [| n IH]; intros i acc H0 H1.
  - exists acc. split; [reflexivity |]. simpl. lra.
  - cbn [sumBins].
    destruct (fft_byte fftData Hb i ltac:(lia)) as (x & -> & Hx).
    destruct (IH (i + 1)%Z (acc + x) ltac:(lia) ltac:(lia)) as (v & -> & Hv).
    exists v. split; [reflexivity |]. rewrite S_INR. lra.
Qed.

Lemma _freqToBin_nonneg (h : Host) (f : R) :
  0 < sampleRate h -> (2 <= fftSize h)%Z -> 0 <= f ->
  (0 <= _freqToBin h f round)%Z.
Proof.
  intros Hs Hn Hf. unfold _freqToBin.
  assert (1 <= frequencyBinCount h)%Z
    by (unfold frequencyBinCount; apply Z.div_le_lower_bound; lia).
  destruct (Z.ltb_spec (Math round (f * IZR (fftSize h) / sampleRate h))
                       (frequencyBinCount h - 1)); [| lia].
  unfold Math, JS.round. apply Zfloor_lub. simpl.
  assert (0 < IZR (fftSize h)) by (apply IZR_lt; lia).
  pose proof (Rinv_0_lt_compat _ Hs).
  assert (0 <= f * IZR (fftSize h) / sampleRate h)
    by (unfold Rdiv; apply Rmult_le_pos; [nra | lra]).
  lra.
Qed.

Lemma binsEnergy_byte (a : Analyzer) (startBin endBin : Z) :
  Forall byte (fst (_fftData a)) -> Forall byte (snd (_fftData a)) ->
  (0 <= startBin <= endBin)%Z ->
  (endBin < Z.of_nat (List.length (fst (_fftData a))))%Z ->
  (endBin < Z.of_nat (List.length (snd (_fftData a))))%Z ->
  exists v, binsEnergy a startBin endBin = JS.Fin v /\ 0 <= v <= 1.
Proof.
  intros Hb0 Hb1 Hbins Hl0 Hl1. unfold binsEnergy.
  set (n := Z.to_nat (endBin - startBin + 1)).
  assert (Hn : IZR (endBin - startBin + 1) = INR n).
  { unfold n. rewrite INR_IZR_INZ, Z2Nat.id by lia. reflexivity. }
  assert (Hn1 : 1 <= INR n).
  { rewrite <- Hn. apply IZR_le. lia. }
  destruct (sumBins_byte (fst (_fftData a)) n Hb0 startBin 0
              ltac:(lia) ltac:(lia)) as (v0 & -> & Hv0).
  destruct (Z.eqb_spec (endBin - startBin + 1) 0) as [E | _]; [lia |].
  pose proof (Rinv_0_lt_compat (INR n) ltac:(lra)) as Hni.
  destruct (_stereo (opts a)).
  - destruct (sumBins_byte (snd (_fftData a)) n Hb1 startBin v0
                ltac:(lia) ltac:(lia)) as (v1 & -> & Hv1).
    eexists. split; [reflexivity |]. rewrite Hn.
    assert (0 <= v1 / INR n <= 510).
    { split.
      - unfold Rdiv. apply Rmult_le_pos; lra.
      - apply (Rmult_le_reg_r (INR n)); [lra |].
        replace (v1 / INR n * INR n) with v1 by (field; lra). lra. }
    lra.
  - eexists. split; [reflexivity |]. rewrite Hn.
    assert (0 <= v0 / INR n <= 255).
    { split.
      - unfold Rdiv. apply Rmult_le_pos; lra.
      - apply (Rmult_le_reg_r (INR n)); [lra |].
        replace (v0 / INR n * INR n) with v0 by (field; lra). lra. }
    lra.
Qed.

(** X22.  [getEnergy] on numbers: for a positive sample rate, an fftSize
    of 2 at least, two FFT arrays of frequencyBinCount bytes, a start
    frequency that is not negative and an end frequency, if any, that is not
    below it, the answer is a number within 0..1, and the analyzer is left as
    it was. *)
Theorem energy_of_a_range_between_0_and_1
        (a : Analyzer) (startFreq : R) (endFreq : option R) :
  0 < sampleRate (host a) -> (2 <= fftSize (host a))%Z ->
  Forall byte (fst (_fftData a)) -> Forall byte (snd (_fftData a)) ->
  Z.of_nat (List.length (fst (_fftData a))) = frequencyBinCount (host a) ->
  Z.of_nat (List.length (snd (_fftData a))) = frequencyBinCount (host a) ->
  0 <= startFreq ->
  (forall e, endFreq = Some e -> startFreq <= e) ->
  exists v,
    getEnergy a (Number startFreq) endFreq = (a, Return (Num (JS.Fin v)))
    /\ 0 <= v <= 1.
Proof.
  intros Hs Hn Hb0 Hb1 Hl0 Hl1 Hstart Hend.
  cbn [getEnergy]. unfold rangeEnergy.
  set (startBin := _freqToBin (host a) startFreq round).
  set (endBin := match endFreq with
                 | Some e => if Req_dec_T e 0 then startBin
                             else _freqToBin (host a) e round
                 | None => startBin
                 end).
  assert (H0 : (0 <= startBin)%Z) by now apply _freqToBin_nonneg.
  assert (H1 : (startBin <= endBin)%Z).
  { unfold endBin. destruct endFreq as [e |]; [| lia].
    destruct (Req_dec_T e 0); [lia |].
    apply _freqToBin_mono; [exact Hs | lia | now apply Hend]. }
  assert (H2 : (endBin <= frequencyBinCount (host a) - 1)%Z).
  { unfold endBin. destruct endFreq as [e |];
      [destruct (Req_dec_T e 0) |]; apply _freqToBin_le_max. }
  destruct (binsEnergy_byte a startBin endBin Hb0 Hb1 ltac:(lia)
              ltac:(lia) ltac:(lia)) as (v & -> & Hv).
  exists v. now split.
Qed.

Lemma energy_of_a_range_between_0_and_1_witness :
  let a := blank (hostOf 8192 44100) defaults in
  exists v, getEnergy a (Number 20) (Some 250)
            = (a, Return (Num (JS.Fin v)))
            /\ 0 <= v <= 1.
Proof.
  intros a.
  assert (Hz : Forall byte (repeat 0%Z (Z.to_nat 4096))).
  { apply Forall_forall. intros x Hx. apply repeat_spec in Hx. subst.
    unfold byte. lia. }
  apply (energy_of_a_range_between_0_and_1 a 20 (Some 250)).
  - cbn. lra.
  - cbn. lia.
  - exact Hz.
  - exact Hz.
  - cbn [a blank _fftData fst]. rewrite repeat_length. reflexivity.
  - cbn [a blank _fftData snd]. rewrite repeat_length. reflexivity.
  - lra.
  - intros e E. injection E as <-. lra.
Defined.

(** ** The color stops of the gradient *)

Lemma in_concat_mapi_from {A B} (f : nat -> A -> list B) (l : list A) (y : B) :
  forall s, In y (List.concat (mapi_from f s l)) ->
            exists i x, nth_error l i = Some x /\ In y (f (s + i)%nat x).
Proof.
  induction l as [| x l IH]; intros s Hy; cbn [mapi_from List.concat] in Hy;
    [contradiction |].
  apply in_app_or in Hy. destruct Hy as [Hy | Hy].
  - exists 0%nat, x. split; [reflexivity |]. now rewrite Nat.add_0_r.
  - destruct (IH (S s) Hy) as (i & x' & E & Hin).
    exists (S i), x'. split; [exact E |].
    now replace (s + S i)%nat with (S s + i)%nat by lia.
Qed.

Section ColorStops.
Variable a : Analyzer.
Variables splitGradient isHorizontal : bool.
Variable colorStops : list ColorStop.
Hypothesis reflex_range : 0 <= _reflexRatio (opts a) < 1.
Hypothesis two_colors : (2 <= List.length colorStops)%nat.
Hypothesis positions :
  Forall (fun c => forall p, pos_of c = Some p -> 0 <= p <= 1) colorStops.

Lemma stopPos_range (index : nat) (c : ColorStop) :
  (index <= List.length colorStops - 1)%nat -> In c colorStops ->
  0 <= stopPos colorStops index c <= 1.
Proof.
  intros Hi Hc. unfold stopPos.
  destruct (pos_of c) as [p |] eqn:E.
  - rewrite Forall_forall in positions. now apply (positions c Hc).
  - assert (Hm : 1 <= INR (List.length colorStops - 1)).
    { change 1 with (INR 1). apply le_INR. lia. }
    apply le_INR in Hi. pose proof (pos_INR index).
    pose proof (Rinv_0_lt_compat (INR (List.length colorStops - 1))
                  ltac:(lra)).
    split.
    + unfold Rdiv. apply Rmult_le_pos; lra.
    + apply (Rmult_le_reg_r (INR (List.length colorStops - 1))); [lra |].
      replace (INR index / INR (List.length colorStops - 1)
               * INR (List.length colorStops - 1))
        with (INR index) by (field; lra).
      lra.
Qed.

Lemma colorStopCalls_range (channel index : nat) (c : ColorStop) :
  nth_error colorStops index = Some c ->
  let dual := _stereo (opts a) && negb splitGradient && negb isHorizontal in
  (channel = 0%nat \/ (channel = 1%nat /\ dual = true)) ->
  Forall (fun call =>
            0 <= fst call <= 1
            /\ (dual = true -> channel = 0%nat -> fst call <= 1 / 2)
            /\ (channel = 1%nat -> 1 / 2 <= fst call)
            /\ In (snd call) colorStops)
         (colorStopCalls a splitGradient isHorizontal colorStops
                         channel index c).
Proof.
  intros Ec dual Hch.
  assert (Hi : (index <= List.length colorStops - 1)%nat).
  { assert (index < List.length colorStops)%nat
      by (apply nth_error_Some; congruence).
    lia. }
  assert (Hc : In c colorStops) by (eapply nth_error_In; exact Ec).
  pose proof (stopPos_range index c Hi Hc) as Hp.
  set (rev := (List.length colorStops - 1 - index)%nat).
  assert (Hr : In (nth rev colorStops c) colorStops)
    by (apply nth_In; unfold rev; lia).
  pose proof (stopPos_range rev (nth rev colorStops c)
                ltac:(unfold rev; lia) Hr) as Hq.
  unfold colorStopCalls. cbv zeta. fold rev.
  set (p := stopPos colorStops index c) in *.
  set (q := stopPos colorStops rev (nth rev colorStops c)) in *.
  set (rr := _reflexRatio (opts a)) in *.
  assert (Hu : 0 <= p * (1 - rr) <= 1 - rr) by nra.
  assert (Hu2 : 0 <= p / 2 * (1 - rr) <= (1 - rr) / 2) by nra.
  unfold dual in *. clear dual.
  destruct Hch as [-> | [-> Hd]];
    destruct (_stereo (opts a)), splitGradient, isHorizontal,
             (_radial (opts a)), (_isLumiBars (aux a));
    cbn [andb orb negb Nat.eqb] in *; try discriminate;
    repeat match goal with
           | |- context [Rltb ?x ?y] =>
               let E := fresh "E" in
               destruct (Rltb x y) eqn:E;
               [apply Rltb_true in E | apply Rltb_false in E]
           | |- context [(?i =? ?j)%nat] => destruct (i =? j)%nat
           end;
    cbn [app andb];
    repeat (apply Forall_cons || apply Forall_nil);
    cbn [fst snd];
    set (u := p * (1 - rr)) in *; set (u2 := p / 2 * (1 - rr)) in *;
    (split; [lra |]; split; [intros; try discriminate; try lra |];
     split; [intros; try discriminate; try lra | assumption]).
Qed.

Lemma channelStops_range (channel : nat) :
  let dual := _stereo (opts a) && negb splitGradient && negb isHorizontal in
  (channel = 0%nat \/ (channel = 1%nat /\ dual = true)) ->
  Forall (fun call =>
            0 <= fst call <= 1
            /\ (dual = true -> channel = 0%nat -> fst call <= 1 / 2)
            /\ (channel = 1%nat -> 1 / 2 <= fst call)
            /\ In (snd call) colorStops)
         (channelStops a splitGradient isHorizontal colorStops channel).
Proof.
  intros dual Hch. apply Forall_forall. intros call Hin.
  unfold channelStops in Hin. apply in_concat_mapi_from in Hin.
  destruct Hin as (i & c & Ec & Hin). cbn [Nat.add] in Hin.
  pose proof (colorStopCalls_range channel i c Ec Hch) as Hall.
  rewrite Forall_forall in Hall. now apply Hall.
Qed.
End ColorStops.

(** X23.  The calls of [addColorStop] that [_makeGrad] makes, for a
    reflex ratio that is at least 0 and below 1 and a gradient of two colors
    at least whose given positions are within 0..1: every offset is within
    0..1, and every color is one of the gradient.  When the gradient is
    repeated for the two channels, the offsets of channel 0 are at most 1/2
    and those of channel 1 at least 1/2. *)
Theorem color_stops_within_the_gradient
        (a : Analyzer) (splitGradient isHorizontal : bool)
        (colorStops : list ColorStop) :
  0 <= _reflexRatio (opts a) < 1 ->
  (2 <= List.length colorStops)%nat ->
  Forall (fun c => forall p, pos_of c = Some p -> 0 <= p <= 1) colorStops ->
  let dual := _stereo (opts a) && negb splitGradient && negb isHorizontal in
  Forall (fun call => 0 <= fst call <= 1 /\ In (snd call) colorStops)
         (_makeGrad a splitGradient isHorizontal colorStops)
  /\ (dual = true ->
      Forall (fun call => fst call <= 1 / 2)
             (channelStops a splitGradient isHorizontal colorStops 0)
      /\ Forall (fun call => 1 / 2 <= fst call)
                (channelStops a splitGradient isHorizontal colorStops 1)).
Proof.
  intros Hr Hn Hp dual.
  pose proof (channelStops_range a splitGradient isHorizontal colorStops
                Hr Hn Hp 0 ltac:(now left)) as H0.
  split.
  - unfold _makeGrad. destruct (negb (_ready (host a))); [constructor |].
    fold dual. apply Forall_app. split.
    + revert H0. apply Forall_impl. intros call (Hc & _ & _ & Hin).
      now split.
    + destruct dual eqn:Ed; [| constructor].
      pose proof (channelStops_range a splitGradient isHorizontal colorStops
                    Hr Hn Hp 1 ltac:(right; now split)) as H1.
      revert H1. apply Forall_impl. intros call (Hc & _ & _ & Hin).
      now split.
  - intros Ed. split.
    + revert H0. apply Forall_impl. intros call (_ & Hc & _).
      now apply Hc.
    + pose proof (channelStops_range a splitGradient isHorizontal colorStops
                    Hr Hn Hp 1 ltac:(right; now split)) as H1.
      revert H1. apply Forall_impl. intros call (_ & _ & Hc & _).
      now apply Hc.
Qed.

Lemma color_stops_within_the_gradient_witness :
  let classic := [Color "hsl( 0, 100%, 50% )";
                  Stop (Some (6 / 10)) "hsl( 60, 100%, 50% )";
                  Color "hsl( 120, 100%, 50% )"] in
  let a := blank (hostOf 8192 44100) defaults in
  Forall (fun call => 0 <= fst call <= 1 /\ In (snd call) classic)
         (_makeGrad a false false classic).
Proof.
  intros classic a.
  apply (color_stops_within_the_gradient a false false classic).
  - cbn. lra.
  - cbn. lia.
  - unfold classic.
    apply Forall_cons; [intros p E; discriminate |].
    apply Forall_cons; [intros p E; injection E as <-; lra |].
    apply Forall_cons; [intros p E; discriminate | apply Forall_nil].
Defined.

(** ** The default LED parameters *)




(** ** A new FFT size *)

Lemma _calcLeds_fftData (a : Analyzer) :
  _fftData (state_of (_calcLeds a)) = _fftData a.
Proof. now destruct (_calcLeds_host a) as (_ & _ & _ & ->). Qed.

Lemma _calcBars_fftData (a : Analyzer) :
  _fftData (state_of (_calcBars a)) = _fftData a.
Proof.
  unfold _calcBars.
  change (host (set_bars a [])) with (host a).
  change (opts (set_bars a [])) with (opts a).
  change (aux (set_bars a [])) with (aux a).
  destruct (negb (_ready (host a))); [reflexivity |].
  destruct (_isOctaveBands (aux a)).
  - destruct (at_ stepsTable (_mode (opts a))) as [steps |]; [| reflexivity].
    destruct (octaveBars (host a) (_minFreq (opts a)) (_maxFreq (opts a)) steps)
      as [bars | bars]; [| reflexivity].
    destruct (placeBars _ _ bars) as [| first placed]; [reflexivity |].
    now rewrite _calcLeds_fftData.
  - now rewrite _calcLeds_fftData.
Qed.

Lemma sumBins_silence (len n : nat) :
  forall (i : Z) (acc : R),
    (0 <= i)%Z -> (i + Z.of_nat n <= Z.of_nat len)%Z ->
    sumBins (silence len) n i (JS.Fin acc) = JS.Fin acc.
Proof.
  induction n as [| n IH]; intros i acc H0 H1; cbn [sumBins];
    [reflexivity |].
  rewrite fft_silence by lia. rewrite Rplus_0_r. apply IH; lia.
Qed.

(** X25.  [set fftSize], for a positive sample rate and a value of 2 at
    least: whether the rebuild then succeeds or throws, the FFT size is the
    value, the two FFT arrays are value / 2 zeros each, every bar is a new
    one (no peak on either channel), and [getEnergy] answers 0 for every
    range of frequencies that are not negative. *)
Theorem fft_size_change_clears_the_data
        (a : Analyzer) (value : Z) (startFreq : R) (endFreq : option R) :
  0 < sampleRate (host a) -> (2 <= value)%Z ->
  0 <= startFreq -> (forall e, endFreq = Some e -> startFreq <= e) ->
  let a' := state_of (fftSize_set a value) in
  fftSize (host a') = value
  /\ _fftData a' = (repeat 0%Z (Z.to_nat (value / 2)),
                    repeat 0%Z (Z.to_nat (value / 2)))
  /\ Forall fresh (_bars a')
  /\ getEnergy a' (Number startFreq) endFreq
     = (a', Return (Num (JS.Fin 0))).
Proof.
  intros Hs Hv Hstart Hend a'. unfold a', fftSize_set.
  match goal with
  | |- context [_calcBars ?x] => set (a0 := x)
  end.
  assert (Hh : host (state_of (_calcBars a0)) = set_fftSize (host a) value)
    by now destruct (_calcBars_opts a0) as [_ ->].
  assert (Hd : _fftData (state_of (_calcBars a0))
               = (silence (Z.to_nat (value / 2)),
                  silence (Z.to_nat (value / 2))))
    by now rewrite _calcBars_fftData.
  split; [now rewrite Hh |]. split; [exact Hd |].
  split; [apply _calcBars_fresh |].
  set (b := state_of (_calcBars a0)) in *.
  cbn [getEnergy]. unfold rangeEnergy.
  set (startBin := _freqToBin (host b) startFreq round).
  set (endBin := match endFreq with
                 | Some e => if Req_dec_T e 0 then startBin
                             else _freqToBin (host b) e round
                 | None => startBin
                 end).
  assert (Hs' : 0 < sampleRate (host b)) by now rewrite Hh.
  assert (Hn' : (2 <= fftSize (host b))%Z) by now rewrite Hh.
  assert (H0 : (0 <= startBin)%Z) by now apply _freqToBin_nonneg.
  assert (H1 : (startBin <= endBin)%Z).
  { unfold endBin. destruct endFreq as [e |]; [| lia].
    destruct (Req_dec_T e 0); [lia |].
    apply _freqToBin_mono; [exact Hs' | lia | now apply Hend]. }
  assert (H2 : (endBin <= value / 2 - 1)%Z).
  { assert (E : frequencyBinCount (host b) = (value / 2)%Z)
      by now rewrite Hh.
    rewrite <- E. unfold endBin. destruct endFreq as [e |];
      [destruct (Req_dec_T e 0) |]; apply _freqToBin_le_max. }
  f_equal. f_equal. f_equal. unfold binsEnergy. rewrite Hd. cbn [fst snd].
  assert (Hlen : (endBin + 1 <= Z.of_nat (Z.to_nat (value / 2)))%Z).
  { pose proof (Z.div_pos value 2 ltac:(lia) ltac:(lia)). lia. }
  rewrite !sumBins_silence by lia.
  destruct (Z.eqb_spec (endBin - startBin + 1) 0) as [E | _]; [lia |].
  destruct (_stereo (opts b)); f_equal; unfold Rdiv; ring.
Qed.

Lemma fft_size_change_clears_the_data_witness :
  let a := blank (hostOf 8192 44100) defaults in
  let a' := state_of (fftSize_set a 2048) in
  getEnergy a' (Number 20) (Some 250) = (a', Return (Num (JS.Fin 0))).
Proof.
  intros a a'.
  apply (fft_size_change_clears_the_data a 2048 20 (Some 250)).
  - cbn. lra.
  - lia.
  - lra.
  - intros e E. injection E as <-. lra.
Defined.

(** ** The gradients *)

Lemma own_assign_same (l : list (string * Gradient)) (name : string)
                      (g : Gradient) :
  own (assign l name g) name = Some g.
Proof.
  induction l as [| [n g'] l IH]; cbn [assign own].
  - now rewrite String.eqb_refl.
  - destruct (String.eqb n name) eqn:E; cbn [own]; rewrite E;
      [reflexivity | exact IH].
Qed.

Lemma own_assign_other (l : list (string * Gradient)) (name other : string)
                       (g : Gradient) :
  other <> name -> own (assign l name g) other = own l other.
Proof.
  intros Hne. induction l as [| [n g'] l IH]; cbn [assign own].
  - destruct (String.eqb_spec name other) as [-> | _];
      [contradiction | reflexivity].
  - destruct (String.eqb_spec n name) as [-> | Hn]; cbn [own].
    + destruct (String.eqb_spec name other) as [-> | _];
        [contradiction | reflexivity].
    + now rewrite IH.
Qed.

Lemma assign_twoColors (l : list (string * Gradient)) (name : string)
                       (g : Gradient) :
  (2 <= List.length (gradient_colorStops g))%nat ->
  twoColors l -> twoColors (assign l name g).
Proof.
  intros Hg. unfold twoColors.
  induction l as [| [n g'] l IH]; intros Hl; cbn [assign].
  - now repeat constructor.
  - inversion Hl as [| ? ? H1 H2]; subst.
    destruct (String.eqb n name); constructor; try assumption.
    now apply IH.
Qed.

(** X26.  [registerGradient] with a name that is not blank and is not
    [__proto__], and with options that hold two color stops at least.  The
    gradient is stored under the name, with these color stops and a
    background color that is not empty; the selected gradient and the
    gradients of the other names stay as they were; and if every gradient had
    two colors at least before, every gradient has after.  [set gradient]
    then accepts the name, unless a gradient is named [hasOwnProperty]: once
    such a gradient is registered, every call of [set gradient] throws a
    TypeError. *)
Theorem registered_gradient_can_be_selected
        (s : Gradients) (name : string) (options : GradientOptions)
        (stops : list ColorStop) :
  blankName name = false ->
  colorStops options = Some stops -> (2 <= List.length stops)%nat ->
  name <> "__proto__"%string ->
  exists s' g,
    registerGradient s (Str name) (Some options) = inr s'
    /\ own (_gradients s') name = Some g
    /\ gradient_colorStops g = stops
    /\ gradient_bgColor g <> ""%string
    /\ _gradient s' = _gradient s
    /\ (forall other, other <> name ->
          own (_gradients s') other = own (_gradients s) other)
    /\ (twoColors (_gradients s) -> twoColors (_gradients s'))
    /\ (name <> "hasOwnProperty"%string ->
        own (_gradients s) "hasOwnProperty" = None ->
        gradient_set s' name = inr (mkGradients (_gradients s') name))
    /\ (name = "hasOwnProperty"%string ->
        forall value, gradient_set s' value = inl NotAFunction).
Proof.
  intros Hb Ec Hn Hp. unfold registerGradient. rewrite Hb, Ec.
  destruct (Nat.ltb_spec (List.length stops) 2) as [Hlt | _]; [lia |].
  destruct (String.eqb_spec name "__proto__") as [E | _]; [contradiction |].
  set (bg := match bgColor options with
             | Some c => if String.eqb c "" then "#111"%string else c
             | None => "#111"%string
             end).
  set (g := mkGradient bg (dir options) stops).
  exists (mkGradients (assign (_gradients s) name g) (_gradient s)), g.
  cbn [_gradients _gradient].
  split; [reflexivity |]. split; [apply own_assign_same |].
  split; [reflexivity |]. split.
  { cbn [g gradient_bgColor]. unfold bg.
    destruct (bgColor options) as [c |]; [| discriminate].
    destruct (String.eqb_spec c ""); [discriminate | assumption]. }
  split; [reflexivity |]. split.
  { intros other Ho. now apply own_assign_other. }
  split.
  { now apply assign_twoColors. }
  split.
  - intros Hh Hnone. unfold gradient_set. cbn [_gradients].
    rewrite own_assign_other by (intros E; now apply Hh).
    rewrite Hnone, own_assign_same. reflexivity.
  - intros -> value. unfold gradient_set. cbn [_gradients].
    now rewrite own_assign_same.
Qed.

Lemma registered_gradient_can_be_selected_witness :
  let stops := [Color "red"; Color "blue"] in
  exists s',
    registerGradient builtin (Str "duo")
                     (Some (mkGradientOptions None None (Some stops)))
    = inr s'
    /\ gradient_set s' "duo" = inr (mkGradients (_gradients s') "duo").
Proof.
  intros stops.
  destruct (registered_gradient_can_be_selected
              builtin "duo" (mkGradientOptions None None (Some stops)) stops)
    as (s' & g & E & _ & _ & _ & _ & _ & _ & Hsel & _);
    try reflexivity; try discriminate.
  exists s'. split; [exact E |].
  apply Hsel; [discriminate | reflexivity].
Defined.

(** ** A range given upside down *)

Lemma bands_reversed (h : Host) (minFreq maxFreq : R) (steps : Z)
                     (fuel : nat) :
  maxFreq < minFreq -> (1 <= steps)%Z ->
  forall index,
    bands h minFreq maxFreq fuel steps index [] = inl []
    \/ bands h minFreq maxFreq fuel steps index [] = inr [].
Proof.
  intros Hrev Hsteps. induction fuel as [| fuel IH]; intros index;
    cbn [bands]; [now left |].
  destruct (index <? Z.of_nat (List.length (temperedScale h)))%Z;
    [| now left].
  unfold band.
  destruct (at_ (temperedScale h) index) as [lo |] eqn:Elo; [| now right].
  destruct (at_ (temperedScale h) (index + steps - 1)) as [hi |] eqn:Ehi;
    [| now right].
  apply at_scale in Elo, Ehi.
  destruct Elo as (j & Hj & -> & ->), Ehi as (k & Hk & Ek & ->).
  rewrite !entryAt_freq.
  destruct (Rltb maxFreq (tfreq k)) eqn:Ehigh; cbn [orb]; [now right |].
  apply Rltb_false in Ehigh.
  destruct (Rleb (IZR (fftSize h) / 2) (IZR (bin (entryAt h k))));
    [now right |].
  assert (Elow : Rleb minFreq (tfreq j) = false).
  { apply Rleb_false. pose proof (tfreq_mono j k ltac:(lia)). lra. }
  rewrite Elow. apply IH.
Qed.

Lemma _calcBars_reversed (a : Analyzer) :
  _ready (host a) = true -> _isOctaveBands (aux a) = true ->
  _maxFreq (opts a) < _minFreq (opts a) ->
  exists a', _calcBars a = Thrown TypeError a' /\ _bars a' = []
             /\ opts a' = opts a.
Proof.
  intros Hr Hx Hrev. unfold _calcBars.
  change (host (set_bars a [])) with (host a).
  change (opts (set_bars a [])) with (opts a).
  change (aux (set_bars a [])) with (aux a).
  rewrite Hr, Hx. cbn [negb].
  destruct (at_ stepsTable (_mode (opts a))) as [steps |];
    [| eexists; now repeat split].
  unfold octaveBars. rewrite temperedScale_length.
  destruct (Z.le_gt_cases steps 0) as [Hs | Hs].
  - change 264%nat with (S 263).
    rewrite (bands_nonpositive_steps _ _ _ steps 263 Hs).
    eexists. now repeat split.
  - destruct (bands_reversed (host a) _ _ steps 264 Hrev ltac:(lia) 0)
      as [-> | ->]; cbn [rev placeBars mapi_from]; eexists;
      now repeat split.
Qed.

(** X27.  [set minFreq] and [set maxFreq] do not put the range in order.
    On a ready analyzer in octave mode, a value of 1 at least that makes
    minFreq greater than maxFreq is stored, and the rebuild then throws a
    TypeError and leaves no bar.  In discrete mode, [set minFreq] with a
    value whose bin is above the bin of maxFreq succeeds and leaves no
    bar. *)
Theorem reversed_range_through_the_setters (a : Analyzer) (value : R) :
  _ready (host a) = true -> 1 <= value ->
  (_isOctaveBands (aux a) = true ->
   (_maxFreq (opts a) < value ->
    exists a', minFreq_set a value = Thrown TypeError a'
               /\ _bars a' = [] /\ _minFreq (opts a') = value)
   /\ (value < _minFreq (opts a) ->
       exists a', maxFreq_set a value = Thrown TypeError a'
                  /\ _bars a' = [] /\ _maxFreq (opts a') = value))
  /\ (_isOctaveBands (aux a) = false ->
      isOctaveBands (_mode (opts a)) = false ->
      (_freqToBin (host a) (_maxFreq (opts a)) round
       < _freqToBin (host a) value floor)%Z ->
      exists a', minFreq_set a value = Ok a'
                 /\ _bars a' = [] /\ _minFreq (opts a') = value).
Proof.
  intros Hr Hv.
  assert (Elow : Rltb value 1 = false) by (apply Rltb_false; lra).
  split.
  - intros Hx. split; intros Hrev.
    + unfold minFreq_set. rewrite Elow.
      destruct (_calcBars_reversed
                  (set_opts a (set_minFreq (opts a) value)) Hr Hx Hrev)
        as (a' & E & Hb & Ho).
      exists a'. split; [exact E |]. split; [exact Hb |]. now rewrite Ho.
    + unfold maxFreq_set. rewrite Elow.
      destruct (_calcBars_reversed
                  (set_opts a (set_maxFreq (opts a) value)) Hr Hx Hrev)
        as (a' & E & Hb & Ho).
      exists a'. split; [exact E |]. split; [exact Hb |]. now rewrite Ho.
  - intros Hx Hm Hbins. unfold minFreq_set. rewrite Elow.
    set (a1 := set_opts a (set_minFreq (opts a) value)).
    rewrite (_calcBars_discrete_state a1 Hr Hx Hm).
    eexists. split; [reflexivity |].
    destruct (_calcAux_fields
                (set_scale
                   (set_barWidth
                      (set_bars (set_bars a1 [])
                         (discreteBars (host a1) (_minFreq (opts a1))
                            (_maxFreq (opts a1)) (_analyzerWidth (aux a1))
                            (_initialX (aux a1)))) 1)
                   (JS.log10 (_minFreq (opts a1)))
                   (IZR (_analyzerWidth (aux a1))
                    / (JS.log10 (_maxFreq (opts a1))
                       - JS.log10 (_minFreq (opts a1))))))
      as (Ho & _ & Hb & _).
    rewrite Hb, Ho. cbn [_bars opts set_scale set_barWidth set_bars].
    split; [| reflexivity].
    unfold discreteBars.
    change (host a1) with (host a).
    change (_minFreq (opts a1)) with value.
    change (_maxFreq (opts a1)) with (_maxFreq (opts a)).
    replace (Z.to_nat (_freqToBin (host a) (_maxFreq (opts a)) round
                       - _freqToBin (host a) value floor + 1))
      with 0%nat by lia.
    reflexivity.
Qed.

Lemma reversed_range_through_the_setters_witness :
  let a := _calcAux (blank (hostOf 8192 44100)
                       (mkOptions 3 20 22000 0 false false false false 0 None)) in
  exists a', maxFreq_set a 10 = Thrown TypeError a' /\ _bars a' = [].
Proof.
  intros a.
  destruct (reversed_range_through_the_setters a 10 eq_refl ltac:(lra))
    as [Hoct _].
  destruct (Hoct eq_refl) as [_ Hmax].
  destruct Hmax as (a' & E & Hb & _); [cbn; lra |].
  exists a'. now split.
Defined.

(** ** The input connections *)

Lemma SourceNode_eqb_eq (x y : SourceNode) :
  SourceNode_eqb x y = true <-> x = y.
Proof.
  destruct x as [i | i], y as [j | j]; cbn [SourceNode_eqb];
    try (split; discriminate);
    rewrite Nat.eqb_eq; split; intros H; [now subst | now injection H
                                          | now subst | now injection H].
Qed.

Lemma spliceOut_incl (node : SourceNode) (l : list SourceNode) :
  incl (spliceOut node l) l.
Proof.
  induction l as [| x l IH]; cbn [spliceOut]; [easy |].
  destruct (SourceNode_eqb x node).
  - now apply incl_tl.
  - intros y [<- | Hy]; [now left | right; now apply IH].
Qed.

Lemma spliceOut_NoDup (node : SourceNode) (l : list SourceNode) :
  NoDup l -> NoDup (spliceOut node l).
Proof.
  induction 1 as [| x l Hx Hl IH]; cbn [spliceOut]; [constructor |].
  destruct (SourceNode_eqb x node); [exact Hl |].
  constructor; [| exact IH]. intros H. apply Hx. now apply spliceOut_incl in H.
Qed.

Lemma connectInput_inv (ctx : bool) (i i' : Inputs) (source : Source)
                       (node : SourceNode) :
  inputsInv i -> connectInput ctx i source = inr (i', node) ->
  inputsInv i' /\ (exists element, source = Media element)
  /\ node = Created (made i) /\ In node (_sources i').
Proof.
  intros [Hnd Hown] E. unfold connectInput in E.
  destruct source as [element | given |]; cbn [negb orb andb] in E;
    try discriminate.
  destruct ctx; cbn [negb] in E; [| discriminate].
  assert (Hnew : ~ In (Created (made i)) (_sources i)).
  { intros Hin. rewrite Forall_forall in Hown.
    destruct (Hown _ Hin) as (rank & Er & Hr). injection Er as Er. lia. }
  destruct (existsb (SourceNode_eqb (Created (made i))) (_sources i)) eqn:Ee.
  { apply existsb_exists in Ee. destruct Ee as (x & Hx & Ex).
    apply SourceNode_eqb_eq in Ex. subst x. contradiction. }
  injection E as <- <-. unfold inputsInv. cbn [_sources made].
  split; [split |].
  - apply NoDup_app; [exact Hnd | repeat constructor; intros [] |].
    intros x Hx [<- | []]. contradiction.
  - apply Forall_app. split.
    + revert Hown. apply Forall_impl. intros x (rank & -> & Hr).
      exists rank. split; [reflexivity | lia].
    + repeat constructor. exists (made i). split; [reflexivity | lia].
  - split; [now exists element |]. split; [reflexivity |].
    apply in_or_app. right. now left.
Qed.

Lemma disconnectInput_inv (i : Inputs) (sources : option (list SourceNode)) :
  inputsInv i -> inputsInv (disconnectInput i sources).
Proof.
  intros Hi. unfold disconnectInput.
  set (l := match sources with Some l => l | None => _sources i end).
  clearbody l. destruct i as [srcs n]. cbn [_sources made] in *.
  revert srcs Hi. induction l as [| node l IH]; intros srcs Hi;
    cbn [fold_left]; [exact Hi |].
  apply IH. destruct Hi as [Hnd Hown]. split; cbn [_sources made] in *.
  - now apply spliceOut_NoDup.
  - rewrite Forall_forall in *. intros x Hx. apply Hown.
    now apply spliceOut_incl in Hx.
Qed.

Lemma inputsAfter_inv (ctx : bool) (calls : list InputCall) :
  inputsInv (inputsAfter ctx calls).
Proof.
  unfold inputsAfter.
  assert (K : forall cs i, inputsInv i ->
                inputsInv (fold_left (inputStep ctx) cs i)).
  { induction cs as [| c cs IH]; intros i Hi; cbn [fold_left]; [exact Hi |].
    apply IH. destruct c as [source | sources]; cbn [inputStep].
    - destruct (connectInput ctx i source) as [e | [i' node]] eqn:E;
        [exact Hi |].
      now destruct (connectInput_inv ctx i i' source node Hi E).
    - now apply disconnectInput_inv. }
  apply K. split; [constructor | constructor].
Qed.

(** X28.  After any sequence of [connectInput] and [disconnectInput],
    [_sources] holds no node twice and none of the caller's audio nodes:
    [connectInput] throws ERR_INVALID_AUDIO_SOURCE for every audio node.  A
    media element is connected, through a new node, when the audio context
    is an [AudioContext], and is rejected otherwise.  [disconnectInput]
    without an argument empties [_sources]. *)
Theorem audio_nodes_are_never_connected (isAudioContext : bool)
                                        (calls : list InputCall) :
  let i := inputsAfter isAudioContext calls in
  NoDup (_sources i)
  /\ (forall n, ~ In (Given n) (_sources i))
  /\ (forall node,
        connectInput isAudioContext i (AudioNode node)
        = inl ERR_INVALID_AUDIO_SOURCE)
  /\ (forall element,
        connectInput isAudioContext i (Media element)
        = if isAudioContext
          then inr (mkInputs (_sources i ++ [Created (made i)]) (S (made i)),
                    Created (made i))
          else inl ERR_INVALID_AUDIO_SOURCE)
  /\ _sources (disconnectInput i None) = [].
Proof.
  intros i. destruct (inputsAfter_inv isAudioContext calls) as [Hnd Hown].
  fold i in Hnd, Hown.
  split; [exact Hnd |]. split.
  { intros n Hin. rewrite Forall_forall in Hown.
    destruct (Hown _ Hin) as (rank & E & _). discriminate. }
  split; [reflexivity |]. split.
  { intros element. unfold connectInput. cbn [negb orb andb].
    destruct isAudioContext; cbn [negb]; [| reflexivity].
    destruct (existsb (SourceNode_eqb (Created (made i))) (_sources i))
      eqn:Ee; [| reflexivity].
    apply existsb_exists in Ee. destruct Ee as (x & Hx & Ex).
    apply SourceNode_eqb_eq in Ex. subst x.
    rewrite Forall_forall in Hown.
    destruct (Hown _ Hx) as (rank & Er & Hr). injection Er as Er. lia. }
  unfold disconnectInput. cbn [_sources].
  assert (K : forall l, NoDup l ->
                fold_left (fun l0 node => spliceOut node l0) l l = []).
  { assert (G : forall l rest, NoDup (l ++ rest) ->
                  fold_left (fun l0 node => spliceOut node l0) l (l ++ rest)
                  = rest).
    { induction l as [| x l IHl]; intros rest Hl; cbn [fold_left app];
        [reflexivity |].
      cbn [spliceOut].
      assert (Ex : SourceNode_eqb x x = true) by now apply SourceNode_eqb_eq.
      rewrite Ex. apply IHl. now inversion Hl. }
    intros l Hl. specialize (G l [] ltac:(now rewrite app_nil_r)).
    now rewrite app_nil_r in G. }
  now apply K.
Qed.
